(** * Sarus: the SSH hook and the shared-library ABI picker

    A shallow embedding of [src/hooks/ssh/SshHook.cpp] and of
    [SharedLibrary::pickNewestAbiCompatibleLibrary], with the properties
    the specification states about them. *)

From Stdlib Require Import ZArith Lia Bool Ascii String DecimalString.
From stdpp Require Import base option list strings gmap.
From Equations Require Import Equations.

Local Open Scope string_scope.
Local Open Scope Z_scope.

(** ** Results of fallible code: a value, or the error that was raised *)

Inductive result (E A : Type) : Type :=
| Ok (a : A)
| Error (e : E).
Arguments Ok {E A} a.
Arguments Error {E A} e.

(** ** hooks/mpi/SharedLibrary *)

Module SharedLibrary.

Record SharedLibrary : Type := mkSharedLibrary {
  path : string;
  linkerName : string;
  realName : string;
  major : Z;
  minor : Z;
  patch : Z
}.

Definition getLinkerName (sl : SharedLibrary) : string := linkerName sl.
Definition getPath (sl : SharedLibrary) : string := path sl.
Definition getRealName (sl : SharedLibrary) : string := realName sl.

Definition hasMajorVersion (self : SharedLibrary) : bool :=
  negb (String.eqb (realName self) (linkerName self)).

Definition isFullAbiCompatible (self sl : SharedLibrary) : bool :=
  String.eqb (linkerName self) (getLinkerName sl)
  && (major self =? major sl) && (minor self <=? minor sl).

Definition isMajorAbiCompatible (self sl : SharedLibrary) : bool :=
  String.eqb (linkerName self) (getLinkerName sl)
  && (major self =? major sl).

(** First loop of the picker ("find the oldest"). [inl c] is the early
    [return c] of an exact match, [inr oldest] the value of [oldest]
    when the loop runs to its end. *)
Fixpoint findOldest (self oldest : SharedLibrary) (cs : list SharedLibrary)
  : SharedLibrary + SharedLibrary :=
  match cs with
  | [] => inr oldest
  | c :: rest =>
      if String.eqb (getRealName c) (realName self) then inl c
      else if (major c <? major oldest)
              || ((major c =? major oldest) && (minor c <=? minor oldest))
      then if (major oldest =? major self) && (major c <? major self)
           then findOldest self oldest rest
           else findOldest self c rest
      else findOldest self oldest rest
  end.

(** Second loop ("find best >= oldest but <= this"). *)
Fixpoint findBest (self best : SharedLibrary) (cs : list SharedLibrary)
  : SharedLibrary :=
  match cs with
  | [] => best
  | c :: rest =>
      if ((major best <? major c)
          || ((major c =? major best) && (minor best <=? minor c)))
         && (major c <=? major self) && (minor c <=? minor self)
      then if (major c =? major self) && (minor c =? minor self)
              && (patch c <? patch best)
           then findBest self best rest
           else findBest self c rest
      else findBest self best rest
  end.

Definition pickNewestAbiCompatibleLibrary
    (self : SharedLibrary) (candidates : list SharedLibrary)
  : result string SharedLibrary :=
  match candidates with
  | [] => Error "pickNewestAbiCompatibleLibrary received no candidates to pick from"
  | [c] => Ok c
  | c0 :: _ =>
      match findOldest self c0 candidates with
      | inl c => Ok c
      | inr oldest => Ok (findBest self oldest candidates)
      end
  end.

(** A library [name.so.M.m.p] as the constructor builds it from a path
    whose ABI string has three components. *)
Definition lib (name : string) (M m p : Z) (abi : string) : SharedLibrary :=
  {| path := "/lib/" +:+ name +:+ "." +:+ abi;
     linkerName := name;
     realName := name +:+ "." +:+ abi;
     major := M; minor := m; patch := p |}.

End SharedLibrary.

(** ** Values of the C++ and Boost libraries the hook uses *)

(** [int] is 32 bits wide. *)
Definition INT_MIN : Z := - 2 ^ 31.
Definition INT_MAX : Z := 2 ^ 31 - 1.

(** The value an [int] holds after an arithmetic result [z] (two's
    complement wrap-around). *)
Definition wrap_int (z : Z) : Z := (z + 2 ^ 31) mod 2 ^ 32 - 2 ^ 31.

(** [std::to_string(int)] and [ostream << int]. *)
Definition to_string (z : Z) : string := NilZero.string_of_int (Z.to_int z).

Definition isspace (c : ascii) : bool :=
  let n := nat_of_ascii c in
  Nat.eqb n 32 || (Nat.leb 9 n && Nat.leb n 13).

Definition digit_of (c : ascii) : option Z :=
  let n := nat_of_ascii c in
  if Nat.leb 48 n && Nat.leb n 57 then Some (Z.of_nat n - 48) else None.

Fixpoint skip_spaces (s : string) : string :=
  match s with
  | String c rest => if isspace c then skip_spaces rest else s
  | EmptyString => s
  end.

(** The digits at the front of [s], read in base ten onto [acc]; [None]
    when [s] starts with no digit. *)
Fixpoint read_digits (s : string) (acc : option Z) : option Z :=
  match s with
  | String c rest =>
      match digit_of c with
      | Some d => read_digits rest (Some (10 * default 0 acc + d))
      | None => acc
      end
  | EmptyString => acc
  end.

(** [std::stoi]: leading white space, an optional sign, decimal digits;
    what follows the digits is ignored. [None] stands for the exceptions
    [std::invalid_argument] and [std::out_of_range]. *)
Definition stoi (s : string) : option Z :=
  let s := skip_spaces s in
  let '(negative, s) :=
    match s with
    | String "-" rest => (true, rest)
    | String "+" rest => (false, rest)
    | _ => (false, s)
    end in
  match read_digits s None with
  | Some n =>
      let v := if negative then - n else n in
      if (INT_MIN <=? v) && (v <=? INT_MAX) then Some v else None
  | None => None
  end.

(** *** [boost::filesystem::path]

    A path is its string. [p / q] is [operator/] of Boost.Filesystem v3:
    [q] is appended, with a separator in between unless [p] is empty, [p]
    ends with one or [q] starts with one. Appending an absolute [q]
    therefore places it under [p], which is how the hook forms
    [rootfsDir / "/opt/oci-hooks/dropbear"]. *)

Definition starts_with_separator (s : string) : bool :=
  match s with
  | String "/" _ => true
  | _ => false
  end.

Fixpoint ends_with_separator (s : string) : bool :=
  match s with
  | EmptyString => false
  | String c EmptyString => Ascii.eqb c "/"
  | String _ rest => ends_with_separator rest
  end.

Definition path_append (p q : string) : string :=
  match q with
  | EmptyString => p
  | _ =>
      if starts_with_separator q then p +:+ q
      else match p with
           | EmptyString => q
           | _ => if ends_with_separator p then p +:+ q else p +:+ "/" +:+ q
           end
  end.

Notation "p // q" := (path_append p q) (at level 40, left associativity).

Definition is_absolute (p : string) : bool := starts_with_separator p.

(** The elements over which a path iterates: the root directory, then the
    names between separators, runs of separators counting as one, and a
    dot for a trailing separator. Two paths are equal when their elements
    are. *)
Fixpoint names_of (s : string) (cur : string) : list string :=
  match s with
  | EmptyString => match cur with EmptyString => ["."] | _ => [cur] end
  | String c rest =>
      if Ascii.eqb c "/"
      then match cur with
           | EmptyString => names_of rest EmptyString
           | _ => cur :: names_of rest EmptyString
           end
      else names_of rest (cur +:+ String c EmptyString)
  end.

Definition path_elements (p : string) : list string :=
  match p with
  | EmptyString => []
  | String "/" EmptyString => ["/"]
  | String "/" (String "/" (String c rest)) =>
      if Ascii.eqb c "/" then "/" :: names_of rest EmptyString
      else [p]
  | String "/" rest => "/" :: names_of rest EmptyString
  | _ => names_of p EmptyString
  end.

Definition path_eqb (p q : string) : bool :=
  bool_decide (path_elements p = path_elements q).

(** [boost::filesystem::perms] *)
Definition owner_read : Z := 256.    (* 0400 *)
Definition owner_write : Z := 128.   (* 0200 *)
Definition owner_exe : Z := 64.      (* 0100 *)
Definition owner_all : Z := 448.     (* 0700 *)
Definition group_read : Z := 32.     (* 040 *)
Definition group_exe : Z := 8.       (* 010 *)
Definition others_read : Z := 4.     (* 04 *)
Definition others_exe : Z := 1.      (* 01 *)

(** [std::endl] ends a line with a newline character. *)
Definition endl : string := String (ascii_of_nat 10) EmptyString.

(** The double quote written as an escaped quote in the C++ literals. *)
Definition dquote : string := String (ascii_of_nat 34) EmptyString.

(** *** [std::getline] over a [std::stringstream]

    The lines of [s]: the text before each newline, and the text after
    the last one when it is not empty. *)
Fixpoint getlines_aux (s : string) (cur : string) : list string :=
  match s with
  | EmptyString => match cur with EmptyString => [] | _ => [cur] end
  | String c rest =>
      if Ascii.eqb c (ascii_of_nat 10) then cur :: getlines_aux rest EmptyString
      else getlines_aux rest (cur +:+ String c EmptyString)
  end.

Definition getlines (s : string) : list string := getlines_aux s EmptyString.

(** [boost::regex_match] of a line against the pattern of the source, an
    anchored group that starts with [ecdsa-] and goes on with any
    characters: the whole line has to match, and the first group is then
    the line itself. *)
Definition regex_match_ecdsa (line : string) : option string :=
  if String.prefix "ecdsa-" line then Some line else None.

(** ** common/CLIArguments

    The argument vector handed to [execvp]: a [std::vector<char*>] whose
    last element is the null pointer. A [char*] is the null pointer
    ([None]) or points to a C string, which is given by its characters
    before the terminating NUL. Memory is taken to suffice: [strdup] and
    the vector never fail to allocate. What C++ leaves undefined (a
    [std::string] built from the null pointer, [strcmp] or [operator<<] on
    it, an array read past its end, an iterator used after the vector has
    changed) is [None]. *)
Module CLIArguments.

Definition NUL : ascii := ascii_of_nat 0.

(** [arg.c_str()] read as a C string, by [strdup] here: the characters
    before the first NUL. *)
Fixpoint c_str (arg : string) : string :=
  match arg with
  | EmptyString => EmptyString
  | String c rest => if Ascii.eqb c NUL then EmptyString else String c (c_str rest)
  end.

Record CLIArguments : Type := mkCLIArguments { args : list (option string) }.

#[global] Instance CLIArguments_eq_dec : EqDecision CLIArguments.
Proof. solve_decision. Defined.

(** [CLIArguments::CLIArguments()] *)
Definition new : CLIArguments := mkCLIArguments [None].

(** [void push_back(const std::string& arg)]: [pop_back], [push_back] of
    the copy, [push_back] of the null pointer. *)
Definition push_back (arg : string) (self : CLIArguments) : CLIArguments :=
  mkCLIArguments ((removelast (args self) ++ [Some (c_str arg)]) ++ [None]).

(** [args.size() - 1], computed in [size_t] and returned as an [int]. *)
Definition argc (self : CLIArguments) : Z :=
  wrap_int (Z.of_nat (length (args self)) - 1).

Definition argv (self : CLIArguments) : list (option string) := args self.

(** The pointers from [begin()] up to [end()], which is one before the end
    of the vector. *)
Definition range (self : CLIArguments) : list (option string) :=
  removelast (args self).

(** [push_back(ptr)] for a [char*]: the [std::string] that is passed is
    built from the C string. *)
Definition push_back_ptr (ptr : option string) (self : CLIArguments)
  : option CLIArguments :=
  arg ← ptr; Some (push_back arg self).

Fixpoint push_back_each (ptrs : list (option string)) (self : CLIArguments)
  : option CLIArguments :=
  match ptrs with
  | [] => Some self
  | ptr :: rest => self ← push_back_ptr ptr self; push_back_each rest self
  end.

(** [CLIArguments(const CLIArguments& rhs)]: the elements [rhs.argv()[i]]
    for [i] below [rhs.argc()]. *)
Definition copy (rhs : CLIArguments) : option CLIArguments :=
  push_back_each (take (Z.to_nat (argc rhs)) (argv rhs)) new.

(** [CLIArguments(int argc, char* argv[])] *)
Definition from_argv (argc : Z) (argv : list (option string)) : option CLIArguments :=
  if (Z.to_nat argc <=? length argv)%nat
  then push_back_each (take (Z.to_nat argc) argv) new
  else None.

(** [CLIArguments(std::initializer_list<std::string> args)] *)
Definition from_list (strings : list string) : CLIArguments :=
  foldl (fun self arg => push_back arg self) new strings.

(** [clear()]: the strings are freed, and the vector is the null pointer
    alone. *)
Definition clear (self : CLIArguments) : CLIArguments := mkCLIArguments [None].

(** [empty()]: [begin() == end()] *)
Definition empty (self : CLIArguments) : bool :=
  bool_decide (range self = []).

(** The loop of [operator==] over the first [argc] elements of both. *)
Fixpoint strcmp_each (lhs rhs : list (option string)) : option bool :=
  match lhs, rhs with
  | [], _ => Some true
  | _ :: _, [] => None
  | lhsString :: lhs, rhsString :: rhs =>
      l ← lhsString; r ← rhsString;
      if String.eqb l r then strcmp_each lhs rhs else Some false
  end.

Definition operator_eq (lhs rhs : CLIArguments) : option bool :=
  if negb (argc lhs =? argc rhs) then Some false
  else strcmp_each (take (Z.to_nat (argc lhs)) (argv lhs)) (argv rhs).

(** [operator+]: [result] is a copy of [lhs], an object of its own, to
    which the elements of [rhs] are appended. *)
Definition operator_plus (lhs rhs : CLIArguments) : option CLIArguments :=
  result ← copy lhs; push_back_each (range rhs) result.

(** [operator<<]: what is written to the stream. *)
Fixpoint print_each (isFirstArg : bool) (ptrs : list (option string)) : option string :=
  match ptrs with
  | [] => Some EmptyString
  | ptr :: rest =>
      arg ← ptr; text ← print_each false rest;
      Some ((if isFirstArg then EmptyString else ", ")
            +:+ dquote +:+ arg +:+ dquote +:+ text)
  end.

Definition operator_shl (self : CLIArguments) : option string :=
  text ← print_each true (range self); Some ("[" +:+ text +:+ "]").

(** *** Member functions that change [*this] while they read another
    object by reference

    The objects are kept by address, since [rhs] may be [*this]. *)
Abbreviation Heap := (gmap nat CLIArguments).

(** [operator=]: [*this] is cleared, and then [rhs] is read. *)
Definition operator_assign (this rhs : nat) (heap : Heap) : option Heap :=
  self ← heap !! this;
  let heap := <[this := clear self]> heap in
  r ← heap !! rhs;
  self ← push_back_each (range r) (clear self);
  Some (<[this := self]> heap).

(** [operator+=]: when [rhs] is [*this] and holds an argument, the first
    [push_back] changes the vector over which the loop iterates. *)
Definition operator_plus_assign (this rhs : nat) (heap : Heap) : option Heap :=
  self ← heap !! this;
  r ← heap !! rhs;
  if bool_decide (this = rhs) && negb (empty r) then None
  else self ← push_back_each (range r) self; Some (<[this := self]> heap).

(** The arguments: the strings to which the pointers before the last
    element point. *)
Definition strings (self : CLIArguments) : list string := omap id (range self).

(** The invariant of the class: the vector is C strings followed by one
    null pointer. *)
Definition null_terminated (self : CLIArguments) : Prop :=
  exists strings : list string,
    args self = (map Some strings ++ [None])%list
    /\ Forall (fun arg => c_str arg = arg) strings.

End CLIArguments.

(** ** hooks/mpi/SharedLibrary, the constructor

    [SharedLibrary::SharedLibrary(path, rootDir)], given what
    [getSharedLibLinkerName] and [resolveSharedLibAbi] of common/Utility
    answer for the path: the linker name, and the components of the ABI
    version. [std::stoi] raises an exception for a component that does not
    start with a number, which is [None]. The constructor assigns [major],
    [minor] and [patch] only when the ABI version has the component;
    [unset] is what they hold otherwise, which the class declaration, not
    part of the sources at hand, decides. *)
Definition newSharedLibrary (unset : Z * Z * Z) (path linkerName : string)
    (abi : list string) : option SharedLibrary.SharedLibrary :=
  major ← match abi with
          | a0 :: _ => stoi a0
          | _ => Some unset.1.1
          end;
  minor ← match abi with
          | _ :: a1 :: _ => stoi a1
          | _ => Some unset.1.2
          end;
  patch ← match abi with
          | _ :: _ :: a2 :: _ => stoi a2
          | _ => Some unset.2
          end;
  let abiString := String.concat "." abi in
  Some (SharedLibrary.mkSharedLibrary path linkerName
          (if (0 <? String.length abiString)%nat
           then linkerName +:+ "." +:+ abiString
           else linkerName)
          major minor patch).

(** ** The world of the hook *)

(** *** Files

    The file system maps the path of a file to its bytes and its
    permission bits. A folder may have an entry of its own, with no
    bytes. *)
Record File : Type := mkFile { content : string; mode : Z }.

Abbreviation FS := (gmap string File).

Definition exists_ (fs : FS) (p : string) : bool := bool_decide (is_Some (fs !! p)).

(** [q] is [p] or lies below it. *)
Definition is_under (p q : string) : bool :=
  String.eqb p q || String.prefix (p +:+ "/") q.

(** Whether [s] has a separator. *)
Fixpoint has_separator (s : string) : bool :=
  match s with
  | EmptyString => false
  | String c rest => Ascii.eqb c "/" || has_separator rest
  end.

(** The folder in which [p] lies: the text before the last separator of
    [p]. It is empty for a name without separator, which lies in the
    working directory, and for a name directly under the root. *)
Fixpoint directory_of (p : string) : string :=
  match p with
  | EmptyString => EmptyString
  | String c rest =>
      if has_separator rest then String c (directory_of rest) else EmptyString
  end.

(** A folder is there when the map has an entry for it or for something
    below it: a folder that holds something needs no entry of its own. The
    root and the working directory are always there. *)
Definition is_directory (fs : FS) (dir : string) : bool :=
  String.eqb dir EmptyString
  || bool_decide (map_Exists (fun q _ => is_under dir q = true) fs).

(** Opening a [std::ofstream] on [p], writing [text] and closing it. The
    stream opens when the folder of [p] is there: the file is then created
    when absent (with the permissions the umask leaves) and truncated when
    present. Otherwise the stream does not open, and what is written to it
    is lost: the source never tests the stream, so the files stay as they
    are and the caller goes on. *)
Definition ofstream_write (umask : Z) (p text : string) (fs : FS) : FS :=
  if is_directory fs (directory_of p)
  then match fs !! p with
       | Some f => <[p := mkFile text (mode f)]> fs
       | None => <[p := mkFile text (Z.ldiff 438 umask)]> fs
       end
  else fs.

(** [boost::filesystem::permissions(p, perms)] replaces the permission
    bits of an existing file, and raises an error when there is none. *)
Definition set_permissions (p : string) (perms : Z) (fs : FS) : option FS :=
  match fs !! p with
  | Some f => Some (<[p := mkFile (content f) perms]> fs)
  | None => None
  end.

(** [boost::filesystem::remove_all(p)] removes [p] and all that is below,
    and nothing else: the folder in which [p] lay stays. Where the map knew
    of that folder only through what is removed, the folder, now empty,
    gets an entry of its own. *)
Definition remove_all (p : string) (fs : FS) : FS :=
  let rest := filter (fun kv => is_under p kv.1 = false) fs in
  if is_directory fs (directory_of p) && negb (is_directory rest (directory_of p))
  then <[directory_of p := mkFile EmptyString (7 * 64 + 5 * 8 + 5)]> rest
  else rest.

(** *** The process credentials the kernel keeps, and the system calls of
    the pre-exec actions *)

Record Proc : Type := mkProc {
  root : string;
  capBoundingSet : gset Z;
  supplementaryGroups : list Z;
  rgid : Z; egid : Z; sgid : Z;
  ruid : Z; euid : Z; suid : Z;
  noNewPrivs : bool
}.

Inductive Errno : Type := EPERM | EINVAL | ENOENT | EACCES | ENOMEM | EAGAIN.

Definition Errno_eqb (a b : Errno) : bool :=
  match a, b with
  | EPERM, EPERM | EINVAL, EINVAL | ENOENT, ENOENT
  | EACCES, EACCES | ENOMEM, ENOMEM | EAGAIN, EAGAIN => true
  | _, _ => false
  end.

Inductive Syscall : Type :=
| chroot (dir : string)
| prctl_PR_CAPBSET_DROP (cap : Z)
| setgroups (groups : list Z)
| setresgid (r e s : Z)
| setresuid (r e s : Z)
| prctl_PR_SET_NO_NEW_PRIVS (flag : Z).

(** *** /etc/passwd *)

(** Modelled from the spec: the entry type of common/PasswdDB, whose
    declaration is not part of the sources at hand. The specification
    lists the fields [username, uid, gid, gecos, home, shell], and its
    sample line has the password column of passwd(5) after the username;
    the hook names the last field [userCommandInterpreter] and treats it as
    optional. *)
Record Entry : Type := mkEntry {
  entryUsername : string;
  entryPassword : string;
  entryUid : Z;
  entryGid : Z;
  entryGecos : string;
  entryHome : string;
  userCommandInterpreter : option string
}.

Abbreviation PasswdDB := (list Entry).

(** Modelled from the spec: [PasswdDB::getHomeDirectory], which is not
    part of the sources at hand: "find the entry with matching UID,
    extract its home directory"; a UID without entry is an error. *)
Definition getHomeDirectory (db : PasswdDB) (uid : Z) : option string :=
  entryHome <$> List.find (fun e => entryUid e =? uid) db.

(** Modelled from the spec: [PasswdDB::getUsername], likewise. *)
Definition getUsernameOf (db : PasswdDB) (uid : Z) : option string :=
  entryUsername <$> List.find (fun e => entryUid e =? uid) db.

(** *** The bundle's config.json, as far as the hook reads it. A member
    that the document lacks is [None]. *)
Record Json : Type := mkJson {
  root_path : option string;
  process_user_uid : option Z;
  process_user_gid : option Z
}.

(** *** What the hook does to the outside, in the order it does it

    One event for each call that leaves SshHook.cpp, with what it
    answered where the hook depends on the answer: the helpers of
    common/Utility, hooks/common/Utility, common/Lockfile, common/PasswdDB
    and runtime/mount_utilities, Boost.Filesystem, the file streams, and
    the launch of the daemon. The calls to the logger are left out: they
    write to the logging sink and nothing depends on them. *)
Inductive Event : Type :=
| getEnvironmentVariable (name : string)
| parseStateOfContainerFromStdin
| enterNamespacesOfProcess (pid : Z)
| readJSON (file : string)
| applyLoggingConfigIfAvailable
| parseEnvironmentVariablesFromOCIBundle (bundle : string)
| PasswdDB_read (file : string)
| PasswdDB_getUsername (uid : Z) (answer : option string)
| PasswdDB_getHomeDirectory (uid : Z) (answer : option string)
| PasswdDB_write (file : string)
| createFoldersIfNecessary (dir : string) (owner : option (Z * Z))
| Lockfile_acquire (dir : string)
| Lockfile_release (dir : string)
| filesystem_exists (p : string)
| filesystem_remove_all (p : string)
| filesystem_permissions (p : string) (perms : Z)
| filesystem_relative (p base : string)
| ofstream (file : string) (text : string)
| executeCommand (command : string)
| copyFile (src dst : string) (owner : option (Z * Z))
| switchIdentity (uid gid : Z) (supplementary : list Z)
| mountOverlayfs (lower upper work mountPoint : string)
| forkExecWait (argv : list string) (childCalls : list Syscall)
    (status : option Z).

(** The errors that end the hook: the exceptions of [SARUS_THROW_ERROR]
    in SshHook.cpp, named after their messages, and those that a
    collaborator or the standard library raises. *)
Inductive Err : Type :=
| CollaboratorFailed (e : Event)
| StoiFailed (text : string)
| JsonMemberMissing (member : string)
| FailedToParseKeyFrom (userKeyFile : string)
| FailedToChroot (rootfs : string) (errno : Errno)
| FailedToPrctlCapbsetDrop (capIdx : Z) (errno : Errno)
| FailedToSetgroups (errno : Errno)
| FailedToSetresgid (gid : Z) (errno : Errno)
| FailedToSetresuid (uid : Z) (errno : Errno)
| FailedToPrctlSetNoNewPrivs (errno : Errno)
| DropbearExitedWithStatus (dir : string) (status : Z).

(** What the collaborators answer. Their code is outside SshHook.cpp; the
    hook is verified for every platform. *)
Record Platform : Type := mkPlatform {
  (** the identity of the hook's process, and its umask *)
  getuid : Z;
  getgid : Z;
  getgroups : list Z;
  umask : Z;
  (** the environment variables; [getEnvironmentVariable] raises an error
      for one that is not set *)
  environ : string -> option string;
  (** the bundle directory and the PID that the runtime wrote to stdin *)
  stateOfContainer : option (string * Z);
  (** [readJSON] of a file *)
  jsonOf : string -> FS -> option Json;
  (** the variables of [process.env], in the order in which the container
      that [parseEnvironmentVariablesFromOCIBundle] returns yields them *)
  environmentOfBundle : string -> FS -> option (list (string * string));
  (** the parser and the serialiser of common/PasswdDB *)
  passwdParse : string -> option PasswdDB;
  passwdSerialise : PasswdDB -> string;
  (** what an external command prints and does to the files;
      [executeCommand] raises an error when it exits with another status
      than zero *)
  commandResult : string -> FS -> option (string * FS);
  (** what [createFoldersIfNecessary], [copyFile], [switchIdentity],
      [mountOverlayfs], [enterNamespacesOfProcess], [Lockfile] and
      [applyLoggingConfigIfAvailable] do to the files; [None] when they
      raise an error *)
  perform : Event -> FS -> option FS;
  (** [boost::filesystem::relative], which resolves links on the way *)
  relativeTo : string -> string -> FS -> string;
  (** the kernel: the highest capability it knows, the calls it refuses
      (and with which error), and the credentials of the forked child
      when it starts the pre-exec actions *)
  cap_last_cap : Z;
  kernelRefuses : Proc -> Syscall -> option Errno;
  procAtFork : Proc;
  (** the exit status that the parent collects for the program it
      launched with the given credentials; [None] when the fork or the
      wait fail *)
  statusOfExec : list string -> Proc -> option Z
}.

(** *** The hook object and the state of a run *)

Record SshHook : Type := mkSshHook {
  uidOfUser : Z;
  gidOfUser : Z;
  username : string;
  sshKeysDirInHost : string;
  sshKeysDirInContainer : string;
  dropbearDirInHost : string;
  dropbearRelativeDirInContainer : string;
  dropbearDirInContainer : string;
  bundleDir : string;
  rootfsDir : string;
  pidOfContainer : Z;
  serverPort : Z
}.

Record State : Type := mkState {
  this : SshHook;
  fs : FS;
  trace : list Event
}.

Inductive Outcome (A : Type) : Type :=
| Return (a : A) (s : State)
| Throw (e : Err) (s : State)
| Exit (status : Z) (s : State).
Arguments Return {A} a s.
Arguments Throw {A} e s.
Arguments Exit {A} status s.

Definition final_state {A} (o : Outcome A) : State :=
  match o with
  | Return _ s | Throw _ s | Exit _ s => s
  end.

Definition returns {A} (o : Outcome A) : bool :=
  match o with
  | Return _ _ => true
  | _ => false
  end.

(** The status with which the process of the hook ends: zero when the
    subcommand returns, [EXIT_FAILURE] when it calls [exit(EXIT_FAILURE)]
    or lets an exception escape. *)
Definition EXIT_FAILURE : Z := 1.

Definition exit_status {A} (o : Outcome A) : Z :=
  match o with
  | Return _ _ => 0
  | Throw _ _ => EXIT_FAILURE
  | Exit status _ => status
  end.

(** The monad of the hook's member functions. *)
Definition M (A : Type) : Type := State -> Outcome A.

#[global] Instance M_ret : MRet M := fun A a s => Return a s.

#[global] Instance M_bind : MBind M := fun A B f m s =>
  match m s with
  | Return a s' => f a s'
  | Throw e s' => Throw e s'
  | Exit status s' => Exit status s'
  end.

Definition throw {A} (e : Err) : M A := fun s => Throw e s.
Definition exit {A} (status : Z) : M A := fun s => Exit status s.
Definition get_this : M SshHook := fun s => Return (this s) s.
Definition get_fs : M FS := fun s => Return (fs s) s.
Definition set_this (f : SshHook -> SshHook) : M unit :=
  fun s => Return tt (mkState (f (this s)) (fs s) (trace s)).
Definition set_fs (fs' : FS) : M unit :=
  fun s => Return tt (mkState (this s) fs' (trace s)).
Definition emit (e : Event) : M unit :=
  fun s => Return tt (mkState (this s) (fs s) (trace s ++ [e])).

(** ** The kernel, as the pre-exec actions meet it

    [chroot(2)], [prctl(2)], [setgroups(2)], [setresgid(2)] and
    [setresuid(2)]: what a call that the kernel accepts does to the
    credentials. The platform decides which calls are refused. Two rules
    are fixed: [PR_CAPBSET_DROP] fails with [EINVAL] exactly for an index
    that is no capability, and with [EPERM] when refused; an identifier
    argument of [-1] (all bits set in the unsigned type) keeps the value. *)

Definition uid_t (z : Z) : Z := z mod 2 ^ 32.
Definition ID_UNCHANGED : Z := 2 ^ 32 - 1.

Definition new_id (arg old : Z) : Z := if arg =? ID_UNCHANGED then old else arg.

Definition cap_valid (P : Platform) (cap : Z) : bool :=
  (0 <=? cap) && (cap <=? cap_last_cap P).

Definition accepted (p : Proc) (c : Syscall) : Errno + Proc :=
  match c with
  | chroot dir =>
      inr (mkProc dir (capBoundingSet p) (supplementaryGroups p)
             (rgid p) (egid p) (sgid p) (ruid p) (euid p) (suid p) (noNewPrivs p))
  | prctl_PR_CAPBSET_DROP cap =>
      inr (mkProc (root p) (capBoundingSet p ∖ {[cap]}) (supplementaryGroups p)
             (rgid p) (egid p) (sgid p) (ruid p) (euid p) (suid p) (noNewPrivs p))
  | setgroups groups =>
      inr (mkProc (root p) (capBoundingSet p) groups
             (rgid p) (egid p) (sgid p) (ruid p) (euid p) (suid p) (noNewPrivs p))
  | setresgid r e s =>
      inr (mkProc (root p) (capBoundingSet p) (supplementaryGroups p)
             (new_id r (rgid p)) (new_id e (egid p)) (new_id s (sgid p))
             (ruid p) (euid p) (suid p) (noNewPrivs p))
  | setresuid r e s =>
      inr (mkProc (root p) (capBoundingSet p) (supplementaryGroups p)
             (rgid p) (egid p) (sgid p)
             (new_id r (ruid p)) (new_id e (euid p)) (new_id s (suid p))
             (noNewPrivs p))
  | prctl_PR_SET_NO_NEW_PRIVS flag =>
      if flag =? 1
      then inr (mkProc (root p) (capBoundingSet p) (supplementaryGroups p)
                  (rgid p) (egid p) (sgid p) (ruid p) (euid p) (suid p) true)
      else inl EINVAL
  end.

Definition kernel (P : Platform) (p : Proc) (c : Syscall) : Errno + Proc :=
  match c with
  | prctl_PR_CAPBSET_DROP cap =>
      if cap_valid P cap
      then match kernelRefuses P p c with
           | Some _ => inl EPERM
           | None => accepted p c
           end
      else inl EINVAL
  | _ =>
      match kernelRefuses P p c with
      | Some e => inl e
      | None => accepted p c
      end
  end.

(** The forked child: its credentials and the system calls it has made. *)
Record Child : Type := mkChild { proc : Proc; calls : list Syscall }.

(** A system call of the child. [None] is the return value zero, [Some e]
    the return value -1 with [errno = e]. *)
Definition syscall (P : Platform) (c : Syscall) (st : Child) : option Errno * Child :=
  match kernel P (proc st) c with
  | inr p' => (None, mkChild p' (calls st ++ [c]))
  | inl e => (Some e, mkChild (proc st) (calls st ++ [c]))
  end.

(** ** SshHook::startSshDaemonInContainer, the pre-exec actions *)

(** How many more iterations the capability loop can make from [capIdx]:
    the loop goes on only after a call that the kernel accepted, that is
    for a valid capability. *)
Definition capsAhead (P : Platform) (capIdx : Z) : nat :=
  let top := Z.min (cap_last_cap P) INT_MAX in
  if cap_valid P capIdx
  then if capIdx <=? INT_MAX then Z.to_nat (top + 1 - capIdx) else Z.to_nat (top + 2)
  else 0%nat.

Lemma syscall_capbset_accepted P capIdx st st' :
  syscall P (prctl_PR_CAPBSET_DROP capIdx) st = (None, st') ->
  cap_valid P capIdx = true.
Proof.
  unfold syscall, kernel. destruct (cap_valid P capIdx); [done|].
  intros H. discriminate H.
Qed.

Lemma capsAhead_decreases P capIdx :
  cap_valid P capIdx = true ->
  (capsAhead P (wrap_int (capIdx + 1)) < capsAhead P capIdx)%nat.
Proof.
  intros Hv. unfold capsAhead. rewrite Hv.
  unfold cap_valid in *. apply andb_prop in Hv as [H0 H1].
  apply Z.leb_le in H0, H1.
  assert (Hw : INT_MIN <= wrap_int (capIdx + 1) <= INT_MAX).
  { unfold wrap_int, INT_MIN, INT_MAX.
    pose proof (Z.mod_pos_bound (capIdx + 1 + 2 ^ 31) (2 ^ 32)). lia. }
  assert (Hs : capIdx < INT_MAX -> wrap_int (capIdx + 1) = capIdx + 1).
  { unfold wrap_int, INT_MAX. intros. rewrite Z.mod_small; lia. }
  assert (Hm : capIdx = INT_MAX -> wrap_int (capIdx + 1) = INT_MIN).
  { intros ->. reflexivity. }
  destruct (Z.leb_spec capIdx INT_MAX) as [Hle|Hgt].
  - destruct (Z.eq_dec capIdx INT_MAX) as [He|Hne].
    + rewrite (Hm He). subst capIdx. unfold INT_MIN. simpl andb. cbv iota. lia.
    + rewrite Hs by lia.
      destruct ((0 <=? capIdx + 1) && (capIdx + 1 <=? cap_last_cap P)); [|lia].
      destruct (Z.leb_spec (capIdx + 1) INT_MAX); lia.
  - destruct ((0 <=? wrap_int (capIdx + 1))
              && (wrap_int (capIdx + 1) <=? cap_last_cap P)) eqn:Hv'.
    + apply andb_prop in Hv' as [H2 H3]. apply Z.leb_le in H2, H3.
      destruct (Z.leb_spec (wrap_int (capIdx + 1)) INT_MAX); lia.
    + unfold INT_MAX in *. lia.
Qed.

(** A value together with the fact that it is the value of [x]. *)
Definition inspect {A : Type} (x : A) : {y : A | x = y} := exist _ x eq_refl.

(** [for(int capIdx = 0; ; capIdx++)]: drop capability [capIdx]; stop at
    the first call that fails, with success when [errno] is [EINVAL] and
    with an exception otherwise. *)
Equations? capDropLoop (P : Platform) (capIdx : Z) (st : Child)
  : result Err unit * Child by wf (capsAhead P capIdx) lt :=
  capDropLoop P capIdx st with inspect (syscall P (prctl_PR_CAPBSET_DROP capIdx) st) => {
    | exist _ (None, st') Hcall => capDropLoop P (wrap_int (capIdx + 1)) st';
    | exist _ (Some errno, st') Hcall =>
        if Errno_eqb errno EINVAL then (Ok tt, st')
        else (Error (FailedToPrctlCapbsetDrop capIdx errno), st') }.
Proof.
  eapply capsAhead_decreases, syscall_capbset_accepted, Hcall.
Defined.

(** Assignment to a member variable. *)
Definition set_uidOfUser (v : Z) (h : SshHook) : SshHook :=
  mkSshHook v (gidOfUser h) (username h) (sshKeysDirInHost h)
    (sshKeysDirInContainer h) (dropbearDirInHost h)
    (dropbearRelativeDirInContainer h) (dropbearDirInContainer h)
    (bundleDir h) (rootfsDir h) (pidOfContainer h) (serverPort h).
Definition set_gidOfUser (v : Z) (h : SshHook) : SshHook :=
  mkSshHook (uidOfUser h) v (username h) (sshKeysDirInHost h)
    (sshKeysDirInContainer h) (dropbearDirInHost h)
    (dropbearRelativeDirInContainer h) (dropbearDirInContainer h)
    (bundleDir h) (rootfsDir h) (pidOfContainer h) (serverPort h).
Definition set_username (v : string) (h : SshHook) : SshHook :=
  mkSshHook (uidOfUser h) (gidOfUser h) v (sshKeysDirInHost h)
    (sshKeysDirInContainer h) (dropbearDirInHost h)
    (dropbearRelativeDirInContainer h) (dropbearDirInContainer h)
    (bundleDir h) (rootfsDir h) (pidOfContainer h) (serverPort h).
Definition set_sshKeysDirInHost (v : string) (h : SshHook) : SshHook :=
  mkSshHook (uidOfUser h) (gidOfUser h) (username h) v
    (sshKeysDirInContainer h) (dropbearDirInHost h)
    (dropbearRelativeDirInContainer h) (dropbearDirInContainer h)
    (bundleDir h) (rootfsDir h) (pidOfContainer h) (serverPort h).
Definition set_sshKeysDirInContainer (v : string) (h : SshHook) : SshHook :=
  mkSshHook (uidOfUser h) (gidOfUser h) (username h) (sshKeysDirInHost h) v
    (dropbearDirInHost h) (dropbearRelativeDirInContainer h)
    (dropbearDirInContainer h) (bundleDir h) (rootfsDir h) (pidOfContainer h)
    (serverPort h).
Definition set_dropbearDirInHost (v : string) (h : SshHook) : SshHook :=
  mkSshHook (uidOfUser h) (gidOfUser h) (username h) (sshKeysDirInHost h)
    (sshKeysDirInContainer h) v (dropbearRelativeDirInContainer h)
    (dropbearDirInContainer h) (bundleDir h) (rootfsDir h) (pidOfContainer h)
    (serverPort h).
Definition set_dropbearRelativeDirInContainer (v : string) (h : SshHook) : SshHook :=
  mkSshHook (uidOfUser h) (gidOfUser h) (username h) (sshKeysDirInHost h)
    (sshKeysDirInContainer h) (dropbearDirInHost h) v
    (dropbearDirInContainer h) (bundleDir h) (rootfsDir h) (pidOfContainer h)
    (serverPort h).
Definition set_dropbearDirInContainer (v : string) (h : SshHook) : SshHook :=
  mkSshHook (uidOfUser h) (gidOfUser h) (username h) (sshKeysDirInHost h)
    (sshKeysDirInContainer h) (dropbearDirInHost h)
    (dropbearRelativeDirInContainer h) v (bundleDir h) (rootfsDir h)
    (pidOfContainer h) (serverPort h).
Definition set_bundleDir (v : string) (h : SshHook) : SshHook :=
  mkSshHook (uidOfUser h) (gidOfUser h) (username h) (sshKeysDirInHost h)
    (sshKeysDirInContainer h) (dropbearDirInHost h)
    (dropbearRelativeDirInContainer h) (dropbearDirInContainer h) v
    (rootfsDir h) (pidOfContainer h) (serverPort h).
Definition set_rootfsDir (v : string) (h : SshHook) : SshHook :=
  mkSshHook (uidOfUser h) (gidOfUser h) (username h) (sshKeysDirInHost h)
    (sshKeysDirInContainer h) (dropbearDirInHost h)
    (dropbearRelativeDirInContainer h) (dropbearDirInContainer h)
    (bundleDir h) v (pidOfContainer h) (serverPort h).
Definition set_pidOfContainer (v : Z) (h : SshHook) : SshHook :=
  mkSshHook (uidOfUser h) (gidOfUser h) (username h) (sshKeysDirInHost h)
    (sshKeysDirInContainer h) (dropbearDirInHost h)
    (dropbearRelativeDirInContainer h) (dropbearDirInContainer h)
    (bundleDir h) (rootfsDir h) v (serverPort h).
Definition set_serverPort (v : Z) (h : SshHook) : SshHook :=
  mkSshHook (uidOfUser h) (gidOfUser h) (username h) (sshKeysDirInHost h)
    (sshKeysDirInContainer h) (dropbearDirInHost h)
    (dropbearRelativeDirInContainer h) (dropbearDirInContainer h)
    (bundleDir h) (rootfsDir h) (pidOfContainer h) v.

(** ** Calls that leave SshHook.cpp *)

Section Hook.

Context (P : Platform).

(** A collaborator that acts on the files. *)
Definition call (e : Event) : M unit := fun s =>
  match perform P e (fs s) with
  | Some fs' => Return tt (mkState (this s) fs' (trace s ++ [e]))
  | None => Throw (CollaboratorFailed e) (mkState (this s) (fs s) (trace s ++ [e]))
  end.

Definition or_throw {A} (e : Event) (answer : option A) : M A :=
  match answer with
  | Some a => mret a
  | None => throw (CollaboratorFailed e)
  end.

Definition getenv (name : string) : M string :=
  emit (getEnvironmentVariable name);;
  or_throw (getEnvironmentVariable name) (environ P name).

Definition run (command : string) : M string := fun s =>
  let s' := mkState (this s) (fs s) (trace s ++ [executeCommand command]) in
  match commandResult P command (fs s) with
  | Some (output, fs') => Return output (mkState (this s') fs' (trace s'))
  | None => Throw (CollaboratorFailed (executeCommand command)) s'
  end.

Definition exists_file (p : string) : M bool :=
  emit (filesystem_exists p);;
  fs ← get_fs;
  mret (exists_ fs p).

Definition write_file (p text : string) : M unit :=
  emit (ofstream p text);;
  fs ← get_fs;
  set_fs (ofstream_write (umask P) p text fs).

Definition permissions (p : string) (perms : Z) : M unit :=
  emit (filesystem_permissions p perms);;
  fs ← get_fs;
  fs' ← or_throw (filesystem_permissions p perms) (set_permissions p perms fs);
  set_fs fs'.

Definition do_remove_all (p : string) : M unit :=
  emit (filesystem_remove_all p);;
  fs ← get_fs;
  set_fs (remove_all p fs).

(** Modelled from the spec: the constructor of [PasswdDB] from a file,
    which is not part of the sources at hand: it reads the file and
    parses it, and refuses what fails to parse. *)
Definition open_PasswdDB (file : string) : M PasswdDB :=
  emit (PasswdDB_read file);;
  fs ← get_fs;
  or_throw (PasswdDB_read file) (f ← fs !! file; passwdParse P (content f)).

(** Modelled from the spec: [PasswdDB::write], likewise: it serialises
    the entries to the file. *)
Definition write_PasswdDB (db : PasswdDB) (file : string) : M unit :=
  emit (PasswdDB_write file);;
  fs ← get_fs;
  set_fs (ofstream_write (umask P) file (passwdSerialise P db) fs).

(** [sarus::common::Lockfile lock{dir}] and the scope that follows it:
    the lock is released when the scope is left by a return or by an
    exception, and not when the process exits inside it. *)
Definition release (dir : string) (s : State) : State :=
  mkState (this s)
    (default (fs s) (perform P (Lockfile_release dir) (fs s)))
    (trace s ++ [Lockfile_release dir]).

Definition with_Lockfile {A} (dir : string) (scope : M A) : M A :=
  call (Lockfile_acquire dir);;
  ((fun s =>
      match scope s with
      | Return a s' => Return a (release dir s')
      | Throw e s' => Throw e (release dir s')
      | Exit status s' => Exit status s'
      end) : M A).

(** Modelled from the spec: [forkExecWait], which is not part of the
    sources at hand: the launcher forks; the child runs the pre-exec
    actions and then execs the program; the parent waits and returns
    the exit status. A child whose pre-exec actions raise an exception
    execs nothing and ends with [EXIT_FAILURE]. *)
Definition do_forkExecWait (argv : list string)
    (preExecActions : Child -> result Err unit * Child) : M Z := fun s =>
  let '(r, child) := preExecActions (mkChild (procAtFork P) []) in
  let status :=
    match r with
    | Ok _ => statusOfExec P argv (proc child)
    | Error _ => Some EXIT_FAILURE
    end in
  let e := forkExecWait argv (calls child) status in
  let s' := mkState (this s) (fs s) (trace s ++ [e]) in
  match status with
  | Some st => Return st s'
  | None => Throw (CollaboratorFailed e) s'
  end.

(** ** SshHook.cpp *)

Definition getUsername (uid : Z) : M string :=
  passwdFile ← getenv "PASSWD_FILE";
  db ← open_PasswdDB passwdFile;
  this ← get_this;
  let answer := getUsernameOf db (uidOfUser this) in
  emit (PasswdDB_getUsername (uidOfUser this) answer);;
  or_throw (PasswdDB_getUsername (uidOfUser this) answer) answer.

Definition getSshKeysDirInHost (username : string) : M string :=
  baseDir ← getenv "HOOK_BASE_DIR";
  mret (baseDir // username // ".oci-hooks/ssh/keys").

Definition expectedKeyFiles : list string :=
  ["dropbear_ecdsa_host_key"; "id_dropbear"; "authorized_keys"].

Fixpoint allExistIn (dir : string) (files : list string) : M bool :=
  match files with
  | [] => mret true
  | file :: rest =>
      found ← exists_file (dir // file);
      if (found : bool) then allExistIn dir rest else mret false
  end.

Definition userHasSshKeys : M bool :=
  this ← get_this;
  allExistIn (sshKeysDirInHost this) expectedKeyFiles.

Definition sshKeygenCommand (dropbearDir outputFile : string) : string :=
  dropbearDir +:+ "/bin/dropbearkey -t ecdsa -f " +:+ outputFile.

Definition sshKeygen (outputFile : string) : M unit :=
  this ← get_this;
  run (sshKeygenCommand (dropbearDirInHost this) outputFile);;
  mret tt.

Definition publicKeyCommand (dropbearDir keysDir : string) : string :=
  dropbearDir +:+ "/bin/dropbearkey -y -f " +:+ (keysDir // "id_dropbear").

(** [while(std::getline(ss, line))] with the return at the first line
    that the pattern matches. *)
Fixpoint firstMatch (lines : list string) : option string :=
  match lines with
  | [] => None
  | line :: rest =>
      match regex_match_ecdsa line with
      | Some key => Some key
      | None => firstMatch rest
      end
  end.

Definition firstPublicKey (output : string) : option string :=
  firstMatch (getlines output).

Definition generateAuthorizedKeys (userKeyFile authorizedKeysFile : string) : M unit :=
  this ← get_this;
  output ← run (publicKeyCommand (dropbearDirInHost this) (sshKeysDirInHost this));
  match firstPublicKey output with
  | Some key => write_file (sshKeysDirInHost this // "authorized_keys") (key +:+ endl)
  | None => throw (FailedToParseKeyFrom userKeyFile)
  end.

Definition generateSshKeys (overwriteSshKeysIfExist : bool) : M unit :=
  set_this (set_uidOfUser (getuid P));;
  set_this (set_gidOfUser (getgid P));;
  this ← get_this;
  name ← getUsername (uidOfUser this);
  set_this (set_username name);;
  dir ← getSshKeysDirInHost name;
  set_this (set_sshKeysDirInHost dir);;
  dropbearDir ← getenv "DROPBEAR_DIR";
  set_this (set_dropbearDirInHost dropbearDir);;
  call (createFoldersIfNecessary dir None);;
  with_Lockfile dir (
    has ← userHasSshKeys;
    if (has : bool) && negb overwriteSshKeysIfExist then mret tt
    else
      do_remove_all dir;;
      call (createFoldersIfNecessary dir None);;
      sshKeygen (dir // "dropbear_ecdsa_host_key");;
      sshKeygen (dir // "id_dropbear");;
      generateAuthorizedKeys (dir // "id_dropbear") (dir // "authorized_keys")).

Definition checkUserHasSshKeys : M unit :=
  set_this (set_uidOfUser (getuid P));;
  set_this (set_gidOfUser (getgid P));;
  this ← get_this;
  name ← getUsername (uidOfUser this);
  set_this (set_username name);;
  dir ← getSshKeysDirInHost name;
  set_this (set_sshKeysDirInHost dir);;
  has ← userHasSshKeys;
  if (has : bool) then mret tt else exit EXIT_FAILURE.

Definition member {A} (name : string) (value : option A) : M A :=
  match value with
  | Some a => mret a
  | None => throw (JsonMemberMissing name)
  end.

Definition parseConfigJSONOfBundle : M unit :=
  this ← get_this;
  let file := bundleDir this // "config.json" in
  emit (readJSON file);;
  fs ← get_fs;
  json ← or_throw (readJSON file) (jsonOf P file fs);
  call applyLoggingConfigIfAvailable;;
  root ← member "root.path" (root_path json);
  let rootfs := if is_absolute root then root else bundleDir this // root in
  set_this (set_rootfsDir rootfs);;
  set_this (set_dropbearDirInContainer (rootfs // dropbearRelativeDirInContainer this));;
  uid ← member "process.user.uid" (process_user_uid json);
  set_this (set_uidOfUser (uid_t uid));;
  gid ← member "process.user.gid" (process_user_gid json);
  set_this (set_gidOfUser (uid_t gid)).

Definition getSshKeysDirInContainer : M string :=
  this ← get_this;
  let file := rootfsDir this // "etc/passwd" in
  db ← open_PasswdDB file;
  let answer := getHomeDirectory db (uidOfUser this) in
  emit (PasswdDB_getHomeDirectory (uidOfUser this) answer);;
  homeDirectory ← or_throw (PasswdDB_getHomeDirectory (uidOfUser this) answer) answer;
  if String.eqb homeDirectory EmptyString || path_eqb homeDirectory "/nonexistent"
  then exit EXIT_FAILURE
  else mret (rootfsDir this // homeDirectory // ".ssh").

Definition copyDropbearIntoContainer : M unit :=
  this ← get_this;
  call (copyFile (dropbearDirInHost this // "bin/dbclient")
          (dropbearDirInContainer this // "bin/dbclient") None);;
  call (copyFile (dropbearDirInHost this // "bin/dropbear")
          (dropbearDirInContainer this // "bin/dropbear") None).

Definition setupSshKeysDirInContainer : M unit :=
  this ← get_this;
  call (switchIdentity (uidOfUser this) (gidOfUser this) []);;
  call (createFoldersIfNecessary (sshKeysDirInContainer this) None);;
  call (switchIdentity (getuid P) (getgid P) (getgroups P));;
  let lowerDir := bundleDir this // "overlay/ssh-lower" in
  let upperDir := bundleDir this // "overlay/ssh-upper" in
  let workDir := bundleDir this // "overlay/ssh-work" in
  call (createFoldersIfNecessary lowerDir None);;
  call (createFoldersIfNecessary upperDir (Some (uidOfUser this, gidOfUser this)));;
  call (createFoldersIfNecessary workDir None);;
  call (mountOverlayfs lowerDir upperDir workDir (sshKeysDirInContainer this)).

Definition copySshKeysIntoContainer : M unit :=
  this ← get_this;
  let owner := Some (uidOfUser this, gidOfUser this) in
  call (copyFile (sshKeysDirInHost this // "dropbear_ecdsa_host_key")
          (sshKeysDirInContainer this // "dropbear_ecdsa_host_key") owner);;
  call (copyFile (sshKeysDirInHost this // "id_dropbear")
          (sshKeysDirInContainer this // "id_dropbear") owner);;
  call (copyFile (sshKeysDirInHost this // "authorized_keys")
          (sshKeysDirInContainer this // "authorized_keys") owner).

(** The text of the ssh executable. *)
Definition sshExecutableText (dropbearRelativeDir : string) (port : Z) : string :=
  "#!/bin/sh" +:+ endl +:+
  dropbearRelativeDir +:+ "/bin/dbclient -y -p " +:+ to_string port +:+ " $*" +:+ endl.

Definition sshExecutablePerms : Z :=
  Z.lor owner_all
    (Z.lor group_read (Z.lor group_exe (Z.lor others_read others_exe))).

Definition createSshExecutableInContainer : M unit :=
  this ← get_this;
  do_remove_all (rootfsDir this // "usr/bin/ssh");;
  write_file (rootfsDir this // "usr/bin/ssh")
    (sshExecutableText (dropbearRelativeDirInContainer this) (serverPort this));;
  permissions (rootfsDir this // "usr/bin/ssh") sshExecutablePerms.

(** The body of the loop over the entries of the container's passwd
    file; [found] is the answer of [boost::filesystem::exists] for the
    interpreter under the root file system. *)
Definition patchEntry (found : bool) (entry : Entry) : Entry :=
  match userCommandInterpreter entry with
  | Some _ =>
      if negb found
      then mkEntry (entryUsername entry) (entryPassword entry) (entryUid entry)
             (entryGid entry) (entryGecos entry) (entryHome entry)
             (Some "/bin/sh")
      else entry
  | None => entry
  end.

Fixpoint patchEntries (rootfs : string) (entries : PasswdDB) : M PasswdDB :=
  match entries with
  | [] => mret []
  | entry :: rest =>
      found ← match userCommandInterpreter entry with
              | Some interpreter => exists_file (rootfs // interpreter)
              | None => mret true
              end;
      rest' ← patchEntries rootfs rest;
      mret (patchEntry found entry :: rest')
  end.

Definition patchPasswdIfNecessary : M unit :=
  this ← get_this;
  passwd ← open_PasswdDB (rootfsDir this // "etc/passwd");
  patched ← patchEntries (rootfsDir this) passwd;
  write_PasswdDB patched (rootfsDir this // "etc/passwd").

(** The text of the environment script: one line for each variable. *)
Definition exportLine (variable : string * string) : string :=
  "export " +:+ variable.1 +:+ "=" +:+ dquote +:+ variable.2 +:+ dquote +:+ endl.

Fixpoint exportLines (containerEnvironment : list (string * string)) : string :=
  match containerEnvironment with
  | [] => EmptyString
  | variable :: rest => exportLine variable +:+ exportLines rest
  end.

Definition environmentText (containerEnvironment : list (string * string)) : string :=
  "#!/bin/sh" +:+ endl +:+ exportLines containerEnvironment.

Definition environmentPerms : Z :=
  Z.lor owner_all (Z.lor group_read others_read).

Definition createEnvironmentFile : M unit :=
  this ← get_this;
  emit (parseEnvironmentVariablesFromOCIBundle (bundleDir this));;
  fs ← get_fs;
  containerEnvironment ←
    or_throw (parseEnvironmentVariablesFromOCIBundle (bundleDir this))
      (environmentOfBundle P (bundleDir this) fs);
  write_file (dropbearDirInContainer this // "environment")
    (environmentText containerEnvironment);;
  permissions (dropbearDirInContainer this // "environment") environmentPerms.

Definition etcProfileModuleText (dropbearRelativeDir : string) : string :=
  "#!/bin/sh" +:+ endl +:+
  "if [ " +:+ dquote +:+ "$SSH_CONNECTION" +:+ dquote +:+ " ]; then" +:+ endl +:+
  "    . " +:+ dropbearRelativeDir +:+ "/environment" +:+ endl +:+
  "fi" +:+ endl.

Definition etcProfileModulePerms : Z :=
  Z.lor owner_read (Z.lor owner_write (Z.lor group_read others_read)).

Definition createEtcProfileModule : M unit :=
  this ← get_this;
  write_file (rootfsDir this // "etc/profile.d/ssh-hook.sh")
    (etcProfileModuleText (dropbearRelativeDirInContainer this));;
  permissions (rootfsDir this // "etc/profile.d/ssh-hook.sh") etcProfileModulePerms.

(** The lambda [preExecActions], run by the forked child. *)
Definition preExecActions (this : SshHook) (st : Child) : result Err unit * Child :=
  match syscall P (chroot (rootfsDir this)) st with
  | (Some errno, st) => (Error (FailedToChroot (rootfsDir this) errno), st)
  | (None, st) =>
  match capDropLoop P 0 st with
  | (Error e, st) => (Error e, st)
  | (Ok _, st) =>
  match syscall P (setgroups []) st with
  | (Some errno, st) => (Error (FailedToSetgroups errno), st)
  | (None, st) =>
  match syscall P (setresgid (gidOfUser this) (gidOfUser this) (gidOfUser this)) st with
  | (Some errno, st) => (Error (FailedToSetresgid (gidOfUser this) errno), st)
  | (None, st) =>
  match syscall P (setresuid (uidOfUser this) (uidOfUser this) (uidOfUser this)) st with
  | (Some errno, st) => (Error (FailedToSetresuid (uidOfUser this) errno), st)
  | (None, st) =>
  match syscall P (prctl_PR_SET_NO_NEW_PRIVS 1) st with
  | (Some errno, st) => (Error (FailedToPrctlSetNoNewPrivs errno), st)
  | (None, st) => (Ok tt, st)
  end end end end end end.

Definition dropbearCommand (this : SshHook) (sshKeysPathWithinContainer : string)
  : list string :=
  [ dropbearRelativeDirInContainer this +:+ "/bin/dropbear";
    "-E";
    "-r"; sshKeysPathWithinContainer +:+ "/dropbear_ecdsa_host_key";
    "-p"; to_string (serverPort this) ].

Definition startSshDaemonInContainer : M unit :=
  this ← get_this;
  emit (filesystem_relative (sshKeysDirInContainer this) (rootfsDir this));;
  fs ← get_fs;
  let sshKeysPathWithinContainer :=
    "/" // relativeTo P (sshKeysDirInContainer this) (rootfsDir this) fs in
  status ← do_forkExecWait (dropbearCommand this sshKeysPathWithinContainer)
             (preExecActions this);
  if status =? 0 then mret tt
  else throw (DropbearExitedWithStatus (dropbearRelativeDirInContainer this) status).

Definition startSshDaemon : M unit :=
  set_this (set_dropbearRelativeDirInContainer "/opt/oci-hooks/dropbear");;
  dropbearDir ← getenv "DROPBEAR_DIR";
  set_this (set_dropbearDirInHost dropbearDir);;
  port ← getenv "SERVER_PORT";
  match stoi port with
  | None => throw (StoiFailed port)
  | Some port =>
      set_this (set_serverPort port);;
      emit parseStateOfContainerFromStdin;;
      '(bundle, pid) ← or_throw parseStateOfContainerFromStdin (stateOfContainer P);
      set_this (set_bundleDir bundle);;
      set_this (set_pidOfContainer pid);;
      call (enterNamespacesOfProcess pid);;
      parseConfigJSONOfBundle;;
      this ← get_this;
      name ← getUsername (uidOfUser this);
      set_this (set_username name);;
      keysDirInHost ← getSshKeysDirInHost name;
      set_this (set_sshKeysDirInHost keysDirInHost);;
      keysDirInContainer ← getSshKeysDirInContainer;
      set_this (set_sshKeysDirInContainer keysDirInContainer);;
      copyDropbearIntoContainer;;
      setupSshKeysDirInContainer;;
      copySshKeysIntoContainer;;
      patchPasswdIfNecessary;;
      createEnvironmentFile;;
      createEtcProfileModule;;
      startSshDaemonInContainer;;
      createSshExecutableInContainer
  end.

End Hook.

(** The hook object before a subcommand runs, and the run of a subcommand
    on a file system. *)
Definition newSshHook : SshHook := mkSshHook 0 0 EmptyString EmptyString EmptyString EmptyString EmptyString EmptyString EmptyString EmptyString 0 0.

Definition initially (fs : FS) : State := mkState newSshHook fs [].

(** ** A platform to run the hook on

    User alice (1000:1000), a bundle in [/bundle] whose root file system
    is [/bundle/rootfs], Dropbear staged in [/opt/dropbear], a kernel with
    capabilities 0 to 40 that refuses nothing. The passwd files have the
    seven columns of passwd(5). *)
Module Sample.

(** Modelled from the spec: the text of a passwd file as PasswdDB reads and
    writes it; PasswdDB is not part of the sources at hand. The file is
    read line by line, each line the columns of the spec's sample line
    [alice:x:1000:1000::/home/alice:/bin/bash] between colons, of which the
    last may be empty; a line that fails to parse is refused. The file is
    written one entry to a line. *)
Fixpoint split_on (sep : ascii) (s : string) (cur : string) : list string :=
  match s with
  | EmptyString => [cur]
  | String c rest =>
      if Ascii.eqb c sep then cur :: split_on sep rest EmptyString
      else split_on sep rest (cur +:+ String c EmptyString)
  end.

Definition parseLine (line : string) : option Entry :=
  match split_on ":" line EmptyString with
  | [name; password; uid; gid; gecos; home; shell] =>
      uid ← stoi uid;
      gid ← stoi gid;
      Some (mkEntry name password uid gid gecos home
              (if String.eqb shell EmptyString then None else Some shell))
  | _ => None
  end.

Definition parse (text : string) : option PasswdDB :=
  mapM parseLine (getlines text).

Definition serialiseEntry (e : Entry) : string :=
  entryUsername e +:+ ":" +:+ entryPassword e +:+ ":" +:+ to_string (entryUid e)
  +:+ ":" +:+ to_string (entryGid e) +:+ ":" +:+ entryGecos e +:+ ":" +:+ entryHome e
  +:+ ":" +:+ default EmptyString (userCommandInterpreter e) +:+ endl.

Definition serialise (db : PasswdDB) : string :=
  foldr (fun e text => serialiseEntry e +:+ text) EmptyString db.

(** What is left of [text] after [p], when [text] starts with [p]. *)
Fixpoint strip_prefix (p text : string) : option string :=
  match p, text with
  | EmptyString, _ => Some text
  | String a p', String b text' =>
      if Ascii.eqb a b then strip_prefix p' text' else None
  | String _ _, EmptyString => None
  end.

(** [dropbearkey -t ecdsa -f FILE] writes a private key to FILE;
    [dropbearkey -y -f FILE] prints [publicKeyText]. *)
Definition dropbearkey (publicKeyText : string) (command : string) (fs : FS)
  : option (string * FS) :=
  match strip_prefix "/opt/dropbear/bin/dropbearkey -t ecdsa -f " command with
  | Some file => Some ("Generating key", <[file := mkFile "PRIVATE KEY" 384]> fs)
  | None =>
      match strip_prefix "/opt/dropbear/bin/dropbearkey -y -f " command with
      | Some _ => Some (publicKeyText, fs)
      | None => None
      end
  end.

Definition publicKeyText : string :=
  "Public key portion is:" +:+ endl +:+
  "ecdsa-sha2-nistp256 AAAAE2VjZHNh alice@host" +:+ endl +:+
  "Fingerprint: sha1!! 00:11" +:+ endl.

Definition config : Json := mkJson (Some "rootfs") (Some 1000) (Some 1000).

Definition process_env : list (string * string) :=
  [("PATH", "/usr/bin:/bin"); ("GREETING", "hello world")].

Definition variables : gmap string string :=
  {[ "HOOK_BASE_DIR" := "/var/hook"; "PASSWD_FILE" := "/etc/passwd";
     "DROPBEAR_DIR" := "/opt/dropbear"; "SERVER_PORT" := "2222" ]}.

Definition process (uid gid : Z) : Proc :=
  mkProc "/" (list_to_set (seqZ 0 41)) [gid; 4; 24] gid gid gid uid uid uid false.

Definition platform (uid gid : Z) (publicKeyText : string) : Platform :=
  {| getuid := uid; getgid := gid; getgroups := [gid; 4; 24]; umask := 18;
     environ := fun name => variables !! name;
     stateOfContainer := Some ("/bundle", 4242);
     jsonOf := fun file _ =>
       if String.eqb file "/bundle/config.json" then Some config else None;
     environmentOfBundle := fun _ _ => Some process_env;
     passwdParse := parse;
     passwdSerialise := serialise;
     commandResult := dropbearkey publicKeyText;
     perform := fun _ fs => Some fs;
     relativeTo := fun p base _ =>
       String.substring (S (String.length base)) (String.length p) p;
     cap_last_cap := 40;
     kernelRefuses := fun _ _ => None;
     procAtFork := process uid gid;
     statusOfExec := fun _ _ => Some 0 |}.

Definition hostPasswd : string :=
  "root:x:0:0:root:/root:/bin/bash" +:+ endl +:+
  "alice:x:1000:1000:Alice:/home/alice:/bin/bash" +:+ endl.

(** A container whose passwd file names two interpreters, of which only
    [/bin/sh] is in the image. *)
Definition containerPasswd : string :=
  "root:x:0:0:root:/root:/bin/sh" +:+ endl +:+
  "alice:x:1000:1000::/home/alice:/bin/bash" +:+ endl.

(** The files of the host and of the image, and the folders of the
    container into which the hook writes. *)
Definition files : FS :=
  {[ "/etc/passwd" := mkFile hostPasswd 420;
     "/bundle/rootfs/etc/passwd" := mkFile containerPasswd 420;
     "/bundle/rootfs/bin/sh" := mkFile "ELF" 493;
     "/bundle/rootfs/usr/bin" := mkFile EmptyString 493;
     "/bundle/rootfs/etc/profile.d" := mkFile EmptyString 493;
     "/bundle/rootfs/opt/oci-hooks/dropbear" := mkFile EmptyString 493 ]}.

End Sample.

(** ** Vocabulary for statements about runs *)

(** The kind of an event: the call, without its arguments. *)
Inductive Kind : Type :=
| K_getEnvironmentVariable | K_parseStateOfContainerFromStdin
| K_enterNamespacesOfProcess | K_readJSON | K_applyLoggingConfigIfAvailable
| K_parseEnvironmentVariablesFromOCIBundle | K_PasswdDB_read
| K_PasswdDB_getUsername | K_PasswdDB_getHomeDirectory | K_PasswdDB_write
| K_createFoldersIfNecessary | K_Lockfile_acquire | K_Lockfile_release
| K_filesystem_exists | K_filesystem_remove_all | K_filesystem_permissions
| K_filesystem_relative | K_ofstream | K_executeCommand | K_copyFile
| K_switchIdentity | K_mountOverlayfs | K_forkExecWait.

#[global] Instance Kind_eq_dec : EqDecision Kind.
Proof. solve_decision. Defined.

Definition kind (e : Event) : Kind :=
  match e with
  | getEnvironmentVariable _ => K_getEnvironmentVariable
  | parseStateOfContainerFromStdin => K_parseStateOfContainerFromStdin
  | enterNamespacesOfProcess _ => K_enterNamespacesOfProcess
  | readJSON _ => K_readJSON
  | applyLoggingConfigIfAvailable => K_applyLoggingConfigIfAvailable
  | parseEnvironmentVariablesFromOCIBundle _ => K_parseEnvironmentVariablesFromOCIBundle
  | PasswdDB_read _ => K_PasswdDB_read
  | PasswdDB_getUsername _ _ => K_PasswdDB_getUsername
  | PasswdDB_getHomeDirectory _ _ => K_PasswdDB_getHomeDirectory
  | PasswdDB_write _ => K_PasswdDB_write
  | createFoldersIfNecessary _ _ => K_createFoldersIfNecessary
  | Lockfile_acquire _ => K_Lockfile_acquire
  | Lockfile_release _ => K_Lockfile_release
  | filesystem_exists _ => K_filesystem_exists
  | filesystem_remove_all _ => K_filesystem_remove_all
  | filesystem_permissions _ _ => K_filesystem_permissions
  | filesystem_relative _ _ => K_filesystem_relative
  | ofstream _ _ => K_ofstream
  | executeCommand _ => K_executeCommand
  | copyFile _ _ _ => K_copyFile
  | switchIdentity _ _ _ => K_switchIdentity
  | mountOverlayfs _ _ _ _ => K_mountOverlayfs
  | forkExecWait _ _ _ => K_forkExecWait
  end.

(** [of_kinds ks e]: the event [e] is a call of one of the kinds [ks]. *)
Definition of_kinds (ks : list Kind) (e : Event) : bool := bool_decide (kind e ∈ ks).

(** [emits ks g m]: whatever the state and however it ends, [m] appends
    calls of the kinds [ks] to the trace, and leaves the part [g] of the
    hook object as it was. *)
Definition emits {A B : Type} (ks : list Kind) (g : SshHook -> B) (m : M A) : Prop :=
  forall s, exists evs : list Event,
    trace (final_state (m s)) = (trace s ++ evs)%list
    /\ forallb (of_kinds ks) evs = true
    /\ g (this (final_state (m s))) = g (this s).

(** No event that satisfies [q] occurs before the first event that
    satisfies [p]. *)
Fixpoint not_until (q p : Event -> bool) (tr : list Event) : bool :=
  match tr with
  | [] => true
  | e :: rest => if p e then true else if q e then false else not_until q p rest
  end.

(** The text ends with [suffix]. *)
Fixpoint ends_with (suffix text : string) : bool :=
  String.eqb suffix text
  || match text with
     | EmptyString => false
     | String _ rest => ends_with suffix rest
     end.

(** What [parseConfigJSONOfBundle] leaves as it was: the members that
    [startSshDaemon] sets before it. *)
Definition settings (h : SshHook) : string * string * Z * string * Z :=
  (dropbearRelativeDirInContainer h, dropbearDirInHost h, serverPort h,
   bundleDir h, pidOfContainer h).

(** The calls by which the hook reads the state on stdin, joins the
    namespaces of the container, and reads the bundle's config.json. *)
Definition is_parseState : Event -> bool := of_kinds [K_parseStateOfContainerFromStdin].
Definition is_enterNamespaces : Event -> bool := of_kinds [K_enterNamespacesOfProcess].
Definition is_readConfig : Event -> bool :=
  of_kinds [K_readJSON; K_parseEnvironmentVariablesFromOCIBundle].

(** The launch of the daemon, and the launch that reported status zero. *)
Definition is_launch : Event -> bool := of_kinds [K_forkExecWait].

Definition is_launch_ok (e : Event) : bool :=
  match e with
  | forkExecWait _ _ (Some status) => status =? 0
  | _ => false
  end.

(** The kinds of the calls of the steps that come before the launch of
    the daemon. *)
Definition kinds_before_launch : list Kind :=
  [ K_getEnvironmentVariable; K_parseStateOfContainerFromStdin;
    K_enterNamespacesOfProcess; K_readJSON; K_applyLoggingConfigIfAvailable;
    K_parseEnvironmentVariablesFromOCIBundle; K_PasswdDB_read;
    K_PasswdDB_getUsername; K_PasswdDB_getHomeDirectory; K_PasswdDB_write;
    K_createFoldersIfNecessary; K_filesystem_exists; K_filesystem_permissions;
    K_filesystem_relative; K_ofstream; K_copyFile; K_switchIdentity;
    K_mountOverlayfs ].

(** A file stream opened on [p]. *)
Definition writes_file (p : string) (e : Event) : bool :=
  match e with
  | ofstream q _ => String.eqb p q
  | _ => false
  end.

(** The lookup of the home directory answered with the empty string, with
    [/nonexistent], or with no entry at all. *)
Definition invalid_home_answer (e : Event) : bool :=
  match e with
  | PasswdDB_getHomeDirectory _ (Some home) =>
      String.eqb home EmptyString || String.eqb home "/nonexistent"
  | PasswdDB_getHomeDirectory _ None => true
  | _ => false
  end.

(** The sample container with another home directory for alice. *)
Definition containerPasswdWithHome (home : string) : string :=
  "root:x:0:0:root:/root:/bin/sh" +:+ endl +:+
  "alice:x:1000:1000::" +:+ home +:+ ":/bin/bash" +:+ endl.

Definition filesWithHome (home : string) : FS :=
  <["/bundle/rootfs/etc/passwd" := mkFile (containerPasswdWithHome home) 420]> Sample.files.

(** The run of start-ssh-daemon on the sample. *)
Definition sampleRun : Outcome unit :=
  startSshDaemon (Sample.platform 0 0 Sample.publicKeyText) (initially Sample.files).

(** The hook object of the sample once the bundle has been parsed. *)
Definition sampleHook : SshHook :=
  mkSshHook 1000 1000 "alice" "/var/hook/alice/.oci-hooks/ssh/keys"
    "/bundle/rootfs/home/alice/.ssh" "/opt/dropbear" "/opt/oci-hooks/dropbear"
    "/bundle/rootfs/opt/oci-hooks/dropbear" "/bundle" "/bundle/rootfs" 4242 2222.

(** The sample container with [/bin/bash] in the image. *)
Definition filesWithBash : FS :=
  <["/bundle/rootfs/bin/bash" := mkFile "ELF" 493]> Sample.files.

(** The sample container with a passwd file whose last line ends without
    a newline, and in which every entry names [/bin/sh]. *)
Definition passwdWithoutFinalNewline : string :=
  "root:x:0:0:root:/root:/bin/sh" +:+ endl +:+
  "alice:x:1000:1000::/home/alice:/bin/sh".

Definition filesWithoutFinalNewline : FS :=
  <["/bundle/rootfs/etc/passwd" := mkFile passwdWithoutFinalNewline 420]> Sample.files.

(** What [boost::filesystem::exists] answers for the interpreter of an
    entry under the root file system; an entry without interpreter is not
    looked up. *)
Definition interpreterFound (fs : FS) (rootfs : string) (entry : Entry) : bool :=
  match userCommandInterpreter entry with
  | Some interpreter => exists_ fs (rootfs // interpreter)
  | None => true
  end.

(** The key store of alice, and a run of generate-ssh-keys in which the
    key generator prints no public key. *)
Definition keystore : string := "/var/hook/alice/.oci-hooks/ssh/keys".

Definition failedKeygenRun : Outcome unit :=
  generateSshKeys (Sample.platform 1000 1000 "Failed reading the key") false
    (initially Sample.files).

(** [keeps_files fs fs']: every file of [fs] is still there in [fs']. *)
Definition keeps_files (fs fs' : FS) : Prop :=
  forall p, is_Some (fs !! p) -> is_Some (fs' !! p).

(** [unchanged s s1]: the hook object and the files of [s1] are those of [s]. *)
Definition unchanged (s s1 : State) : Prop := this s1 = this s /\ fs s1 = fs s.

(** [yields L m]: when [m] returns, the kinds of the calls it has appended
    to the trace, in their order, satisfy [L]. *)
Definition yields {A} (L : list Kind -> Prop) (m : M A) : Prop :=
  forall s a s', m s = Return a s' ->
    exists evs : list Event, trace s' = (trace s ++ evs)%list /\ L (map kind evs).

(** The kinds are [ks0]; kinds of [L1] followed by kinds of [L2]; the
    kind [k] any number of times. *)
Definition exactly (ks0 : list Kind) : list Kind -> Prop := fun ks => ks = ks0.

Definition followed_by (L1 L2 : list Kind -> Prop) : list Kind -> Prop :=
  fun ks => exists k1 k2, ks = (k1 ++ k2)%list /\ L1 k1 /\ L2 k2.

Definition repeated (k : Kind) : list Kind -> Prop :=
  fun ks => exists n, ks = replicate n k.

(** The calls of a run of start-ssh-daemon that returns, in the order of
    [startSshDaemon]: the environment and the state on stdin; the entry
    into the namespaces; config.json; the user name and the key store on
    the host; the home directory in the container; the copy of the Dropbear
    binaries; the directory for the keys and the overlay on it; the copy of
    the keys; the passwd file, with one look-up for each entry that names
    an interpreter; the environment script; the module in /etc/profile.d;
    the launch of the daemon; the ssh executable. *)
Definition steps_in_order (n : nat) : list Kind :=
  ([ K_getEnvironmentVariable; K_getEnvironmentVariable;
     K_parseStateOfContainerFromStdin;
     K_enterNamespacesOfProcess;
     K_readJSON; K_applyLoggingConfigIfAvailable;
     K_getEnvironmentVariable; K_PasswdDB_read; K_PasswdDB_getUsername;
     K_getEnvironmentVariable;
     K_PasswdDB_read; K_PasswdDB_getHomeDirectory;
     K_copyFile; K_copyFile;
     K_switchIdentity; K_createFoldersIfNecessary; K_switchIdentity;
     K_createFoldersIfNecessary; K_createFoldersIfNecessary;
     K_createFoldersIfNecessary; K_mountOverlayfs;
     K_copyFile; K_copyFile; K_copyFile;
     K_PasswdDB_read ]
   ++ replicate n K_filesystem_exists
   ++ [ K_PasswdDB_write;
        K_parseEnvironmentVariablesFromOCIBundle; K_ofstream; K_filesystem_permissions;
        K_ofstream; K_filesystem_permissions;
        K_filesystem_relative; K_forkExecWait;
        K_filesystem_remove_all; K_ofstream; K_filesystem_permissions ])%list.

(** [c] has the real name of [self]: the exact match of the picker. *)
Definition sameRealName (self c : SharedLibrary.SharedLibrary) : bool :=
  String.eqb (SharedLibrary.getRealName c) (SharedLibrary.realName self).

(** The calls of [setupSshKeysDirInContainer], in the order of the code. *)
Definition setupCalls (P : Platform) (h : SshHook) : list Event :=
  let lowerDir := bundleDir h // "overlay/ssh-lower" in
  let upperDir := bundleDir h // "overlay/ssh-upper" in
  let workDir := bundleDir h // "overlay/ssh-work" in
  [ switchIdentity (uidOfUser h) (gidOfUser h) [];
    createFoldersIfNecessary (sshKeysDirInContainer h) None;
    switchIdentity (getuid P) (getgid P) (getgroups P);
    createFoldersIfNecessary lowerDir None;
    createFoldersIfNecessary upperDir (Some (uidOfUser h, gidOfUser h));
    createFoldersIfNecessary workDir None;
    mountOverlayfs lowerDir upperDir workDir (sshKeysDirInContainer h) ].

(** The root file system that [parseConfigJSONOfBundle] derives from the
    bundle directory and the member [root.path] of config.json. *)
Definition rootfsOf (bundleDir root : string) : string :=
  if is_absolute root then root else bundleDir // root.

(** The sample host with the three key files of alice in her key store. *)
Definition filesWithKeys : FS :=
  <[keystore // "dropbear_ecdsa_host_key" := mkFile "HOST KEY" 384]>
    (<[keystore // "id_dropbear" := mkFile "USER KEY" 384]>
       (<[keystore // "authorized_keys" := mkFile "ecdsa-sha2-nistp256 AAAA alice@host" 420]>
          Sample.files)).

(** What [getUsername] and [getSshKeysDirInHost] do to the state: they add
    calls to the trace, and change neither the hook nor the files. *)
Definition looks_up {A} (m : M A) : Prop :=
  forall s, exists evs : list Event,
    final_state (m s) = mkState (this s) (fs s) (trace s ++ evs)
    /\ forallb (of_kinds [K_getEnvironmentVariable; K_PasswdDB_read; K_PasswdDB_getUsername]) evs = true
    /\ match m s with Exit _ _ => False | _ => True end.

(** The calls that write into the container or launch a program. *)
Definition changes_container : Event -> bool :=
  of_kinds [K_copyFile; K_createFoldersIfNecessary; K_switchIdentity; K_mountOverlayfs;
            K_PasswdDB_write; K_ofstream; K_filesystem_permissions;
            K_filesystem_remove_all; K_forkExecWait].

(** The programs launched in a run: for each, the command line, the
    system calls that the child made before the program was to be executed,
    and the status collected. *)
Definition launches (tr : list Event)
  : list (list string * list Syscall * option Z) :=
  omap (fun e => match e with
                 | forkExecWait argv childCalls status => Some (argv, childCalls, status)
                 | _ => None
                 end) tr.

(** The system calls of pre-exec actions that end well, in their order:
    [chroot] into the root file system; [PR_CAPBSET_DROP] for the indices
    from 0 up to the first that is no capability, which the kernel answers
    with [EINVAL]; [setgroups] with no group; [setresgid] to the gid of the
    user; [setresuid] to the uid of the user; [PR_SET_NO_NEW_PRIVS]. *)
Definition preExecCalls (P : Platform) (h : SshHook) : list Syscall :=
  ([chroot (rootfsDir h)]
   ++ map prctl_PR_CAPBSET_DROP (seqZ 0 (cap_last_cap P + 2))
   ++ [ setgroups [];
        setresgid (gidOfUser h) (gidOfUser h) (gidOfUser h);
        setresuid (uidOfUser h) (uidOfUser h) (uidOfUser h);
        prctl_PR_SET_NO_NEW_PRIVS 1 ])%list.

(** The credentials of the user of the container: the root file system as
    root directory, no capability in the bounding set, no supplementary
    group, the gid and the uid of the user as real, effective and saved
    identifiers, and [no_new_privs] set. *)
Definition credentialsOfUser (h : SshHook) : Proc :=
  mkProc (rootfsDir h) ∅ []
    (gidOfUser h) (gidOfUser h) (gidOfUser h)
    (uidOfUser h) (uidOfUser h) (uidOfUser h) true.

(** The sample platform for a bundle whose config.json names the user
    [uid:gid]. *)
Definition platformOfUser (uid gid : Z) : Platform :=
  let P := Sample.platform 0 0 Sample.publicKeyText in
  mkPlatform (getuid P) (getgid P) (getgroups P) (umask P) (environ P)
    (stateOfContainer P)
    (fun file _ =>
       if String.eqb file "/bundle/config.json"
       then Some (mkJson (Some "rootfs") (Some uid) (Some gid))
       else None)
    (environmentOfBundle P) (passwdParse P) (passwdSerialise P) (commandResult P)
    (perform P) (relativeTo P) (cap_last_cap P) (kernelRefuses P) (procAtFork P)
    (statusOfExec P).

(** Every key file that is copied into the container, that is every copy
    that names an owner, goes to one of the three key files directly in the
    folder on which the last overlay before it was mounted; [overlay] is the
    mount point of that overlay, if there was one. *)
Fixpoint keys_land_on (overlay : option string) (tr : list Event) : bool :=
  match tr with
  | [] => true
  | mountOverlayfs _ _ _ mountPoint :: rest => keys_land_on (Some mountPoint) rest
  | copyFile _ dst (Some _) :: rest =>
      match overlay with
      | Some mountPoint =>
          existsb (fun file => String.eqb dst (mountPoint // file)) expectedKeyFiles
          && keys_land_on overlay rest
      | None => false
      end
  | _ :: rest => keys_land_on overlay rest
  end.

(** A copy that names an owner names [owner]. *)
Definition copy_is_owned_by (owner : Z * Z) (e : Event) : bool :=
  match e with
  | copyFile _ _ (Some (uid, gid)) => (uid =? owner.1) && (gid =? owner.2)
  | _ => true
  end.

(** The exception that the pre-exec actions raise when the kernel refuses
    a system call with [errno]. *)
Definition raised_on (c : Syscall) (errno : Errno) : Err :=
  match c with
  | chroot dir => FailedToChroot dir errno
  | prctl_PR_CAPBSET_DROP capIdx => FailedToPrctlCapbsetDrop capIdx errno
  | setgroups _ => FailedToSetgroups errno
  | setresgid gid _ _ => FailedToSetresgid gid errno
  | setresuid uid _ _ => FailedToSetresuid uid errno
  | prctl_PR_SET_NO_NEW_PRIVS _ => FailedToPrctlSetNoNewPrivs errno
  end.

(** The user identifiers and the [no_new_privs] flag of a process. *)
Definition uids (p : Proc) : Z * Z * Z * bool := (ruid p, euid p, suid p, noNewPrivs p).

(** A platform like [P] whose kernel refuses [setresgid]. *)
Definition refusingSetresgid (P : Platform) : Platform :=
  mkPlatform (getuid P) (getgid P) (getgroups P) (umask P) (environ P)
    (stateOfContainer P) (jsonOf P) (environmentOfBundle P) (passwdParse P)
    (passwdSerialise P) (commandResult P) (perform P) (relativeTo P)
    (cap_last_cap P)
    (fun _ c => match c with setresgid _ _ _ => Some EPERM | _ => None end)
    (procAtFork P) (statusOfExec P).

(** The text holds no newline character. *)
Fixpoint no_newline (s : string) : bool :=
  match s with
  | EmptyString => true
  | String c rest => negb (Ascii.eqb c (ascii_of_nat 10)) && no_newline rest
  end.

(** The calls of a run of generate-ssh-keys that returns, in the order of
    [generateSshKeys]: the user name (PASSWD_FILE, the passwd file, the
    entry); HOOK_BASE_DIR; DROPBEAR_DIR; the folder of the key store; the
    lock; one look-up for each key file up to the first that is missing;
    then, when the keys are generated, the removal of the key store, its
    folder, the key generator for the host key, for the user key and for
    the public key, and the stream on [authorized_keys]; the release of the
    lock. *)
Definition keygen_steps (lookups : nat) (generated : bool) : list Kind :=
  ([ K_getEnvironmentVariable; K_PasswdDB_read; K_PasswdDB_getUsername;
     K_getEnvironmentVariable; K_getEnvironmentVariable;
     K_createFoldersIfNecessary; K_Lockfile_acquire ]
   ++ replicate lookups K_filesystem_exists
   ++ (if generated
       then [ K_filesystem_remove_all; K_createFoldersIfNecessary;
              K_executeCommand; K_executeCommand; K_executeCommand; K_ofstream ]
       else [])
   ++ [ K_Lockfile_release ])%list.

(** * Properties *)

(** ** Strings *)

Lemma append_assoc (s t u : string) : (s +:+ t) +:+ u = s +:+ (t +:+ u).
Proof.
  induction s as [|c s IH]; [done|].
  change (String c ((s +:+ t) +:+ u) = String c (s +:+ (t +:+ u))). by rewrite IH.
Qed.

Lemma append_empty (s : string) : s +:+ EmptyString = s.
Proof.
  induction s as [|c s IH]; [done|].
  change (String c (s +:+ EmptyString) = String c s). by rewrite IH.
Qed.

(** ** File streams and folders *)

Lemma has_separator_app s t :
  has_separator (s +:+ t) = has_separator s || has_separator t.
Proof.
  induction s as [|c s IH]; [done|].
  change (has_separator (String c s +:+ t))
    with (Ascii.eqb c "/" || has_separator (s +:+ t)).
  rewrite IH. apply orb_assoc.
Qed.

Lemma directory_of_name p : has_separator p = false -> directory_of p = EmptyString.
Proof.
  destruct p as [|c p]; [done|]. cbn [has_separator directory_of].
  intros [_ ->]%orb_false_elim. reflexivity.
Qed.

Lemma directory_of_app p name :
  has_separator name = false -> directory_of (p +:+ name) = directory_of p.
Proof.
  intros Hname. induction p as [|c p IH]; [by apply directory_of_name|].
  change (directory_of (String c p +:+ name))
    with (if has_separator (p +:+ name) then String c (directory_of (p +:+ name))
          else EmptyString).
  rewrite has_separator_app, Hname, orb_false_r, IH. reflexivity.
Qed.

Lemma prefix_directory_of p :
  has_separator p = true -> String.prefix (directory_of p +:+ "/") p = true.
Proof.
  induction p as [|c p IH]; [discriminate|]. cbn [has_separator directory_of].
  destruct (has_separator p).
  - intros _.
    change (match ascii_dec c c with
            | left _ => String.prefix (directory_of p +:+ "/") p
            | right _ => false
            end = true).
    destruct (ascii_dec c c); [by apply IH|done].
  - rewrite orb_false_r. intros ->%Ascii.eqb_eq.
    change (match ascii_dec "/" "/" with
            | left _ => String.prefix EmptyString p
            | right _ => false
            end = true).
    destruct (ascii_dec "/" "/"); [by destruct p|done].
Qed.

(** The folder of a file that is there is there. *)
Lemma is_directory_of_file (fs : FS) p :
  is_Some (fs !! p) -> is_directory fs (directory_of p) = true.
Proof.
  intros [f Hf]. unfold is_directory.
  destruct (has_separator p) eqn:Hp.
  - apply orb_true_intro. right. apply bool_decide_eq_true.
    apply map_Exists_lookup. exists p, f. split; [exact Hf|].
    unfold is_under. by rewrite (prefix_directory_of p Hp), orb_true_r.
  - by rewrite (directory_of_name p Hp).
Qed.

(** Two names in one folder. *)
Lemma directory_of_sibling dir a b :
  a <> EmptyString -> b <> EmptyString ->
  has_separator a = false -> has_separator b = false ->
  directory_of (dir // a) = directory_of (dir // b).
Proof.
  intros Ha Hb Hsa Hsb.
  assert (H : forall name, name <> EmptyString -> has_separator name = false ->
            directory_of (dir // name)
            = match dir with
              | EmptyString => EmptyString
              | _ => if ends_with_separator dir then directory_of dir
                     else directory_of (dir +:+ "/")
              end).
  { intros name Hne Hs. unfold path_append.
    destruct name as [|c name]; [done|].
    replace (starts_with_separator (String c name)) with false.
    2: { cbn in Hs. apply orb_false_elim in Hs as [Hc _]. cbn.
         destruct c as [[] [] [] [] [] [] [] []]; try reflexivity; discriminate Hc. }
    destruct dir as [|d dir]; [by apply directory_of_name|].
    destruct (ends_with_separator (String d dir)).
    - by apply directory_of_app.
    - rewrite <- append_assoc. by apply directory_of_app. }
  by rewrite (H a Ha Hsa), (H b Hb Hsb).
Qed.

Lemma ofstream_write_keeps u p text (fs : FS) : keeps_files fs (ofstream_write u p text fs).
Proof.
  intros q Hq. unfold ofstream_write.
  destruct (is_directory fs (directory_of p)); [|exact Hq].
  destruct (fs !! p); (destruct (decide (p = q)) as [->|];
    [rewrite lookup_insert_eq; eauto | by rewrite lookup_insert_ne]).
Qed.

Lemma lookup_ofstream_write_ne u p text (fs : FS) q :
  q <> p -> ofstream_write u p text fs !! q = fs !! q.
Proof.
  intros Hne. unfold ofstream_write.
  destruct (is_directory fs (directory_of p)); [|done].
  destruct (fs !! p); by rewrite lookup_insert_ne.
Qed.

(** A stream on a file that is there truncates it and keeps its mode. *)
Lemma ofstream_write_existing u p text (fs : FS) f :
  fs !! p = Some f -> ofstream_write u p text fs = <[p := mkFile text (mode f)]> fs.
Proof.
  intros Hf. unfold ofstream_write.
  by rewrite (is_directory_of_file fs p (mk_is_Some _ _ Hf)), Hf.
Qed.

(** A stream in a folder that is there leaves the file with the text. *)
Lemma lookup_ofstream_write u p text (fs : FS) :
  is_directory fs (directory_of p) = true ->
  exists m, ofstream_write u p text fs !! p = Some (mkFile text m).
Proof.
  intros Hdir. unfold ofstream_write. rewrite Hdir.
  destruct (fs !! p) as [f|]; eexists; apply lookup_insert_eq.
Qed.

(** A stream in a folder that is not there writes nothing. *)
Lemma ofstream_write_lost u p text (fs : FS) :
  is_directory fs (directory_of p) = false -> ofstream_write u p text fs = fs.
Proof. intros Hdir. unfold ofstream_write. by rewrite Hdir. Qed.

(** The stream followed by [permissions] on its file, as the hook writes
    its scripts: the file is there with the text and the permissions when
    the folder was there, and [permissions] fails otherwise. *)
Lemma permissions_after_stream u p text perms (fs : FS) :
  set_permissions p perms (ofstream_write u p text fs)
  = if is_directory fs (directory_of p)
    then Some (<[p := mkFile text perms]> fs)
    else None.
Proof.
  unfold set_permissions, ofstream_write.
  destruct (is_directory fs (directory_of p)) eqn:Hdir.
  - destruct (fs !! p) as [f|]; rewrite lookup_insert_eq; cbn [content];
      by rewrite insert_insert_eq.
  - destruct (fs !! p) as [f|] eqn:Hf; [|done].
    by rewrite (is_directory_of_file fs p (mk_is_Some _ _ Hf)) in Hdir.
Qed.

Lemma lookup_filter_remove p (fs : FS) q :
  (filter (fun kv => is_under p kv.1 = false) fs : FS) !! q
  = if is_under p q then None else fs !! q.
Proof.
  destruct (is_under p q) eqn:Hu.
  - apply map_lookup_filter_None. right. intros f _. cbn. by rewrite Hu.
  - destruct (fs !! q) as [f|] eqn:Hq.
    + apply map_lookup_filter_Some. by split.
    + apply map_lookup_filter_None. by left.
Qed.

Lemma prefix_length s t : String.prefix s t = true -> (String.length s <= String.length t)%nat.
Proof.
  revert t. induction s as [|c s IH]; intros t H; [cbn; lia|].
  destruct t as [|d t]; [discriminate H|].
  change (match ascii_dec c d with left _ => String.prefix s t | right _ => false end = true) in H.
  destruct (ascii_dec c d); [|discriminate H]. cbn. apply IH in H. lia.
Qed.

Lemma length_append s t : String.length (s +:+ t) = (String.length s + String.length t)%nat.
Proof.
  induction s as [|c s IH]; [done|].
  change (S (String.length (s +:+ t)) = S (String.length s + String.length t)). by rewrite IH.
Qed.

Lemma directory_of_shorter p :
  p = EmptyString \/ (String.length (directory_of p) < String.length p)%nat.
Proof.
  induction p as [|c p IH]; [by left|]. right. cbn [directory_of].
  destruct (has_separator p) eqn:Hp; [|cbn; lia].
  destruct IH as [->|IH]; [discriminate Hp|]. cbn. lia.
Qed.

(** The folder in which [p] lies is not below [p]. *)
Lemma directory_of_not_under p :
  directory_of p <> EmptyString -> is_under p (directory_of p) = false.
Proof.
  intros Hne. destruct (directory_of_shorter p) as [->|Hlen]; [done|].
  unfold is_under. apply orb_false_intro.
  - apply String.eqb_neq. intros Heq. rewrite <- Heq in Hlen. lia.
  - destruct (String.prefix (p +:+ "/") (directory_of p)) eqn:Hpre; [|done].
    apply prefix_length in Hpre. rewrite length_append in Hpre. lia.
Qed.

Lemma remove_all_spec p (fs : FS) :
  let rest : FS := filter (fun kv => is_under p kv.1 = false) fs in
  remove_all p fs = rest
  \/ (remove_all p fs = <[directory_of p := mkFile EmptyString (7 * 64 + 5 * 8 + 5)]> rest
      /\ directory_of p <> EmptyString
      /\ fs !! directory_of p = None
      /\ is_directory fs (directory_of p) = true).
Proof.
  intros rest. unfold remove_all. fold rest.
  destruct (is_directory fs (directory_of p)) eqn:Hfs; [|by left].
  destruct (is_directory rest (directory_of p)) eqn:Hrest; [by left|]. right.
  cbn [andb negb]. split; [reflexivity|].
  unfold is_directory in Hrest. apply orb_false_elim in Hrest as [Hne Hnone].
  apply String.eqb_neq in Hne. split; [exact Hne|]. split; [|reflexivity].
  destruct (fs !! directory_of p) as [f|] eqn:Hdir; [|reflexivity].
  apply bool_decide_eq_false in Hnone. exfalso. apply Hnone.
  apply map_Exists_lookup. exists (directory_of p), f. split.
  - subst rest. rewrite lookup_filter_remove, (directory_of_not_under p Hne). exact Hdir.
  - unfold is_under. by rewrite String.eqb_refl.
Qed.

(** What [remove_all] takes away. *)
Lemma lookup_remove_all_under p (fs : FS) q :
  is_under p q = true -> remove_all p fs !! q = None.
Proof.
  intros Hu. destruct (remove_all_spec p fs) as [->|(-> & Hne & _)].
  - by rewrite lookup_filter_remove, Hu.
  - rewrite lookup_insert_ne, lookup_filter_remove, Hu; [done|].
    intros <-. by rewrite (directory_of_not_under p Hne) in Hu.
Qed.

(** What [remove_all] leaves. *)
Lemma lookup_remove_all_kept p (fs : FS) q :
  is_under p q = false -> is_Some (fs !! q) -> remove_all p fs !! q = fs !! q.
Proof.
  intros Hu [f Hf]. destruct (remove_all_spec p fs) as [->|(-> & _ & Hnone & _)].
  - by rewrite lookup_filter_remove, Hu.
  - rewrite lookup_insert_ne, lookup_filter_remove, Hu; [done|].
    intros <-. by rewrite Hnone in Hf.
Qed.

Lemma lookup_remove_all p (fs : FS) q :
  q <> directory_of p ->
  remove_all p fs !! q = if is_under p q then None else fs !! q.
Proof.
  intros Hq. destruct (remove_all_spec p fs) as [->|(-> & _)].
  - apply lookup_filter_remove.
  - rewrite lookup_insert_ne by done. apply lookup_filter_remove.
Qed.

(** The folder in which [p] lay is there after [remove_all] exactly when
    it was there before. *)
Lemma is_directory_remove_all p (fs : FS) :
  is_directory (remove_all p fs) (directory_of p) = is_directory fs (directory_of p).
Proof.
  unfold remove_all.
  set (rest := filter (fun kv => is_under p kv.1 = false) fs).
  destruct (is_directory fs (directory_of p)) eqn:Hfs.
  - destruct (is_directory rest (directory_of p)) eqn:Hrest; [exact Hrest|].
    cbn [andb negb]. unfold is_directory. apply orb_true_intro. right.
    apply bool_decide_eq_true, map_Exists_lookup. eexists _, _.
    split; [apply lookup_insert_eq|]. unfold is_under. by rewrite String.eqb_refl.
  - cbn [andb]. destruct (is_directory rest (directory_of p)) eqn:Hrest; [|reflexivity].
    exfalso. unfold is_directory in Hfs, Hrest.
    apply orb_false_elim in Hfs as [Hne Hnone]. rewrite Hne in Hrest. cbn [orb] in Hrest.
    apply bool_decide_eq_false in Hnone. apply Hnone.
    apply bool_decide_eq_true, map_Exists_lookup in Hrest as (q & f & Hq & Hunder).
    apply map_Exists_lookup. exists q, f. split; [|exact Hunder].
    subst rest. rewrite lookup_filter_remove in Hq. by destruct (is_under p q).
Qed.

(** ** Paths under one folder *)

Lemma eqb_app_head (r a b : string) : String.eqb (r +:+ a) (r +:+ b) = String.eqb a b.
Proof.
  induction r as [|c r IH]; [done|].
  change (String.eqb (String c (r +:+ a)) (String c (r +:+ b)) = String.eqb a b).
  cbn [String.eqb]. by rewrite Ascii.eqb_refl.
Qed.

Lemma prefix_app_head (r a b : string) :
  String.prefix (r +:+ a) (r +:+ b) = String.prefix a b.
Proof.
  induction r as [|c r IH]; [done|].
  change (match ascii_dec c c with
          | left _ => String.prefix (r +:+ a) (r +:+ b)
          | right _ => false
          end = String.prefix a b).
  by destruct (ascii_dec c c).
Qed.

Lemma ends_with_separator_app (p q : string) :
  q <> EmptyString -> ends_with_separator (p +:+ q) = ends_with_separator q.
Proof.
  intros Hq. induction p as [|c p IH]; [done|].
  change (ends_with_separator (String c (p +:+ q)) = ends_with_separator q).
  cbn [ends_with_separator]. destruct (p +:+ q) eqn:Hpq; [|exact IH].
  destruct p; [|discriminate Hpq]. by destruct q.
Qed.

(** [r // q] is [r] followed by [q], with or without a separator between
    the two. *)
Lemma path_append_under (r q : string) :
  r // q = r +:+ q \/ r // q = r +:+ ("/" +:+ q).
Proof.
  unfold path_append. destruct q as [|c q]; [left; by rewrite append_empty|].
  destruct (starts_with_separator _); [by left|].
  destruct r as [|d r]; [by left|].
  destruct (ends_with_separator _); [by left|by right].
Qed.

(** A name appended to a folder under [r]. *)
Lemma path_append_name (r a q : string) :
  a <> EmptyString -> ends_with_separator a = false ->
  q <> EmptyString -> starts_with_separator q = false ->
  (r +:+ a) // q = r +:+ (a +:+ "/" +:+ q).
Proof.
  intros Ha Hsep Hq Hstart. unfold path_append.
  destruct q as [|c q]; [done|]. rewrite Hstart.
  rewrite (ends_with_separator_app r a Ha), Hsep.
  destruct (r +:+ a) eqn:Hra; [|by rewrite <- Hra, append_assoc].
  destruct r; [|discriminate Hra]. by destruct a.
Qed.

(** Two paths under [r] that part right after [r]: neither is the other,
    and neither lies below the other. *)
Lemma is_under_apart (r a b : string) :
  String.eqb a b = false -> String.prefix (a +:+ "/") b = false ->
  is_under (r +:+ a) (r +:+ b) = false.
Proof.
  intros Hne Hpre. unfold is_under.
  by rewrite eqb_app_head, Hne, append_assoc, prefix_app_head, Hpre.
Qed.

Lemma app_apart (r a b : string) : String.eqb a b = false -> r +:+ a <> r +:+ b.
Proof.
  intros Hne Heq. apply String.eqb_eq in Heq. by rewrite eqb_app_head, Hne in Heq.
Qed.

(** The environment script is neither the module in [etc/profile.d] nor
    the ssh executable, nor below the latter. *)
Lemma environment_path (r : string) :
  let file := (r // "/opt/oci-hooks/dropbear") // "environment" in
  file = r +:+ "/opt/oci-hooks/dropbear/environment"
  /\ file <> r // "etc/profile.d/ssh-hook.sh"
  /\ file <> r // "usr/bin/ssh"
  /\ is_under (r // "usr/bin/ssh") file = false.
Proof.
  intros file.
  assert (Hfile : file = r +:+ "/opt/oci-hooks/dropbear/environment").
  { subst file. change (r // "/opt/oci-hooks/dropbear") with (r +:+ "/opt/oci-hooks/dropbear").
    by rewrite path_append_name. }
  rewrite Hfile. split; [done|].
  split; [|split].
  - destruct (path_append_under r "etc/profile.d/ssh-hook.sh") as [->| ->];
      intros H; symmetry in H; by apply app_apart in H.
  - destruct (path_append_under r "usr/bin/ssh") as [->| ->];
      intros H; symmetry in H; by apply app_apart in H.
  - destruct (path_append_under r "usr/bin/ssh") as [->| ->]; by apply is_under_apart.
Qed.


(** ** Traces of the member functions *)

Lemma of_kinds_weaken ks ks' evs :
  (forall k, k ∈ ks -> k ∈ ks') ->
  forallb (of_kinds ks) evs = true -> forallb (of_kinds ks') evs = true.
Proof.
  intros Hsub. rewrite !forallb_forall. intros H e He.
  specialize (H e He). unfold of_kinds in *.
  apply bool_decide_eq_true. apply bool_decide_eq_true in H. auto.
Qed.

Lemma emits_weaken {A B} ks ks' (g : SshHook -> B) (m : M A) :
  (forall k, k ∈ ks -> k ∈ ks') -> emits ks g m -> emits ks' g m.
Proof.
  intros Hsub H s. destruct (H s) as (evs & Ht & Hk & Hg).
  exists evs. eauto using of_kinds_weaken.
Qed.

Lemma emits_ret {A B} ks (g : SshHook -> B) (a : A) : emits ks g (mret a).
Proof. intros s. exists []. cbn. rewrite app_nil_r. done. Qed.

Lemma emits_throw {A B} ks (g : SshHook -> B) (e : Err) : emits ks g (@throw A e).
Proof. intros s. exists []. cbn. rewrite app_nil_r. done. Qed.

Lemma emits_exit {A B} ks (g : SshHook -> B) (status : Z) : emits ks g (@exit A status).
Proof. intros s. exists []. cbn. rewrite app_nil_r. done. Qed.

Lemma emits_bind {A A' B} ks (g : SshHook -> B) (m : M A) (f : A -> M A') :
  emits ks g m -> (forall a, emits ks g (f a)) -> emits ks g (m ≫= f).
Proof.
  intros Hm Hf s. destruct (Hm s) as (evs & Ht & Hk & Hg).
  unfold mbind, M_bind. destruct (m s) as [a s'|e s'|st s']; cbn in *.
  - destruct (Hf a s') as (evs' & Ht' & Hk' & Hg').
    exists (evs ++ evs')%list. rewrite Ht', Ht, Hg', Hg, forallb_app, Hk, Hk'.
    by rewrite app_assoc.
  - by exists evs.
  - by exists evs.
Qed.

Lemma emits_get_this {B} ks (g : SshHook -> B) : emits ks g get_this.
Proof. intros s. exists []. cbn. rewrite app_nil_r. done. Qed.

Lemma emits_get_fs {B} ks (g : SshHook -> B) : emits ks g get_fs.
Proof. intros s. exists []. cbn. rewrite app_nil_r. done. Qed.

Lemma emits_set_fs {B} ks (g : SshHook -> B) fs' : emits ks g (set_fs fs').
Proof. intros s. exists []. cbn. rewrite app_nil_r. done. Qed.

Lemma emits_set_this {B} ks (g : SshHook -> B) (f : SshHook -> SshHook) :
  (forall h, g (f h) = g h) -> emits ks g (set_this f).
Proof. intros Hf s. exists []. cbn. rewrite app_nil_r. auto. Qed.

Lemma emits_emit {B} ks (g : SshHook -> B) (e : Event) :
  of_kinds ks e = true -> emits ks g (emit e).
Proof. intros He s. exists [e]. cbn. rewrite He. done. Qed.

Lemma emits_call {B} P ks (g : SshHook -> B) (e : Event) :
  of_kinds ks e = true -> emits ks g (call P e).
Proof.
  intros He s. exists [e]. unfold call.
  destruct (perform P e (fs s)); cbn; rewrite He; done.
Qed.

Lemma emits_run {B} P ks (g : SshHook -> B) (command : string) :
  of_kinds ks (executeCommand command) = true -> emits ks g (run P command).
Proof.
  intros He s. exists [executeCommand command]. unfold run.
  destruct (commandResult P command (fs s)) as [[output fs']|]; cbn; rewrite He; done.
Qed.

Lemma emits_do_forkExecWait {B} P ks (g : SshHook -> B) argv pre :
  of_kinds ks (forkExecWait argv [] None) = true ->
  emits ks g (do_forkExecWait P argv pre).
Proof.
  intros He s. unfold do_forkExecWait.
  assert (Hk : forall c st, of_kinds ks (forkExecWait argv c st) = true)
    by (intros; exact He).
  destruct (pre _) as [r child].
  destruct r; [destruct (statusOfExec _ _ _)|]; cbn;
    eexists [_]; cbn; rewrite Hk; done.
Qed.

Lemma emits_with_Lockfile {A B} P ks (g : SshHook -> B) dir (scope : M A) :
  of_kinds ks (Lockfile_acquire dir) = true ->
  of_kinds ks (Lockfile_release dir) = true ->
  emits ks g scope -> emits ks g (with_Lockfile P dir scope).
Proof.
  intros Ha Hr Hscope. unfold with_Lockfile.
  apply emits_bind; [by apply emits_call|]. intros _ s.
  destruct (Hscope s) as (evs & Ht & Hk & Hg).
  destruct (scope s) as [a s'|e s'|st s']; cbn in *.
  - exists (evs ++ [Lockfile_release dir])%list.
    rewrite Ht, forallb_app, Hk. cbn. rewrite Hr. by rewrite app_assoc.
  - exists (evs ++ [Lockfile_release dir])%list.
    rewrite Ht, forallb_app, Hk. cbn. rewrite Hr. by rewrite app_assoc.
  - by exists evs.
Qed.

(** One step of a proof that a member function emits only some kinds of
    calls: the rule for the construct at the head of the function. *)
Ltac emits_step :=
  first
    [ apply emits_ret | apply emits_throw | apply emits_exit
    | apply emits_get_this | apply emits_get_fs | apply emits_set_fs
    | apply emits_set_this; intros []; reflexivity
    | apply emits_emit; reflexivity
    | apply emits_call; reflexivity
    | apply emits_run; reflexivity
    | apply emits_do_forkExecWait; reflexivity
    | apply emits_with_Lockfile; [reflexivity | reflexivity | ]
    | apply emits_bind; [ | intros ? ]
    | match goal with
      | |- emits _ _ (match ?x with _ => _ end) => destruct x
      end ].

Ltac emits_auto := repeat emits_step.

Section Emits.

Context (P : Platform) {B : Type} (g : SshHook -> B).

Lemma emits_or_throw {A} ks e (answer : option A) : emits ks g (or_throw e answer).
Proof. unfold or_throw. emits_auto. Qed.

Lemma emits_member {A} ks name (value : option A) : emits ks g (member name value).
Proof. unfold member. emits_auto. Qed.

Lemma emits_getenv name : emits [K_getEnvironmentVariable] g (getenv P name).
Proof. unfold getenv, or_throw. emits_auto. Qed.

Lemma emits_exists_file p : emits [K_filesystem_exists] g (exists_file p).
Proof. unfold exists_file. emits_auto. Qed.

Lemma emits_write_file p text : emits [K_ofstream] g (write_file P p text).
Proof. unfold write_file. emits_auto. Qed.

Lemma emits_permissions p perms : emits [K_filesystem_permissions] g (permissions p perms).
Proof. unfold permissions, or_throw. emits_auto. Qed.

Lemma emits_do_remove_all p : emits [K_filesystem_remove_all] g (do_remove_all p).
Proof. unfold do_remove_all. emits_auto. Qed.

Lemma emits_open_PasswdDB file : emits [K_PasswdDB_read] g (open_PasswdDB P file).
Proof. unfold open_PasswdDB, or_throw. emits_auto. Qed.

Lemma emits_write_PasswdDB db file : emits [K_PasswdDB_write] g (write_PasswdDB P db file).
Proof. unfold write_PasswdDB. emits_auto. Qed.

Lemma emits_getUsername uid :
  emits [K_getEnvironmentVariable; K_PasswdDB_read; K_PasswdDB_getUsername] g
    (getUsername P uid).
Proof. unfold getUsername, getenv, open_PasswdDB, or_throw. emits_auto. Qed.

Lemma emits_getSshKeysDirInHost name :
  emits [K_getEnvironmentVariable] g (getSshKeysDirInHost P name).
Proof. unfold getSshKeysDirInHost, getenv, or_throw. emits_auto. Qed.

Lemma emits_copyDropbearIntoContainer :
  emits [K_copyFile] g (copyDropbearIntoContainer P).
Proof. unfold copyDropbearIntoContainer. emits_auto. Qed.

Lemma emits_setupSshKeysDirInContainer :
  emits [K_switchIdentity; K_createFoldersIfNecessary; K_mountOverlayfs] g
    (setupSshKeysDirInContainer P).
Proof. unfold setupSshKeysDirInContainer. emits_auto. Qed.

Lemma emits_copySshKeysIntoContainer :
  emits [K_copyFile] g (copySshKeysIntoContainer P).
Proof. unfold copySshKeysIntoContainer. emits_auto. Qed.

Lemma emits_patchEntries rootfs entries :
  emits [K_filesystem_exists] g (patchEntries rootfs entries).
Proof.
  induction entries as [|entry rest IH]; cbn [patchEntries]; [emits_auto|].
  apply emits_bind; [destruct (userCommandInterpreter entry); [apply emits_exists_file|emits_auto]|].
  intros found. apply emits_bind; [apply IH|]. intros. emits_auto.
Qed.

Lemma emits_patchPasswdIfNecessary :
  emits [K_PasswdDB_read; K_filesystem_exists; K_PasswdDB_write] g
    (patchPasswdIfNecessary P).
Proof.
  unfold patchPasswdIfNecessary, open_PasswdDB, write_PasswdDB, or_throw.
  emits_step. { emits_auto. } emits_step.
  { emits_auto. } emits_step.
  { eapply emits_weaken; [|apply emits_patchEntries].
    intros k Hk. apply list_elem_of_In in Hk. apply list_elem_of_In. cbn in *. tauto. }
  emits_auto.
Qed.

Lemma emits_createEnvironmentFile :
  emits [K_parseEnvironmentVariablesFromOCIBundle; K_ofstream; K_filesystem_permissions] g
    (createEnvironmentFile P).
Proof. unfold createEnvironmentFile, write_file, permissions, or_throw. emits_auto. Qed.

Lemma emits_createEtcProfileModule :
  emits [K_ofstream; K_filesystem_permissions] g (createEtcProfileModule P).
Proof. unfold createEtcProfileModule, write_file, permissions, or_throw. emits_auto. Qed.

Lemma emits_startSshDaemonInContainer :
  emits [K_filesystem_relative; K_forkExecWait] g (startSshDaemonInContainer P).
Proof. unfold startSshDaemonInContainer. emits_auto. Qed.

Lemma emits_createSshExecutableInContainer :
  emits [K_filesystem_remove_all; K_ofstream; K_filesystem_permissions] g
    (createSshExecutableInContainer P).
Proof.
  unfold createSshExecutableInContainer, do_remove_all, write_file, permissions, or_throw.
  emits_auto.
Qed.

End Emits.

Lemma emits_parseConfigJSONOfBundle P :
  emits [K_readJSON; K_applyLoggingConfigIfAvailable] settings
    (parseConfigJSONOfBundle P).
Proof. unfold parseConfigJSONOfBundle, or_throw, member. emits_auto. Qed.

(** ** Runs of [startSshDaemon], path by path *)

Lemma of_kinds_subset ks ks' evs :
  forallb (fun k => bool_decide (k ∈ ks')) ks = true ->
  forallb (of_kinds ks) evs = true -> forallb (of_kinds ks') evs = true.
Proof.
  intros Hsub. apply of_kinds_weaken. intros k Hk.
  rewrite forallb_forall in Hsub.
  apply list_elem_of_In, Hsub, bool_decide_eq_true in Hk. exact Hk.
Qed.

Lemma not_until_here q p e rest : p e = true -> not_until q p (e :: rest) = true.
Proof. intros H. cbn. by rewrite H. Qed.

Lemma not_until_later q p e rest :
  p e = false -> q e = false -> not_until q p (e :: rest) = not_until q p rest.
Proof. intros Hp Hq. cbn. by rewrite Hp, Hq. Qed.

Lemma not_until_skip ks q p evs rest :
  forallb (of_kinds ks) evs = true ->
  (forall e, of_kinds ks e = true -> p e = false /\ q e = false) ->
  not_until q p (evs ++ rest) = not_until q p rest.
Proof.
  intros Hk Hno. induction evs as [|e evs IH]; [done|].
  cbn in Hk. apply andb_prop in Hk as [He Hk].
  destruct (Hno e He) as [Hp Hq].
  cbn [app]. rewrite not_until_later by done. auto.
Qed.

Lemma existsb_skip ks q evs :
  forallb (of_kinds ks) evs = true ->
  (forall e, of_kinds ks e = true -> q e = false) ->
  existsb q evs = false.
Proof.
  intros Hk Hno. induction evs as [|e evs IH]; [done|].
  cbn in Hk. apply andb_prop in Hk as [He Hk].
  cbn. rewrite (Hno e He). auto.
Qed.

Lemma app_four {A} (l : list A) a b c d :
  ((((l ++ [a]) ++ [b]) ++ [c]) ++ [d] = l ++ [a; b; c; d])%list.
Proof. by rewrite <- !app_assoc. Qed.

(** The trace of a path, with the segments of the member functions in a
    row. *)
Ltac flatten_trace := rewrite <- ?app_assoc; cbn [app].

(** A property of all calls of some kinds, by cases on the call. *)
Ltac by_kind :=
  let e := fresh "e" in let H := fresh "H" in
  intros e H; destruct e; vm_compute in H; try discriminate H;
  repeat split; reflexivity.

Ltac kinds_auto :=
  rewrite ?forallb_app;
  repeat match goal with
    | Hk : forallb (of_kinds ?ks) ?evs = true
      |- context [forallb (of_kinds ?ks') ?evs] =>
        rewrite (of_kinds_subset ks ks' evs eq_refl Hk)
    end;
  reflexivity.

Lemma existsb_later {A} (q : A -> bool) e rest :
  q e = false -> existsb q (e :: rest) = existsb q rest.
Proof. intros H. cbn. by rewrite H. Qed.

Lemma existsb_app_skip ks q evs rest :
  forallb (of_kinds ks) evs = true ->
  (forall e, of_kinds ks e = true -> q e = false) ->
  existsb q (evs ++ rest) = existsb q rest.
Proof. intros Hk Hno. by rewrite existsb_app, (existsb_skip ks q evs Hk Hno). Qed.

Lemma valid_home_not_invalid uid home :
  String.eqb home EmptyString || path_eqb home "/nonexistent" = false ->
  invalid_home_answer (PasswdDB_getHomeDirectory uid (Some home)) = false.
Proof.
  intros H. apply orb_false_elim in H as [H1 H2]. cbn. rewrite H1. cbn.
  destruct (String.eqb_spec home "/nonexistent") as [->|]; [|done].
  vm_compute in H2. discriminate H2.
Qed.

(** No call of a path satisfies [q]. *)
Ltac existsb_auto :=
  flatten_trace;
  repeat first
    [ reflexivity
    | rewrite existsb_later
        by first [reflexivity | apply valid_home_not_invalid; assumption]
    | match goal with
      | Hk : forallb (of_kinds ?ks) ?evs = true |- context [existsb ?q (?evs ++ ?rest)] =>
          rewrite (existsb_app_skip ks q evs rest Hk) by by_kind
      | Hk : forallb (of_kinds ?ks) ?evs = true |- existsb ?q ?evs = false =>
          apply (existsb_skip ks q evs Hk); by_kind
      end ].

Ltac not_until_auto :=
  flatten_trace;
  repeat first
    [ reflexivity
    | apply not_until_here; reflexivity
    | rewrite not_until_later by (cbn; first [reflexivity | assumption])
    | match goal with
      | Hk : forallb (of_kinds ?ks) ?evs = true |- context [not_until _ _ (?evs ++ _)] =>
          rewrite (not_until_skip ks _ _ evs _ Hk) by by_kind
      | Hk : forallb (of_kinds ?ks) ?evs = true |- not_until ?q ?p ?evs = true =>
          rewrite <- (app_nil_r evs), (not_until_skip ks q p evs [] Hk) by by_kind
      end ].

Ltac spec_of m :=
  lazymatch m with
  | parseConfigJSONOfBundle ?P => constr:(emits_parseConfigJSONOfBundle P)
  | getUsername ?P ?u => constr:(emits_getUsername P (@id SshHook) u)
  | getSshKeysDirInHost ?P ?n => constr:(emits_getSshKeysDirInHost P (@id SshHook) n)
  | copyDropbearIntoContainer ?P => constr:(emits_copyDropbearIntoContainer P (@id SshHook))
  | setupSshKeysDirInContainer ?P => constr:(emits_setupSshKeysDirInContainer P (@id SshHook))
  | copySshKeysIntoContainer ?P => constr:(emits_copySshKeysIntoContainer P (@id SshHook))
  | patchPasswdIfNecessary ?P => constr:(emits_patchPasswdIfNecessary P (@id SshHook))
  | createEnvironmentFile ?P => constr:(emits_createEnvironmentFile P (@id SshHook))
  | createEtcProfileModule ?P => constr:(emits_createEtcProfileModule P (@id SshHook))
  end.

Ltac red_run :=
  cbv beta iota zeta delta
    [startSshDaemon getSshKeysDirInContainer startSshDaemonInContainer
     do_forkExecWait createSshExecutableInContainer open_PasswdDB getenv call or_throw write_file permissions do_remove_all
     emit get_this get_fs set_this set_fs throw exit mbind M_bind mret M_ret
     option_bind this fs trace final_state initially returns exit_status].

(** The next call of the run: a member function is replaced by its
    outcome, of which the trace lemma tells what it appended; any other
    answer is split into its cases. *)
Ltac run_step :=
  match goal with
  | |- context [match ?m ?s with Return _ _ => _ | Throw _ _ => _ | Exit _ _ => _ end] =>
      let lem := spec_of m in
      let evs := fresh "evs" in
      let Ht := fresh "Ht" in let Hk := fresh "Hk" in let Hg := fresh "Hg" in
      let h := fresh "h" in let fs' := fresh "fs" in let tr := fresh "tr" in
      destruct (lem s) as (evs & Ht & Hk & Hg);
      destruct (m s) as [? [h fs' tr]|? [h fs' tr]|? [h fs' tr]];
      cbn [final_state trace this id] in Ht, Hg; subst tr;
      try (subst h)
  | |- context [match ?x with _ => _ end] =>
      lazymatch x with
      | context [match _ with _ => _ end] => fail
      | _ =>
          let H := fresh "Heq" in
          destruct x eqn:H;
          try (lazymatch type of H with
               | Z.eqb EXIT_FAILURE 0 = _ => vm_compute in H; discriminate H
               end)
      end
  end; red_run.


Ltac spec_of_steps m :=
  lazymatch m with
  | getUsername ?P ?u => constr:(emits_getUsername P (@id SshHook) u)
  | getSshKeysDirInHost ?P ?n => constr:(emits_getSshKeysDirInHost P (@id SshHook) n)
  | patchPasswdIfNecessary ?P => constr:(emits_patchPasswdIfNecessary P (@id SshHook))
  end.

Ltac red_run_steps :=
  cbv beta iota zeta delta
    [startSshDaemon parseConfigJSONOfBundle member getSshKeysDirInContainer
     copyDropbearIntoContainer setupSshKeysDirInContainer copySshKeysIntoContainer
     createEnvironmentFile createEtcProfileModule startSshDaemonInContainer
     do_forkExecWait createSshExecutableInContainer open_PasswdDB getenv call or_throw
     write_file permissions do_remove_all
     emit get_this get_fs set_this set_fs throw exit mbind M_bind mret M_ret
     option_bind this fs trace final_state initially returns exit_status
     newSshHook set_uidOfUser set_gidOfUser set_username set_sshKeysDirInHost
     set_sshKeysDirInContainer set_dropbearDirInHost set_dropbearRelativeDirInContainer
     set_dropbearDirInContainer set_bundleDir set_rootfsDir set_pidOfContainer
     set_serverPort uidOfUser gidOfUser username sshKeysDirInHost sshKeysDirInContainer
     dropbearDirInHost dropbearRelativeDirInContainer dropbearDirInContainer bundleDir
     rootfsDir pidOfContainer serverPort].

Ltac run_step_steps :=
  match goal with
  | |- context [match ?m ?s with Return _ _ => _ | Throw _ _ => _ | Exit _ _ => _ end] =>
      let lem := spec_of_steps m in
      let evs := fresh "evs" in
      let Ht := fresh "Ht" in let Hk := fresh "Hk" in let Hg := fresh "Hg" in
      let h := fresh "h" in let fs' := fresh "fs" in let tr := fresh "tr" in
      destruct (lem s) as (evs & Ht & Hk & Hg);
      destruct (m s) as [? [h fs' tr]|? [h fs' tr]|? [h fs' tr]];
      cbn [final_state trace this id] in Ht, Hg; subst tr;
      try (subst h)
  | |- context [match ?x with _ => _ end] =>
      lazymatch x with
      | context [match _ with _ => _ end] => fail
      | _ =>
          let H := fresh "Heq" in
          destruct x eqn:H;
          try (lazymatch type of H with
               | Z.eqb EXIT_FAILURE 0 = _ => vm_compute in H; discriminate H
               end)
      end
  end; red_run_steps.

(** The paths of a run of [startSshDaemon], for a property of its outcome
    that is stated once: the outcome is abstracted from the goal, the run is
    split into its paths, and the property is put back on each. *)
Ltac run_paths P fs0 :=
  pattern (startSshDaemon P (initially fs0));
  match goal with |- ?f _ => let post := fresh "post" in
    set (post := f); red_run_steps; repeat run_step_steps; subst post; cbv beta end;
  red_run_steps.

Lemma launches_app tr tr' : launches (tr ++ tr') = (launches tr ++ launches tr')%list.
Proof. apply omap_app. Qed.

Lemma launches_none ks evs :
  forallb (of_kinds ks) evs = true ->
  bool_decide (K_forkExecWait ∈ ks) = false ->
  launches evs = [].
Proof.
  intros Hk Hno. apply bool_decide_eq_false in Hno.
  induction evs as [|e evs IH]; [done|].
  cbn in Hk. apply andb_prop in Hk as [He Hk].
  unfold launches in *. cbn. rewrite (IH Hk).
  unfold of_kinds in He. apply bool_decide_eq_true in He.
  destruct e; try reflexivity. cbn in He. contradiction.
Qed.

Ltac launches_auto :=
  rewrite ?launches_app;
  repeat match goal with
    | Hk : forallb (of_kinds ?ks) ?evs = true |- context [launches ?evs] =>
        rewrite (launches_none ks evs Hk eq_refl)
    end;
  cbn [launches omap list_omap app].


(** ** The shared-library picker *)
(** C10: with exactly one candidate, [pickNewestAbiCompatibleLibrary]
    returns that candidate whatever it is and whatever the target is: no
    linker name, major, minor or patch number is compared. *)
Theorem pick_single_candidate_unconditionally :
  forall self c : SharedLibrary.SharedLibrary,
    SharedLibrary.pickNewestAbiCompatibleLibrary self [c] = Ok c.
Proof. intros self c. reflexivity. Qed.

(** C9 (the code departs from the policy): for the target [libfoo.so.2.1.0]
    and the candidates [libfoo.so.1.0.0; libfoo.so.2.5.0] the picker returns
    [libfoo.so.1.0.0], a library of an older major, although a candidate of
    the target's major is in the list; for the same candidates in the
    other order it returns [libfoo.so.2.5.0]. And for the target
    [libfoo.so.2.1.1] and the candidates [libfoo.so.2.0.1; libfoo.so.2.1.0]
    it returns [libfoo.so.2.0.1], which is not the newest candidate of the
    target's major with a minor up to the target's: the patch numbers of
    two libraries of different minors were compared. *)
Theorem pick_goes_to_older_major_when_it_comes_first :
  let lib := SharedLibrary.lib "libfoo.so" in
  let target := lib 2 1 0 "2.1.0" in
  let older := lib 1 0 0 "1.0.0" in
  let newer := lib 2 5 0 "2.5.0" in
  (SharedLibrary.pickNewestAbiCompatibleLibrary target [older; newer] = Ok older
   /\ SharedLibrary.major older < SharedLibrary.major target
   /\ SharedLibrary.major newer = SharedLibrary.major target
   /\ SharedLibrary.pickNewestAbiCompatibleLibrary target [newer; older] = Ok newer)
  /\ (let target := lib 2 1 1 "2.1.1" in
      let previous := lib 2 0 1 "2.0.1" in
      let same := lib 2 1 0 "2.1.0" in
      SharedLibrary.pickNewestAbiCompatibleLibrary target [previous; same] = Ok previous
      /\ SharedLibrary.major same = SharedLibrary.major target
      /\ SharedLibrary.minor previous < SharedLibrary.minor same
      /\ SharedLibrary.minor same <= SharedLibrary.minor target).
Proof. repeat split; first [reflexivity | discriminate]. Qed.

(** ** The order of the steps of start-ssh-daemon *)

(** C4 (as stated, refuted on the sample): the run joins the namespaces
    of the container before it reads config.json for the first time. *)
Lemma config_is_read_after_namespace_entry_on_sample :
  returns sampleRun = true
  /\ not_until is_enterNamespaces is_readConfig (trace (final_state sampleRun)) = false.
Proof. split; vm_compute; reflexivity. Qed.

(** C4 (amended): in every run of start-ssh-daemon, the state on stdin,
    which gives the bundle directory and the PID, is parsed before the
    process joins the namespaces of the container, and config.json is read
    only after the namespaces have been joined. *)
Theorem stdin_state_then_namespaces_then_config :
  forall (P : Platform) (fs0 : FS),
    let tr := trace (final_state (startSshDaemon P (initially fs0))) in
    not_until is_enterNamespaces is_parseState tr = true
    /\ not_until is_readConfig is_enterNamespaces tr = true.
Proof.
  intros P fs0. red_run. repeat run_step.
  all: split; reflexivity.
Qed.

(** C3 (as stated, refuted on the sample): the daemon is launched before
    the file stream on [/usr/bin/ssh] of the container is opened. *)
Lemma daemon_is_launched_before_the_ssh_shim_on_sample :
  returns sampleRun = true
  /\ not_until is_launch (writes_file "/bundle/rootfs/usr/bin/ssh")
       (trace (final_state sampleRun)) = false.
Proof. split; vm_compute; reflexivity. Qed.

(** The ssh executable comes after a launch that reported status zero, on
    every path of a run. *)
Lemma shim_after_launch (P : Platform) (fs0 : FS) :
  let o := startSshDaemon P (initially fs0) in
  let shim := rootfsDir (this (final_state o)) // "usr/bin/ssh" in
  not_until (of_kinds [K_filesystem_remove_all]) is_launch_ok (trace (final_state o)) = true
  /\ (returns o = true ->
      exists pre argv childCalls text,
        trace (final_state o) =
          (pre ++ [ forkExecWait argv childCalls (Some 0);
                    filesystem_remove_all shim;
                    ofstream shim text;
                    filesystem_permissions shim 493 ])%list
        /\ forallb (of_kinds kinds_before_launch) pre = true).
Proof.
  red_run. repeat run_step.
  all: repeat match goal with H : (_ =? 0) = true |- _ => apply Z.eqb_eq in H; subst end.
  all: split; [not_until_auto | try discriminate].
  intros _. change sshExecutablePerms with 493.
  do 4 eexists. split; [apply app_four | kinds_auto].
Qed.


(** *** The calls of a run that returns, in their order *)

Lemma yields_weaken {A} (L L' : list Kind -> Prop) (m : M A) :
  yields L m -> (forall ks, L ks -> L' ks) -> yields L' m.
Proof.
  intros H HL s a s' Hrun. destruct (H s a s' Hrun) as (evs & Ht & Hk). eauto.
Qed.

Lemma yields_ret {A} (a : A) : yields (exactly []) (mret a).
Proof. intros s a' s' [= _ <-]. exists []. by rewrite app_nil_r. Qed.

Lemma yields_throw {A} L e : yields L (@throw A e).
Proof. intros s a s' H. discriminate H. Qed.

Lemma yields_exit {A} L status : yields L (@exit A status).
Proof. intros s a s' H. discriminate H. Qed.

Lemma yields_bind {A B} L1 L2 (m : M A) (f : A -> M B) :
  yields L1 m -> (forall a, yields L2 (f a)) -> yields (followed_by L1 L2) (m ≫= f).
Proof.
  intros Hm Hf s b s' Hrun. unfold mbind, M_bind in Hrun.
  destruct (m s) as [a s1| |] eqn:H1; [|discriminate..].
  destruct (Hm s a s1 H1) as (evs1 & Ht1 & Hk1).
  destruct (Hf a s1 b s' Hrun) as (evs2 & Ht2 & Hk2).
  exists (evs1 ++ evs2)%list. rewrite Ht2, Ht1, app_assoc, map_app.
  split; [done|]. by exists (map kind evs1), (map kind evs2).
Qed.

Lemma yields_get_this : yields (exactly []) get_this.
Proof. intros s a s' [= _ <-]. exists []. by rewrite app_nil_r. Qed.

Lemma yields_get_fs : yields (exactly []) get_fs.
Proof. intros s a s' [= _ <-]. exists []. by rewrite app_nil_r. Qed.

Lemma yields_set_fs fs' : yields (exactly []) (set_fs fs').
Proof. intros s a s' [= _ <-]. exists []. cbn. by rewrite app_nil_r. Qed.

Lemma yields_set_this f : yields (exactly []) (set_this f).
Proof. intros s a s' [= _ <-]. exists []. cbn. by rewrite app_nil_r. Qed.

Lemma yields_emit e k : kind e = k -> yields (exactly [k]) (emit e).
Proof. intros <- s a s' [= _ <-]. by exists [e]. Qed.

Lemma yields_call P e k : kind e = k -> yields (exactly [k]) (call P e).
Proof.
  intros <- s a s'. unfold call. destruct (perform P e (fs s)); [|discriminate].
  intros [= _ <-]. by exists [e].
Qed.

Lemma yields_do_forkExecWait P argv pre :
  yields (exactly [K_forkExecWait]) (do_forkExecWait P argv pre).
Proof.
  intros s a s'. unfold do_forkExecWait. destruct (pre _) as [r child].
  destruct r; [destruct (statusOfExec _ _ _)|]; try discriminate.
  all: intros [= _ <-]; by eexists [_].
Qed.

Lemma yields_patchEntries rootfs entries :
  yields (repeated K_filesystem_exists) (patchEntries rootfs entries).
Proof.
  intros s a s' Hrun.
  destruct (emits_patchEntries (@id SshHook) rootfs entries s) as (evs & Ht & Hk & _).
  rewrite Hrun in Ht. cbn in Ht. exists evs. split; [done|].
  exists (length evs). clear Ht. induction evs as [|e evs IH]; [done|].
  cbn in Hk. apply andb_prop in Hk as [He Hk]. cbn. rewrite <- IH by done.
  f_equal. unfold of_kinds in He. apply bool_decide_eq_true in He.
  by apply list_elem_of_singleton in He.
Qed.

Ltac yields_step :=
  first
    [ apply yields_ret | apply yields_throw | apply yields_exit
    | apply yields_get_this | apply yields_get_fs | apply yields_set_fs
    | apply yields_set_this
    | eapply yields_emit; cbn; reflexivity
    | eapply yields_call; cbn; reflexivity
    | apply yields_do_forkExecWait | apply yields_patchEntries
    | eapply yields_bind; [ | intros ? ]
    | match goal with
      | |- yields _ (match ?x with _ => _ end) => destruct x
      end ].

Ltac open_steps :=
  repeat match goal with
    | H : followed_by _ _ _ |- _ => destruct H as (? & ? & -> & ? & ?)
    | H : exactly _ _ |- _ => unfold exactly in H; subst
    | H : repeated _ _ |- _ => destruct H as [? ->]
    end.

Lemma yields_startSshDaemon P :
  yields (fun ks => exists n, ks = steps_in_order n) (startSshDaemon P).
Proof.
  eapply yields_weaken.
  - unfold startSshDaemon, parseConfigJSONOfBundle, getUsername, getSshKeysDirInHost,
      getSshKeysDirInContainer, copyDropbearIntoContainer, setupSshKeysDirInContainer,
      copySshKeysIntoContainer, patchPasswdIfNecessary, createEnvironmentFile,
      createEtcProfileModule, startSshDaemonInContainer, createSshExecutableInContainer,
      open_PasswdDB, write_PasswdDB, getenv, write_file, permissions, do_remove_all,
      or_throw, member.
    repeat yields_step.
  - cbv beta. intros ks H. open_steps. cbn. eexists. unfold steps_in_order.
    rewrite <- ?app_assoc. reflexivity.
Qed.

(** C3 (amended): the steps of start-ssh-daemon run in the order of the
    code, in which the ssh shim is the last step and comes after the launch
    of the daemon. In every run, nothing is removed at the place of the
    shim before a launch has reported status zero. A run that returns has
    made the calls of [steps_in_order], in that order; its trace ends with
    the launch, with status zero, followed by the removal, the writing and
    the permissions (0755) of [rootfs/usr/bin/ssh], with no launch and no
    removal before. *)
Theorem ssh_shim_is_written_after_the_daemon_launch :
  forall (P : Platform) (fs0 : FS),
    let o := startSshDaemon P (initially fs0) in
    let shim := rootfsDir (this (final_state o)) // "usr/bin/ssh" in
    not_until (of_kinds [K_filesystem_remove_all]) is_launch_ok (trace (final_state o)) = true
    /\ (returns o = true ->
        (exists n, map kind (trace (final_state o)) = steps_in_order n)
        /\ exists pre argv childCalls text,
             trace (final_state o) =
               (pre ++ [ forkExecWait argv childCalls (Some 0);
                         filesystem_remove_all shim;
                         ofstream shim text;
                         filesystem_permissions shim 493 ])%list
             /\ forallb (of_kinds kinds_before_launch) pre = true).
Proof.
  intros P fs0 o shim. destruct (shim_after_launch P fs0) as [Hnot Hend].
  split; [exact Hnot|]. intros Hret. split; [|exact (Hend Hret)].
  subst o. destruct (startSshDaemon P (initially fs0)) as [a s'| |] eqn:Hrun;
    [|discriminate..].
  destruct (yields_startSshDaemon P _ _ _ Hrun) as (evs & Ht & n & Hn).
  exists n. cbn in *. by rewrite Ht.
Qed.

Lemma ssh_shim_is_written_after_the_daemon_launch_witness :
  let o := sampleRun in
  let shim := "/bundle/rootfs/usr/bin/ssh" in
  (exists n, map kind (trace (final_state o)) = steps_in_order n)
  /\ exists pre argv childCalls text,
       trace (final_state o) =
         (pre ++ [ forkExecWait argv childCalls (Some 0);
                   filesystem_remove_all shim;
                   ofstream shim text;
                   filesystem_permissions shim 493 ])%list
       /\ forallb (of_kinds kinds_before_launch) pre = true.
Proof.
  apply (ssh_shim_is_written_after_the_daemon_launch
           (Sample.platform 0 0 Sample.publicKeyText) Sample.files).
  vm_compute. reflexivity.
Defined.




(** ** The pre-exec actions of the daemon launcher *)

Lemma capDropLoop_step P capIdx st :
  capDropLoop P capIdx st =
  match syscall P (prctl_PR_CAPBSET_DROP capIdx) st with
  | (None, st') => capDropLoop P (wrap_int (capIdx + 1)) st'
  | (Some errno, st') =>
      if Errno_eqb errno EINVAL then (Ok tt, st')
      else (Error (FailedToPrctlCapbsetDrop capIdx errno), st')
  end.
Proof.
  simp capDropLoop.
  destruct (inspect (syscall P (prctl_PR_CAPBSET_DROP capIdx) st)) as [[[e|] st'] H].
  all: simp capDropLoop; rewrite H; simp capDropLoop; reflexivity.
Qed.

(** The capability loop from [capIdx] on, when it ends well. *)
Lemma capDropLoop_ok P (Hlast : 0 <= cap_last_cap P < INT_MAX) :
  forall (n : nat) capIdx st st',
    Z.of_nat n = cap_last_cap P + 1 - capIdx -> 0 <= capIdx ->
    capDropLoop P capIdx st = (Ok tt, st') ->
    calls st' = (calls st ++ map prctl_PR_CAPBSET_DROP (seqZ capIdx (cap_last_cap P + 2 - capIdx)))%list
    /\ proc st' =
       mkProc (root (proc st))
         (filter (fun c => ~ (capIdx <= c <= cap_last_cap P)) (capBoundingSet (proc st)))
         (supplementaryGroups (proc st))
         (rgid (proc st)) (egid (proc st)) (sgid (proc st))
         (ruid (proc st)) (euid (proc st)) (suid (proc st)) (noNewPrivs (proc st)).
Proof.
  induction n as [|n IH]; intros capIdx st st' Hn H0 Hrun;
    rewrite capDropLoop_step in Hrun; unfold syscall, kernel, cap_valid in Hrun.
  - assert (capIdx = cap_last_cap P + 1) as -> by lia.
    replace (0 <=? cap_last_cap P + 1) with true in Hrun by (symmetry; apply Z.leb_le; lia).
    replace (cap_last_cap P + 1 <=? cap_last_cap P) with false in Hrun
      by (symmetry; apply Z.leb_gt; lia).
    cbn in Hrun. injection Hrun as <-. cbn. split.
    + replace (cap_last_cap P + 2 - (cap_last_cap P + 1)) with 1 by lia. reflexivity.
    + destruct (proc st); cbn. f_equal.
      apply set_eq. intros c. rewrite elem_of_filter. intuition lia.
  - replace (0 <=? capIdx) with true in Hrun by (symmetry; apply Z.leb_le; lia).
    replace (capIdx <=? cap_last_cap P) with true in Hrun by (symmetry; apply Z.leb_le; lia).
    cbn [andb] in Hrun.
    destruct (kernelRefuses P (proc st) (prctl_PR_CAPBSET_DROP capIdx)); [discriminate Hrun|].
    cbn [accepted] in Hrun.
    assert (Hw : wrap_int (capIdx + 1) = capIdx + 1).
    { unfold wrap_int, INT_MAX in *. rewrite Z.mod_small; lia. }
    rewrite Hw in Hrun.
    apply IH in Hrun as [Hc Hp]; [|lia|lia]. cbn in Hc, Hp. split.
    + rewrite Hc, <- app_assoc. f_equal.
      rewrite (seqZ_cons capIdx) by lia. cbn. do 2 f_equal. f_equal; lia.
    + rewrite Hp. f_equal. apply set_eq. intros c.
      rewrite !elem_of_filter, elem_of_difference, elem_of_singleton. intuition lia.
Qed.

Lemma syscall_inv P c st e st' :
  syscall P c st = (e, st') ->
  calls st' = (calls st ++ [c])%list
  /\ match e with
     | None => kernel P (proc st) c = inr (proc st')
     | Some errno => kernel P (proc st) c = inl errno /\ proc st' = proc st
     end.
Proof.
  unfold syscall. destruct (kernel P (proc st) c); intros [= <- <-]; cbn; auto.
Qed.

(** The capability loop from [capIdx] on, when it fails: it has made the
    calls for [capIdx] and the indices that follow up to the one that the
    kernel refused, which is a capability that the kernel knows. *)
Lemma capDropLoop_failed P (Hlast : 0 <= cap_last_cap P < INT_MAX) :
  forall (n : nat) capIdx st e st',
    Z.of_nat n = cap_last_cap P + 1 - capIdx -> 0 <= capIdx ->
    capDropLoop P capIdx st = (Error e, st') ->
    exists m, 1 <= m < cap_last_cap P + 2 - capIdx
      /\ calls st' = (calls st ++ map prctl_PR_CAPBSET_DROP (seqZ capIdx m))%list.
Proof.
  induction n as [|n IH]; intros capIdx st e st' Hn H0 Hrun;
    rewrite capDropLoop_step in Hrun; unfold syscall, kernel, cap_valid in Hrun.
  - assert (capIdx = cap_last_cap P + 1) as -> by lia.
    replace (0 <=? cap_last_cap P + 1) with true in Hrun by (symmetry; apply Z.leb_le; lia).
    replace (cap_last_cap P + 1 <=? cap_last_cap P) with false in Hrun
      by (symmetry; apply Z.leb_gt; lia).
    cbn in Hrun. discriminate Hrun.
  - replace (0 <=? capIdx) with true in Hrun by (symmetry; apply Z.leb_le; lia).
    replace (capIdx <=? cap_last_cap P) with true in Hrun by (symmetry; apply Z.leb_le; lia).
    cbn [andb] in Hrun.
    destruct (kernelRefuses P (proc st) (prctl_PR_CAPBSET_DROP capIdx)).
    + cbn in Hrun. injection Hrun as _ <-. exists 1. split; [lia|]. reflexivity.
    + cbn [accepted] in Hrun.
      assert (Hw : wrap_int (capIdx + 1) = capIdx + 1).
      { unfold wrap_int, INT_MAX in *. rewrite Z.mod_small; lia. }
      rewrite Hw in Hrun.
      apply IH in Hrun as (m & Hm & Hc); [|lia|lia]. cbn in Hc.
      exists (m + 1). split; [lia|].
      rewrite Hc, <- app_assoc. f_equal.
      rewrite (seqZ_cons capIdx) by lia. cbn. do 2 f_equal. f_equal; lia.
Qed.

Lemma seqZ_split (m n : Z) :
  0 <= m <= n -> seqZ 0 n = (seqZ 0 m ++ seqZ m (n - m))%list.
Proof.
  intros H. replace n with (m + (n - m)) at 1 by lia.
  rewrite seqZ_app by lia. reflexivity.
Qed.

(** The pre-exec actions that end well: the calls they have made, and the
    credentials they leave. An identifier of [-1] keeps the value that the
    child had when it was forked. *)
Lemma preExecActions_ok P (h : SshHook) (p0 : Proc) (child : Child) :
  0 <= cap_last_cap P < INT_MAX ->
  (forall c, c ∈ capBoundingSet p0 -> cap_valid P c = true) ->
  preExecActions P h (mkChild p0 []) = (Ok tt, child) ->
  calls child = preExecCalls P h
  /\ proc child =
     mkProc (rootfsDir h) ∅ []
       (new_id (gidOfUser h) (rgid p0)) (new_id (gidOfUser h) (egid p0))
       (new_id (gidOfUser h) (sgid p0))
       (new_id (uidOfUser h) (ruid p0)) (new_id (uidOfUser h) (euid p0))
       (new_id (uidOfUser h) (suid p0)) true.
Proof.
  intros Hlast Hcaps Hrun. unfold preExecActions in Hrun.
  destruct (syscall P (chroot _) _) as [[e1|] st1] eqn:H1; [discriminate Hrun|].
  destruct (capDropLoop P 0 st1) as [[[]|e2] st2] eqn:H2; [|discriminate Hrun].
  destruct (syscall P (setgroups _) _) as [[e3|] st3] eqn:H3; [discriminate Hrun|].
  destruct (syscall P (setresgid _ _ _) _) as [[e4|] st4] eqn:H4; [discriminate Hrun|].
  destruct (syscall P (setresuid _ _ _) _) as [[e5|] st5] eqn:H5; [discriminate Hrun|].
  destruct (syscall P (prctl_PR_SET_NO_NEW_PRIVS _) _) as [[e6|] st6] eqn:H6;
    [discriminate Hrun|].
  injection Hrun as ->.
  apply syscall_inv in H1 as [C1 K1], H3 as [C3 K3], H4 as [C4 K4],
    H5 as [C5 K5], H6 as [C6 K6].
  apply (capDropLoop_ok P Hlast (Z.to_nat (cap_last_cap P + 1))) in H2 as [C2 K2];
    [|lia|lia].
  unfold kernel in K1, K3, K4, K5, K6.
  destruct (kernelRefuses P _ (chroot _)); [discriminate K1|].
  destruct (kernelRefuses P _ (setgroups _)); [discriminate K3|].
  destruct (kernelRefuses P _ (setresgid _ _ _)); [discriminate K4|].
  destruct (kernelRefuses P _ (setresuid _ _ _)); [discriminate K5|].
  destruct (kernelRefuses P _ (prctl_PR_SET_NO_NEW_PRIVS _)); [discriminate K6|].
  cbn in K1, K3, K4, K5, K6, C1.
  injection K1 as K1. injection K3 as K3. injection K4 as K4.
  injection K5 as K5. injection K6 as K6.
  split.
  - rewrite C6, C5, C4, C3, C2, C1, Z.sub_0_r. unfold preExecCalls. cbn.
    rewrite <- !app_assoc. reflexivity.
  - rewrite <- K6, <- K5, <- K4, <- K3, K2, <- K1. cbn. f_equal.
    apply set_eq. intros c. rewrite elem_of_filter.
    split; [|set_solver]. intros [Hc Hin]. exfalso. apply Hc.
    apply Hcaps in Hin. unfold cap_valid in Hin.
    apply andb_prop in Hin as [?%Z.leb_le ?%Z.leb_le]. lia.
Qed.

(** The pre-exec actions that fail: the calls they have made are those of
    [preExecCalls], in their order, up to the one that the kernel
    refused. *)
Lemma preExecActions_failed P (h : SshHook) (p0 : Proc) (e : Err) (child : Child) :
  0 <= cap_last_cap P < INT_MAX ->
  preExecActions P h (mkChild p0 []) = (Error e, child) ->
  exists rest, preExecCalls P h = (calls child ++ rest)%list.
Proof.
  intros Hlast Hrun. unfold preExecActions in Hrun. unfold preExecCalls.
  destruct (syscall P (chroot _) _) as [[e1|] st1] eqn:H1.
  { injection Hrun as _ <-. apply syscall_inv in H1 as [-> _].
    eexists. reflexivity. }
  apply syscall_inv in H1 as [C1 _]. cbn in C1.
  destruct (capDropLoop P 0 st1) as [[[]|e2] st2] eqn:H2.
  2: { injection Hrun as _ <-.
       apply (capDropLoop_failed P Hlast (Z.to_nat (cap_last_cap P + 1))) in H2
         as (m & Hm & ->); [|lia|lia].
       rewrite C1, (seqZ_split m (cap_last_cap P + 2)), map_app by lia.
       eexists. cbn. rewrite <- !app_assoc. reflexivity. }
  apply (capDropLoop_ok P Hlast (Z.to_nat (cap_last_cap P + 1))) in H2 as [C2 _];
    [|lia|lia].
  rewrite C1, Z.sub_0_r in C2.
  destruct (syscall P (setgroups _) _) as [[e3|] st3] eqn:H3.
  { injection Hrun as _ <-. apply syscall_inv in H3 as [-> _]. rewrite C2.
    eexists. cbn. rewrite <- !app_assoc. reflexivity. }
  apply syscall_inv in H3 as [C3 _].
  destruct (syscall P (setresgid _ _ _) _) as [[e4|] st4] eqn:H4.
  { injection Hrun as _ <-. apply syscall_inv in H4 as [-> _]. rewrite C3, C2.
    eexists. cbn. rewrite <- !app_assoc. reflexivity. }
  apply syscall_inv in H4 as [C4 _].
  destruct (syscall P (setresuid _ _ _) _) as [[e5|] st5] eqn:H5.
  { injection Hrun as _ <-. apply syscall_inv in H5 as [-> _]. rewrite C4, C3, C2.
    eexists. cbn. rewrite <- !app_assoc. reflexivity. }
  apply syscall_inv in H5 as [C5 _].
  destruct (syscall P (prctl_PR_SET_NO_NEW_PRIVS _) _) as [[e6|] st6] eqn:H6;
    [|discriminate Hrun].
  injection Hrun as _ <-. apply syscall_inv in H6 as [-> _]. rewrite C5, C4, C3, C2.
  eexists. cbn. rewrite <- !app_assoc. reflexivity.
Qed.

Lemma accepted_uids p c p' :
  match c with setresuid _ _ _ | prctl_PR_SET_NO_NEW_PRIVS _ => False | _ => True end ->
  accepted p c = inr p' -> uids p' = uids p.
Proof. destruct c; try done; cbn; intros _ [= <-]; reflexivity. Qed.

Lemma syscall_uids P c st e st' :
  syscall P c st = (e, st') ->
  match c with setresuid _ _ _ | prctl_PR_SET_NO_NEW_PRIVS _ => False | _ => True end ->
  uids (proc st') = uids (proc st).
Proof.
  intros H Hc. apply syscall_inv in H as [_ H]. destruct e as [errno|].
  - destruct H as [_ ->]. reflexivity.
  - unfold kernel in H. destruct c; try done;
      repeat match type of H with
        | (if ?b then _ else _) = _ => destruct b; [|discriminate H]
        | match ?x with _ => _ end = _ => destruct x; [discriminate H|]
        end;
      (refine (accepted_uids _ _ _ _ H); exact Hc).
Qed.

Lemma syscall_refused P c st errno st' :
  syscall P c st = (Some errno, st') ->
  last (calls st') = Some c /\ kernel P (proc st') c = inl errno.
Proof.
  intros H. apply syscall_inv in H as [Hc [Hk Hp]].
  rewrite Hc, Hp. split; [apply last_snoc|exact Hk].
Qed.

(** The capability loop, however it ends: it changes no user identifier,
    and when it fails, the call that the kernel refused is the last one. *)
Lemma capDropLoop_outcome P (n : nat) : forall capIdx st r st',
  (capsAhead P capIdx < n)%nat ->
  capDropLoop P capIdx st = (r, st') ->
  uids (proc st') = uids (proc st)
  /\ match r with
     | Ok _ => True
     | Error e =>
         exists c errno,
           last (calls st') = Some c /\ kernel P (proc st') c = inl errno
           /\ e = raised_on c errno
     end.
Proof.
  induction n as [|n IH]; intros capIdx st r st' Hn Hrun; [lia|].
  rewrite capDropLoop_step in Hrun.
  destruct (syscall P (prctl_PR_CAPBSET_DROP capIdx) st) as [[errno|] st1] eqn:Hcall.
  - pose proof (syscall_uids P _ _ _ _ Hcall I) as Hu.
    destruct (syscall_refused P _ _ _ _ Hcall) as [Hlast Hk].
    destruct (Errno_eqb errno EINVAL); injection Hrun as <- <-; (split; [exact Hu|]);
      [exact I | by exists (prctl_PR_CAPBSET_DROP capIdx), errno].
  - pose proof (syscall_uids P _ _ _ _ Hcall I) as Hu.
    pose proof (capsAhead_decreases P capIdx (syscall_capbset_accepted P _ _ _ Hcall)) as Hdec.
    apply IH in Hrun as [Hu' Hr]; [|lia].
    split; [congruence|exact Hr].
Qed.

(** The pre-exec actions, when they fail: the call that the kernel refused
    is the last one, the exception names it, and the user identifiers are
    those at the fork unless [PR_SET_NO_NEW_PRIVS] is the call that
    failed. *)
Lemma preExecActions_stops :
  forall (P : Platform) (this : SshHook) (p0 : Proc) (e : Err) (child : Child),
    preExecActions P this (mkChild p0 []) = (Error e, child) ->
    (exists c errno,
        last (calls child) = Some c
        /\ kernel P (proc child) c = inl errno
        /\ e = raised_on c errno)
    /\ noNewPrivs (proc child) = noNewPrivs p0
    /\ (uids (proc child) = uids p0
        \/ exists errno, e = FailedToPrctlSetNoNewPrivs errno).
Proof.
  intros P this p0 e child Hrun. unfold preExecActions in Hrun.
  destruct (syscall P (chroot _) _) as [[e1|] st1] eqn:H1.
  { injection Hrun as <- <-.
    destruct (syscall_refused P _ _ _ _ H1) as [Hlast Hk].
    pose proof (syscall_uids P _ _ _ _ H1 I) as Hu. cbn in Hu.
    split; [by exists (chroot (rootfsDir this)), e1|].
    split; [by injection Hu|by left]. }
  pose proof (syscall_uids P _ _ _ _ H1 I) as Hu1. cbn in Hu1.
  destruct (capDropLoop P 0 st1) as [[[]|e2] st2] eqn:H2.
  2: { injection Hrun as <- <-.
       destruct (capDropLoop_outcome P _ _ _ _ _ (Nat.lt_succ_diag_r _) H2) as [Hu Hr].
       rewrite Hu1 in Hu.
       split; [exact Hr|]. split; [by injection Hu|by left]. }
  destruct (capDropLoop_outcome P _ _ _ _ _ (Nat.lt_succ_diag_r _) H2) as [Hu2 _].
  rewrite Hu1 in Hu2.
  destruct (syscall P (setgroups _) _) as [[e3|] st3] eqn:H3.
  { injection Hrun as <- <-.
    destruct (syscall_refused P _ _ _ _ H3) as [Hlast Hk].
    pose proof (syscall_uids P _ _ _ _ H3 I) as Hu. rewrite Hu2 in Hu.
    split; [by exists (setgroups []), e3|].
    split; [by injection Hu|by left]. }
  pose proof (syscall_uids P _ _ _ _ H3 I) as Hu3. rewrite Hu2 in Hu3.
  destruct (syscall P (setresgid _ _ _) _) as [[e4|] st4] eqn:H4.
  { injection Hrun as <- <-.
    destruct (syscall_refused P _ _ _ _ H4) as [Hlast Hk].
    pose proof (syscall_uids P _ _ _ _ H4 I) as Hu. rewrite Hu3 in Hu.
    split; [by eexists (setresgid _ _ _), e4|].
    split; [by injection Hu|by left]. }
  pose proof (syscall_uids P _ _ _ _ H4 I) as Hu4. rewrite Hu3 in Hu4.
  destruct (syscall P (setresuid _ _ _) _) as [[e5|] st5] eqn:H5.
  { injection Hrun as <- <-.
    destruct (syscall_refused P _ _ _ _ H5) as [Hlast Hk].
    apply syscall_inv in H5 as [_ [_ Hp]].
    split; [by eexists (setresuid _ _ _), e5|]. rewrite Hp.
    split; [by injection Hu4|by left]. }
  assert (Hn5 : noNewPrivs (proc st5) = noNewPrivs p0).
  { apply syscall_inv in H5 as [_ Hk]. unfold kernel in Hk.
    destruct (kernelRefuses P _ _); [discriminate Hk|]. injection Hk as <-. cbn.
    by injection Hu4. }
  destruct (syscall P (prctl_PR_SET_NO_NEW_PRIVS _) _) as [[e6|] st6] eqn:H6;
    [|discriminate Hrun].
  injection Hrun as <- <-.
  destruct (syscall_refused P _ _ _ _ H6) as [Hlast Hk].
  apply syscall_inv in H6 as [_ [_ Hp]].
  split; [by eexists (prctl_PR_SET_NO_NEW_PRIVS _), e6|]. rewrite Hp.
  split; [exact Hn5|right; by exists e6].
Qed.





(** ** The container's passwd file *)

Lemma patchEntries_result rootfs (db : PasswdDB) s :
  exists evs,
    patchEntries rootfs db s =
    Return (map (fun e => patchEntry (interpreterFound (fs s) rootfs e) e) db)
      (mkState (this s) (fs s) (trace s ++ evs)).
Proof.
  revert s. induction db as [|e db IH]; intros [h fs0 tr].
  - exists []. cbn. by rewrite app_nil_r.
  - cbn [patchEntries map]. unfold interpreterFound at 1.
    destruct (userCommandInterpreter e) as [i|] eqn:Hi.
    + cbv beta iota zeta delta [exists_file emit get_fs mbind M_bind mret M_ret this fs trace].
      destruct (IH (mkState h fs0 (tr ++ [filesystem_exists (rootfs // i)]))) as [evs ->].
      cbn [this fs trace].
      exists (filesystem_exists (rootfs // i) :: evs). by rewrite <- app_assoc.
    + cbv beta iota zeta delta [mbind M_bind mret M_ret].
      destruct (IH (mkState h fs0 tr)) as [evs ->]. by exists evs.
Qed.

Lemma patchEntry_found e : patchEntry true e = e.
Proof. unfold patchEntry. by destruct (userCommandInterpreter e). Qed.




(** ** The key store after generate-ssh-keys *)

(** C5 (as stated, refuted on the sample): when the key generator prints
    no line with a public key, generate-ssh-keys fails after both keys have
    been generated, and the key store holds two of the three files. *)
Lemma keystore_is_partial_after_failed_run_on_sample :
  returns failedKeygenRun = false
  /\ exit_status failedKeygenRun <> 0
  /\ exists_ (fs (final_state failedKeygenRun)) (keystore // "dropbear_ecdsa_host_key") = true
  /\ exists_ (fs (final_state failedKeygenRun)) (keystore // "id_dropbear") = true
  /\ exists_ (fs (final_state failedKeygenRun)) (keystore // "authorized_keys") = false.
Proof. repeat split; try (vm_compute; reflexivity). vm_compute. discriminate. Qed.

Lemma exists_true (fs : FS) p : exists_ fs p = true <-> is_Some (fs !! p).
Proof. unfold exists_. apply bool_decide_eq_true. Qed.

(** *** Runs that return, step by step *)

Lemma bind_Return {A B} (m : M A) (f : A -> M B) s b s' :
  (m ≫= f) s = Return b s' ->
  exists a s1, m s = Return a s1 /\ f a s1 = Return b s'.
Proof.
  unfold mbind, M_bind. destruct (m s) as [a s1| |]; [eauto|discriminate..].
Qed.

Ltac red_small :=
  cbv beta iota zeta delta
    [open_PasswdDB getenv call or_throw write_file do_remove_all exists_file run
     emit get_this get_fs set_this set_fs throw exit mbind M_bind mret M_ret
     option_bind this fs trace].

Ltac small_step :=
  match goal with
  | |- context [match ?x with _ => _ end] =>
      lazymatch x with
      | context [match _ with _ => _ end] => fail
      | _ => let H := fresh "Heq" in destruct x eqn:H
      end
  end; red_small.

Ltac small_run :=
  unfold unchanged; red_small; repeat small_step; try discriminate;
  try (intros ?; simplify_eq/=; eauto 10).

Lemma getenv_Return P name s a s1 :
  getenv P name s = Return a s1 -> unchanged s s1 /\ environ P name = Some a.
Proof. destruct s, s1. small_run. Qed.

Lemma getUsername_Return P uid s a s1 :
  getUsername P uid s = Return a s1 -> unchanged s s1.
Proof. destruct s, s1. unfold getUsername. small_run. Qed.

Lemma getSshKeysDirInHost_Return P name s a s1 :
  getSshKeysDirInHost P name s = Return a s1 -> unchanged s s1.
Proof. destruct s, s1. unfold getSshKeysDirInHost. small_run. Qed.

Lemma call_Return P e s a s1 :
  call P e s = Return a s1 ->
  this s1 = this s /\ perform P e (fs s) = Some (fs s1).
Proof. destruct s, s1. small_run. Qed.

Lemma allExistIn_Return dir files s found s1 :
  allExistIn dir files s = Return found s1 ->
  unchanged s s1
  /\ (found = true -> forall file, file ∈ files -> exists_ (fs s) (dir // file) = true).
Proof.
  revert s. induction files as [|file files IH]; intros [h fs0 tr]; cbn [allExistIn].
  - intros [= <- <-]. split; [done|]. intros _ file Hin. by apply elem_of_nil in Hin.
  - red_small. destruct (exists_ fs0 (dir // file)) eqn:Hfile.
    + intros [Hun Hall]%IH. cbn in Hun, Hall. split; [exact Hun|].
      intros Hfound file' [->|Hin]%elem_of_cons; auto.
    + intros [= <- <-]. split; [done|discriminate].
Qed.

Lemma sshKeygen_Return P outputFile s a s1 :
  sshKeygen P outputFile s = Return a s1 ->
  this s1 = this s
  /\ exists output,
       commandResult P (sshKeygenCommand (dropbearDirInHost (this s)) outputFile) (fs s)
       = Some (output, fs s1).
Proof.
  destruct s, s1. unfold sshKeygen. small_run.
Qed.

Lemma generateAuthorizedKeys_Return P userKeyFile authorizedKeysFile s a s1 :
  generateAuthorizedKeys P userKeyFile authorizedKeysFile s = Return a s1 ->
  this s1 = this s
  /\ exists output fs1 key,
       commandResult P
         (publicKeyCommand (dropbearDirInHost (this s)) (sshKeysDirInHost (this s))) (fs s)
       = Some (output, fs1)
       /\ firstPublicKey output = Some key
       /\ fs s1 = ofstream_write (umask P) (sshKeysDirInHost (this s) // "authorized_keys")
                    (key +:+ endl) fs1.
Proof.
  destruct s, s1. unfold generateAuthorizedKeys. small_run.
Qed.

Lemma with_Lockfile_Return {A} P dir (scope : M A) s a s' :
  with_Lockfile P dir scope s = Return a s' ->
  exists s1 s2,
    call P (Lockfile_acquire dir) s = Return tt s1
    /\ scope s1 = Return a s2
    /\ s' = release P dir s2.
Proof.
  unfold with_Lockfile. intros (u & s1 & Hcall & Hscope)%bind_Return.
  destruct u. destruct (scope s1) as [a' s2| |] eqn:Hs; [|discriminate..].
  injection Hscope as <- <-. eauto.
Qed.

Lemma release_keeps P dir s :
  (forall dir fs fs', perform P (Lockfile_release dir) fs = Some fs' -> keeps_files fs fs') ->
  this (release P dir s) = this s /\ keeps_files (fs s) (fs (release P dir s)).
Proof.
  intros Hrel. unfold release. cbn. split; [done|].
  destruct (perform P (Lockfile_release dir) (fs s)) eqn:H; cbn; [eauto|].
  by intros p.
Qed.

(** C5 (amended): every run of generate-ssh-keys that returns leaves all
    three of [dropbear_ecdsa_host_key], [id_dropbear] and [authorized_keys]
    in the key store, provided that the key generator writes the file it is
    asked for, and that no external command and no release of the lock
    removes a file. *)
Theorem successful_keygen_leaves_all_three_files :
  forall (P : Platform) (overwriteSshKeysIfExist : bool) (fs0 : FS) (s' : State),
    (forall command fs output fs',
        commandResult P command fs = Some (output, fs') -> keeps_files fs fs') ->
    (forall dropbearDir outputFile fs output fs',
        environ P "DROPBEAR_DIR" = Some dropbearDir ->
        commandResult P (sshKeygenCommand dropbearDir outputFile) fs = Some (output, fs') ->
        is_Some (fs' !! outputFile)) ->
    (forall dir fs fs', perform P (Lockfile_release dir) fs = Some fs' -> keeps_files fs fs') ->
    generateSshKeys P overwriteSshKeysIfExist (initially fs0) = Return tt s' ->
    forall file, file ∈ expectedKeyFiles ->
      exists_ (fs s') (sshKeysDirInHost (this s') // file) = true.
Proof.
  intros P overwrite fs0 s' Hkeep Hgen Hrel Hrun.
  unfold generateSshKeys in Hrun.
  apply bind_Return in Hrun as ([] & s1 & [= <-] & Hrun).
  apply bind_Return in Hrun as ([] & s2 & [= <-] & Hrun).
  apply bind_Return in Hrun as (h & s3 & [= <- <-] & Hrun).
  apply bind_Return in Hrun as (name & s4 & [H4 _]%getUsername_Return & Hrun).
  apply bind_Return in Hrun as ([] & s5 & [= <-] & Hrun).
  apply bind_Return in Hrun as (dir & s6 & [H6 _]%getSshKeysDirInHost_Return & Hrun).
  apply bind_Return in Hrun as ([] & s7 & [= <-] & Hrun).
  apply bind_Return in Hrun as (dropbearDir & s8 & [[H8 _] Henv]%getenv_Return & Hrun).
  apply bind_Return in Hrun as ([] & s9 & [= <-] & Hrun).
  apply bind_Return in Hrun as ([] & s10 & [H10 _]%call_Return & Hrun).
  apply with_Lockfile_Return in Hrun as (s11 & s12 & [H11 _]%call_Return & Hscope & ->).
  assert (Hdir : sshKeysDirInHost (this s11) = dir).
  { rewrite H11, H10. cbn. rewrite H8. reflexivity. }
  destruct (release_keeps P dir s12 Hrel) as [Hthis Hfs].
  rewrite Hthis.
  enough (Hgoal : this s12 = this s11 /\
            forall file, file ∈ expectedKeyFiles ->
              is_Some (fs s12 !! (dir // file))).
  { destruct Hgoal as [-> Hall]. rewrite Hdir. intros file Hfile.
    apply exists_true, Hfs, Hall, Hfile. }
  clear Hthis Hfs.
  apply bind_Return in Hscope as (has & s13 & Hhas & Hscope).
  unfold userHasSshKeys in Hhas.
  apply bind_Return in Hhas as (h' & s13' & [= <- <-] & Hhas).
  apply allExistIn_Return in Hhas as [[Hthis13 Hfs13] Hfound]. rewrite Hdir in Hfound.
  destruct (has && negb overwrite) eqn:Hskip.
  - injection Hscope as <-. split; [exact Hthis13|].
    apply andb_prop in Hskip as [-> _]. intros file Hfile.
    rewrite Hfs13. apply exists_true. auto.
  - clear Hfound Hskip.
    apply bind_Return in Hscope as ([] & s14 & Hrm & Hscope).
    apply bind_Return in Hscope as ([] & s15 & [H15 _]%call_Return & Hscope).
    apply bind_Return in Hscope as ([] & s16 & [H16 (o1 & Hk1)]%sshKeygen_Return & Hscope).
    apply bind_Return in Hscope as ([] & s17 & [H17 (o2 & Hk2)]%sshKeygen_Return & Hscope).
    apply generateAuthorizedKeys_Return in Hscope
      as [H18 (o3 & fs18 & key & Hk3 & _ & Hfs18)].
    assert (Hthis14 : this s14 = this s13).
    { unfold do_remove_all in Hrm. destruct s13, s14. revert Hrm. small_run. }
    assert (Hthis17 : this s17 = this s11) by congruence.
    split; [congruence|].
    rewrite Hthis17, Hdir in Hfs18.
    assert (Hdropbear : dropbearDirInHost (this s11) = dropbearDir)
      by (rewrite H11, H10; reflexivity).
    rewrite H15, Hthis14, Hthis13, Hdropbear in Hk1.
    rewrite H16, H15, Hthis14, Hthis13, Hdropbear in Hk2.
    pose proof (Hgen _ _ _ _ _ Henv Hk1) as Hhost.
    pose proof (Hgen _ _ _ _ _ Henv Hk2) as Huser.
    pose proof (Hkeep _ _ _ _ Hk2) as Hkeep2.
    pose proof (Hkeep _ _ _ _ Hk3) as Hkeep3.
    intros file Hfile. rewrite Hfs18.
    unfold expectedKeyFiles in Hfile.
    apply elem_of_cons in Hfile as [->|Hfile];
      [apply ofstream_write_keeps, Hkeep3, Hkeep2, Hhost|].
    apply elem_of_cons in Hfile as [->|Hfile];
      [apply ofstream_write_keeps, Hkeep3, Huser|].
    apply elem_of_cons in Hfile as [->|Hfile]; [|by apply elem_of_nil in Hfile].
    destruct (lookup_ofstream_write (umask P) (dir // "authorized_keys") (key +:+ endl) fs18)
      as [m ->]; [|done].
    rewrite (directory_of_sibling dir "authorized_keys" "id_dropbear") by done.
    apply is_directory_of_file, Hkeep3, Huser.
Qed.

Lemma successful_keygen_leaves_all_three_files_witness :
  let o := generateSshKeys (Sample.platform 1000 1000 Sample.publicKeyText) false
             (initially Sample.files) in
  exists_ (fs (final_state o)) (keystore // "dropbear_ecdsa_host_key") = true
  /\ exists_ (fs (final_state o)) (keystore // "id_dropbear") = true
  /\ exists_ (fs (final_state o)) (keystore // "authorized_keys") = true.
Proof.
  intros o.
  assert (Hdir : sshKeysDirInHost (this (final_state o)) = keystore)
    by (vm_compute; reflexivity).
  rewrite <- Hdir.
  pose proof (successful_keygen_leaves_all_three_files
           (Sample.platform 1000 1000 Sample.publicKeyText) false Sample.files
           (final_state o)) as H.
  enough (Hall : forall file, file ∈ expectedKeyFiles ->
            exists_ (fs (final_state o))
              (sshKeysDirInHost (this (final_state o)) // file) = true).
  { repeat split; apply Hall; unfold expectedKeyFiles; repeat constructor. }
  apply H; [| | | vm_compute; reflexivity]; clear H.
  - intros command files output files' Hcommand.
    change (Sample.dropbearkey Sample.publicKeyText command files = Some (output, files'))
      in Hcommand.
    unfold Sample.dropbearkey in Hcommand. repeat case_match.
    + injection Hcommand as _ <-. intros p Hp.
      match goal with
      | |- is_Some (<[?created := _]> _ !! _) =>
          destruct (decide (created = p)) as [->|]
      end; [rewrite lookup_insert_eq; eauto | by rewrite lookup_insert_ne].
    + injection Hcommand as _ <-. by intros p.
    + discriminate.
  - intros dropbearDir outputFile files output files' Hdropbear Hcommand.
    vm_compute in Hdropbear. injection Hdropbear as <-.
    change (Sample.dropbearkey Sample.publicKeyText
              (sshKeygenCommand "/opt/dropbear" outputFile) files = Some (output, files'))
      in Hcommand.
    injection Hcommand as _ <-. rewrite lookup_insert_eq. eauto.
  - intros dir files files' Hrelease.
    change (Some files = Some files') in Hrelease. injection Hrelease as <-.
    by intros p.
Defined.

(** ** The files that the hook writes *)

(** C6 (amended): in every run of start-ssh-daemon that returns, the file
    [rootfs/usr/bin/ssh] has mode 0755 and holds two lines: the shebang,
    and the call of [/opt/oci-hooks/dropbear/bin/dbclient] with [-y], with
    [-p] followed by the port read from SERVER_PORT, and with [$*], not
    quoted, for the arguments of the caller. *)
Theorem ssh_shim_text_and_mode :
  forall (P : Platform) (fs0 : FS) (text : string),
    let o := startSshDaemon P (initially fs0) in
    returns o = true ->
    environ P "SERVER_PORT" = Some text ->
    exists port,
      stoi text = Some port
      /\ fs (final_state o) !! (rootfsDir (this (final_state o)) // "usr/bin/ssh") =
           Some (mkFile ("#!/bin/sh" +:+ endl +:+
                         "/opt/oci-hooks/dropbear/bin/dbclient -y -p " +:+ to_string port
                         +:+ " $*" +:+ endl)
                   (7 * 64 + 5 * 8 + 5)).
Proof.
  intros P fs0 text. red_run. repeat run_step.
  all: try discriminate.
  intros _ [= ->].
  eexists. split; [eassumption|].
  match goal with
  | H : set_permissions _ _ (ofstream_write _ _ _ _) = Some _ |- _ =>
      rewrite permissions_after_stream in H;
      destruct (is_directory _ _); [injection H as <-|discriminate H]
  end.
  rewrite lookup_insert_eq.
  match goal with
  | H : settings _ = settings _ |- _ =>
      cbv [settings] in H; cbn in H; injection H as H1 _ H3 _ _
  end.
  cbn. rewrite H1, H3. reflexivity.
Qed.

Lemma ssh_shim_text_and_mode_witness :
  fs (final_state sampleRun) !! "/bundle/rootfs/usr/bin/ssh" =
    Some (mkFile ("#!/bin/sh" +:+ endl +:+
                  "/opt/oci-hooks/dropbear/bin/dbclient -y -p 2222 $*" +:+ endl)
            493).
Proof.
  destruct (ssh_shim_text_and_mode (Sample.platform 0 0 Sample.publicKeyText)
              Sample.files "2222") as (port & Hport & Hfile).
  - vm_compute. reflexivity.
  - vm_compute. reflexivity.
  - vm_compute in Hport. injection Hport as <-. exact Hfile.
Defined.

(** C6 (as stated, refuted on the sample): with SERVER_PORT=2222 the shim
    does not end with [-p 2222] followed by the quoted [$@]; it ends with
    [-p 2222 $*]. *)
Lemma ssh_shim_does_not_quote_its_arguments_on_sample :
  returns sampleRun = true
  /\ environ (Sample.platform 0 0 Sample.publicKeyText) "SERVER_PORT" = Some "2222"
  /\ exists f,
       fs (final_state sampleRun) !! "/bundle/rootfs/usr/bin/ssh" = Some f
       /\ ends_with ("-p 2222 " +:+ dquote +:+ "$@" +:+ dquote +:+ endl) (content f) = false
       /\ ends_with ("-p 2222 $*" +:+ endl) (content f) = true.
Proof.
  split; [vm_compute; reflexivity|]. split; [vm_compute; reflexivity|].
  eexists. split; [vm_compute; reflexivity|]. split; vm_compute; reflexivity.
Qed.





(** * Further properties of the code *)

(** ** hooks/mpi/SharedLibrary *)

Section Picker.

Import SharedLibrary.

Lemma findOldest_in self oldest cs :
  match findOldest self oldest cs with
  | inl c => c ∈ cs
  | inr o => o = oldest \/ o ∈ cs
  end.
Proof.
  revert oldest. induction cs as [|c cs IH]; intros oldest; cbn [findOldest].
  - by left.
  - destruct (String.eqb _ _); [apply elem_of_cons; by left|].
    destruct (_ || _); [destruct (_ && _)|].
    all: match goal with |- context [findOldest _ ?o _] => specialize (IH o) end.
    all: destruct (findOldest _ _ cs) as [r|r];
      [apply elem_of_cons; by right|].
    all: destruct IH as [->|Hin]; rewrite ?elem_of_cons; auto.
Qed.

Lemma findBest_in self best cs :
  findBest self best cs = best \/ findBest self best cs ∈ cs.
Proof.
  revert best. induction cs as [|c cs IH]; intros best; cbn [findBest]; [by left|].
  destruct (_ && _); [destruct (_ && _)|].
  all: match goal with |- context [findBest _ ?o _] => specialize (IH o) end.
  all: destruct IH as [->|Hin]; rewrite ?elem_of_cons; auto.
Qed.

(** X1: [pickNewestAbiCompatibleLibrary] raises its error exactly when it
    is given no candidate, and what it returns is always one of the
    candidates it was given. *)
Theorem pick_returns_one_of_the_candidates :
  forall (self : SharedLibrary) (candidates : list SharedLibrary),
    match pickNewestAbiCompatibleLibrary self candidates with
    | Ok c => c ∈ candidates
    | Error _ => candidates = []
    end.
Proof.
  intros self [|c0 [|c1 cs]]; cbn [pickNewestAbiCompatibleLibrary]; [done|by left|].
  pose proof (findOldest_in self c0 (c0 :: c1 :: cs)) as Ho.
  destruct (findOldest self c0 (c0 :: c1 :: cs)) as [r|o]; [exact Ho|].
  destruct (findBest_in self o (c0 :: c1 :: cs)) as [->|Hin]; [|exact Hin].
  destruct Ho as [->|Ho]; [by left|exact Ho].
Qed.

Lemma findOldest_exact self oldest cs r :
  List.find (sameRealName self) cs = Some r -> findOldest self oldest cs = inl r.
Proof.
  revert oldest. induction cs as [|c cs IH]; intros oldest; cbn [List.find findOldest];
    [discriminate|].
  unfold sameRealName at 1. destruct (String.eqb _ _); [by intros [= ->]|].
  intros H. destruct (_ || _); [destruct (_ && _)|]; auto.
Qed.

(** X2: with two candidates or more, when a candidate has the real name
    of the target, the picker returns the first such candidate, whatever
    the other candidates are. *)
Theorem pick_returns_the_first_exact_match :
  forall (self : SharedLibrary) (candidates : list SharedLibrary) (c : SharedLibrary),
    (2 <= length candidates)%nat ->
    List.find (sameRealName self) candidates = Some c ->
    pickNewestAbiCompatibleLibrary self candidates = Ok c.
Proof.
  intros self [|c0 [|c1 cs]] c Hlen Hfind; cbn in Hlen; [lia..|].
  cbn [pickNewestAbiCompatibleLibrary].
  by rewrite (findOldest_exact self c0 _ c Hfind).
Qed.

Lemma pick_returns_the_first_exact_match_witness :
  let lib := SharedLibrary.lib "libfoo.so" in
  pickNewestAbiCompatibleLibrary (lib 2 1 0 "2.1.0")
    [lib 1 0 0 "1.0.0"; lib 2 1 0 "2.1.0"; lib 2 5 0 "2.5.0"] = Ok (lib 2 1 0 "2.1.0").
Proof.
  intros lib. apply pick_returns_the_first_exact_match; [cbn; lia | reflexivity].
Defined.

Lemma findOldest_within_major self oldest cs :
  List.find (sameRealName self) cs = None ->
  major oldest = major self ->
  (forall c, c ∈ cs -> major c = major self) ->
  exists o,
    findOldest self oldest cs = inr o
    /\ (o = oldest \/ o ∈ cs)
    /\ minor o <= minor oldest
    /\ forall c, c ∈ cs -> minor o <= minor c.
Proof.
  revert oldest. induction cs as [|c cs IH]; intros oldest Hfind Ho Hall;
    cbn [List.find findOldest] in *.
  - exists oldest. repeat split; [by left|lia|]. intros c Hc. by apply elem_of_nil in Hc.
  - unfold sameRealName at 1 in Hfind.
    destruct (String.eqb _ _); [discriminate|].
    assert (Hc : major c = major self) by (apply Hall; by left).
    assert (Hrest : forall c', c' ∈ cs -> major c' = major self)
      by (intros; apply Hall; by right).
    rewrite Hc, Ho, Z.ltb_irrefl, Z.eqb_refl. cbn [orb andb].
    destruct (Z.leb_spec (minor c) (minor oldest)) as [Hle|Hgt].
    + destruct (IH c Hfind Hc Hrest) as (o & -> & Hin & Hmin & Hlow).
      exists o. split; [done|]. repeat split.
      * right. destruct Hin as [->|Hin]; [by left|by right].
      * lia.
      * intros c' [->|Hc']%elem_of_cons; auto.
    + destruct (IH oldest Hfind Ho Hrest) as (o & -> & Hin & Hmin & Hlow).
      exists o. split; [done|]. repeat split.
      * destruct Hin as [->|Hin]; [by left|right; by right].
      * lia.
      * intros c' [->|Hc']%elem_of_cons; [lia|auto].
Qed.

Lemma findBest_within_major self (all : list SharedLibrary) best cs :
  (forall c, c ∈ cs -> c ∈ all) -> best ∈ all ->
  (forall c, c ∈ all -> major c = major self) ->
  (forall c c', c ∈ all -> c' ∈ all -> minor c = minor self -> patch c' <= patch c) ->
  let r := findBest self best cs in
  minor best <= minor r
  /\ (r = best \/ (r ∈ cs /\ minor r <= minor self))
  /\ forall c, c ∈ cs -> minor c <= minor self -> minor best <= minor c ->
       minor c <= minor r.
Proof.
  intros Hsub Hbest Hmajor Hpatch. revert best Hbest.
  induction cs as [|c cs IH]; intros best Hbest; cbn [findBest].
  - repeat split; [lia|by left|]. intros c Hc. by apply elem_of_nil in Hc.
  - assert (Hc : c ∈ all) by (apply Hsub; by left).
    assert (Hrest : forall c', c' ∈ cs -> c' ∈ all) by (intros; apply Hsub; by right).
    rewrite (Hmajor c Hc), (Hmajor best Hbest), Z.ltb_irrefl, Z.eqb_refl, Z.leb_refl.
    cbn [orb andb].
    destruct (Z.leb_spec (minor best) (minor c)) as [Hle|Hgt]; cbn [andb].
    + destruct (Z.leb_spec (minor c) (minor self)) as [Hle'|Hgt'].
      * assert (Hguard : (minor c =? minor self) && (patch c <? patch best) = false).
        { destruct (Z.eqb_spec (minor c) (minor self)) as [Heq|]; [|done].
          cbn. apply Z.ltb_ge. by apply Hpatch. }
        rewrite Hguard.
        destruct (IH Hrest c Hc) as (H1 & H2 & H3).
        repeat split.
        -- lia.
        -- right. destruct H2 as [->|[Hin Hr]]; (split; [|lia]);
             [by left|by right].
        -- intros c' [->|Hc']%elem_of_cons Hs Hb; [done|].
           destruct (Z.le_gt_cases (minor c) (minor c')); [auto|lia].
      * destruct (IH Hrest best Hbest) as (H1 & H2 & H3).
        repeat split; [done| |].
        -- destruct H2 as [->|[Hin Hr]]; [by left|right; split; [by right|done]].
        -- intros c' [->|Hc']%elem_of_cons Hs Hb; [lia|auto].
    + destruct (IH Hrest best Hbest) as (H1 & H2 & H3).
      repeat split; [done| |].
      * destruct H2 as [->|[Hin Hr]]; [by left|right; split; [by right|done]].
      * intros c' [->|Hc']%elem_of_cons Hs Hb; [lia|auto].
Qed.

(** X3: the policy that the comment in the code states ("the newest of
    the libraries older or equal to me; otherwise, the oldest of the
    libraries newer than me") holds among candidates of the target's major
    version: when no candidate has the target's real name, every candidate
    has the target's major version, and no candidate with the target's
    minor version has a lower patch number than another candidate, then
    the picker returns a candidate with the greatest minor version up to
    the target's when there is one, and otherwise one with the least minor
    version. *)
Theorem pick_within_one_major_follows_the_policy :
  forall (self : SharedLibrary) (candidates : list SharedLibrary),
    (2 <= length candidates)%nat ->
    List.find (sameRealName self) candidates = None ->
    (forall c, c ∈ candidates -> major c = major self) ->
    (forall c c', c ∈ candidates -> c' ∈ candidates ->
       minor c = minor self -> patch c' <= patch c) ->
    exists r,
      pickNewestAbiCompatibleLibrary self candidates = Ok r
      /\ r ∈ candidates
      /\ ((exists c, c ∈ candidates /\ minor c <= minor self) ->
          minor r <= minor self
          /\ forall c, c ∈ candidates -> minor c <= minor self -> minor c <= minor r)
      /\ ((forall c, c ∈ candidates -> minor self < minor c) ->
          forall c, c ∈ candidates -> minor r <= minor c).
Proof.
  intros self [|c0 [|c1 cs]] Hlen Hfind Hmajor Hpatch; cbn in Hlen; [lia..|].
  cbn [pickNewestAbiCompatibleLibrary]. set (all := c0 :: c1 :: cs) in *.
  assert (H0 : c0 ∈ all) by by left.
  destruct (findOldest_within_major self c0 all Hfind (Hmajor c0 H0) Hmajor)
    as (o & -> & Ho & _ & Hmin).
  assert (Hoin : o ∈ all) by (destruct Ho as [->|Ho]; done).
  destruct (findBest_within_major self all o all (fun c H => H) Hoin Hmajor Hpatch)
    as (H1 & H2 & H3).
  exists (findBest self o all). split; [done|].
  split; [destruct H2 as [->|[Hin _]]; done|]. split.
  - intros (c & Hc & Hle). split.
    + destruct H2 as [Hr|[_ Hr]]; [|done]. rewrite Hr.
      specialize (Hmin c Hc). lia.
    + intros c' Hc' Hle'. apply H3; auto.
  - intros Hnewer c Hc.
    destruct H2 as [->|[Hin Hr]]; [auto|].
    specialize (Hnewer _ Hin). lia.
Qed.

Lemma pick_within_one_major_follows_the_policy_witness :
  let lib := SharedLibrary.lib "libfoo.so" in
  let candidates := [lib 2 3 0 "2.3.0"; lib 2 0 4 "2.0.4"; lib 2 1 7 "2.1.7"] in
  exists r,
    pickNewestAbiCompatibleLibrary (lib 2 2 1 "2.2.1") candidates = Ok r
    /\ minor r = 1.
Proof.
  intros lib candidates.
  destruct (pick_within_one_major_follows_the_policy (lib 2 2 1 "2.2.1") candidates)
    as (r & Hpick & Hin & Hold & _).
  - cbn. lia.
  - reflexivity.
  - intros c Hc. repeat (apply elem_of_cons in Hc as [->|Hc]); [reflexivity..|].
    by apply elem_of_nil in Hc.
  - intros c c' Hc Hc' Hminor. exfalso.
    repeat (apply elem_of_cons in Hc as [->|Hc]); try discriminate Hminor.
    by apply elem_of_nil in Hc.
  - exists r. split; [exact Hpick|].
    destruct Hold as [Hle Hmax].
    + exists (lib 2 1 7 "2.1.7"). split; [|cbn; lia]. do 2 right. by left.
    + assert (H1 : 1 <= minor r).
      { apply (Hmax (lib 2 1 7 "2.1.7")); [|cbn; lia]. do 2 right. by left. }
      assert (H2 : minor r <> 2).
      { intros Heq. repeat (apply elem_of_cons in Hin as [->|Hin]); try discriminate Heq.
        by apply elem_of_nil in Hin. }
      cbn in Hle. lia.
Defined.

(** X4: [isMajorAbiCompatible] is an equivalence of libraries, and
    [isFullAbiCompatible] is reflexive and transitive and implies it; two
    libraries that are fully compatible in both directions have the same
    minor version. *)
Theorem abi_compatibility_relations :
  forall a b c : SharedLibrary,
    implb (isFullAbiCompatible a b) (isMajorAbiCompatible a b) = true
    /\ isMajorAbiCompatible a a = true
    /\ isMajorAbiCompatible a b = isMajorAbiCompatible b a
    /\ implb (isMajorAbiCompatible a b && isMajorAbiCompatible b c)
         (isMajorAbiCompatible a c) = true
    /\ isFullAbiCompatible a a = true
    /\ implb (isFullAbiCompatible a b && isFullAbiCompatible b c)
         (isFullAbiCompatible a c) = true
    /\ implb (isFullAbiCompatible a b && isFullAbiCompatible b a)
         (minor a =? minor b) = true.
Proof.
  intros a b c. unfold isFullAbiCompatible, isMajorAbiCompatible, getLinkerName.
  repeat split.
  - by destruct (String.eqb _ _), (_ =? _), (_ <=? _).
  - by rewrite String.eqb_refl, Z.eqb_refl.
  - by rewrite String.eqb_sym, Z.eqb_sym.
  - destruct (String.eqb_spec (linkerName a) (linkerName b)) as [->|]; [|done].
    destruct (Z.eqb_spec (major a) (major b)) as [->|]; [|done].
    cbn [andb]. by destruct (String.eqb _ _), (_ =? _).
  - by rewrite String.eqb_refl, Z.eqb_refl, Z.leb_refl.
  - destruct (String.eqb_spec (linkerName a) (linkerName b)) as [->|]; [|done].
    destruct (Z.eqb_spec (major a) (major b)) as [->|]; [|done].
    destruct (Z.leb_spec (minor a) (minor b)); [|done].
    cbn [andb]. destruct (String.eqb _ _); [|done].
    destruct (_ =? _); [|done].
    destruct (Z.leb_spec (minor b) (minor c)); [|done].
    cbn. apply Z.leb_le. lia.
  - destruct (String.eqb _ _); [|done]. destruct (String.eqb _ _); [|by rewrite andb_false_r].
    destruct (major a =? major b); [|done]. destruct (major b =? major a); [|by rewrite andb_false_r].
    destruct (Z.leb_spec (minor a) (minor b)); [|done].
    destruct (Z.leb_spec (minor b) (minor a)); [|done].
    cbn. apply Z.eqb_eq. lia.
Qed.

End Picker.

Lemma eqb_append_longer (s t : string) : String.eqb (s +:+ "." +:+ t) s = false.
Proof.
  induction s as [|c s IH]; [done|].
  change (String.eqb (String c (s +:+ "." +:+ t)) (String c s) = false).
  cbn [String.eqb]. by rewrite Ascii.eqb_refl.
Qed.

Lemma concat_nonempty sep a rest :
  a <> EmptyString -> (0 <? String.length (String.concat sep (a :: rest)))%nat = true.
Proof.
  destruct a as [|c a]; [done|]. intros _. by destruct rest.
Qed.

(** X5: a library that the constructor has built has a major version,
    in the sense of [hasMajorVersion], exactly when the ABI version
    resolved for it has a component; its real name is then the linker name,
    a dot and the ABI version, and otherwise the linker name, with version
    numbers as they were. *)
Theorem constructed_library_has_major_version_iff_abi :
  forall (unset : Z * Z * Z) (path linkerName : string) (abi : list string)
         (sl : SharedLibrary.SharedLibrary),
    newSharedLibrary unset path linkerName abi = Some sl ->
    SharedLibrary.hasMajorVersion sl = negb (bool_decide (abi = []))
    /\ SharedLibrary.getLinkerName sl = linkerName
    /\ SharedLibrary.getPath sl = path
    /\ SharedLibrary.getRealName sl =
         match abi with
         | [] => linkerName
         | _ => linkerName +:+ "." +:+ String.concat "." abi
         end
    /\ (abi = [] ->
        (SharedLibrary.major sl, SharedLibrary.minor sl, SharedLibrary.patch sl) = unset).
Proof.
  intros [[M m] p] path linkerName abi sl. unfold newSharedLibrary.
  destruct abi as [|a0 rest].
  - cbn. intros [= <-]. cbn. unfold SharedLibrary.hasMajorVersion. cbn.
    rewrite String.eqb_refl. done.
  - destruct (stoi a0) as [major|] eqn:H0; [|discriminate].
    assert (Ha0 : a0 <> EmptyString) by (intros ->; discriminate H0).
    rewrite (concat_nonempty "." a0 rest Ha0).
    cbn [mbind option_bind].
    destruct rest as [|a1 [|a2 rest]];
      try (destruct (stoi a1) as [minor|]; [|discriminate]);
      try (destruct (stoi a2) as [patch|]; [|discriminate]);
      cbn [mbind option_bind]; intros [= <-].
    all: unfold SharedLibrary.hasMajorVersion, SharedLibrary.getLinkerName,
      SharedLibrary.getPath, SharedLibrary.getRealName;
      cbn [SharedLibrary.realName SharedLibrary.linkerName SharedLibrary.path];
      rewrite eqb_append_longer; repeat split; done.
Qed.

Lemma constructed_library_has_major_version_iff_abi_witness :
  exists sl,
    newSharedLibrary (0, 0, 0) "/usr/lib/libmpi.so.12.1.8" "libmpi.so" ["12"; "1"; "8"]
    = Some sl
    /\ SharedLibrary.hasMajorVersion sl = true
    /\ SharedLibrary.getRealName sl = "libmpi.so.12.1.8".
Proof.
  eexists. split; [vm_compute; reflexivity|].
  match goal with
  | |- SharedLibrary.hasMajorVersion ?sl = _ /\ _ =>
      destruct (constructed_library_has_major_version_iff_abi (0, 0, 0)
                  "/usr/lib/libmpi.so.12.1.8" "libmpi.so" ["12"; "1"; "8"] sl)
        as (H1 & _ & _ & H4 & _); [vm_compute; reflexivity|]
  end.
  split; [exact H1|exact H4].
Defined.

(** ** common/CLIArguments *)

Module CLIArgumentsFacts.
Import CLIArguments.

Lemma c_str_idemp arg : c_str (c_str arg) = c_str arg.
Proof.
  induction arg as [|c rest IH]; [done|]. cbn.
  destruct (Ascii.eqb c NUL) eqn:Hc; [done|]. cbn. by rewrite Hc, IH.
Qed.

Lemma wrap_int_small z : INT_MIN <= z <= INT_MAX -> wrap_int z = z.
Proof.
  unfold wrap_int, INT_MIN, INT_MAX. intros H. rewrite Z.mod_small; lia.
Qed.

Lemma args_push_back arg self l :
  args self = (map Some l ++ [None])%list ->
  args (push_back arg self) = (map Some (l ++ [c_str arg]) ++ [None])%list.
Proof.
  intros H. unfold push_back. cbn. by rewrite H, removelast_last, map_app.
Qed.

Lemma push_back_each_strings l' : forall self l,
  args self = (map Some l ++ [None])%list ->
  exists self',
    push_back_each (map Some l') self = Some self'
    /\ args self' = (map Some (l ++ map c_str l') ++ [None])%list.
Proof.
  induction l' as [|arg l' IH]; intros self l H; cbn.
  - exists self. by rewrite app_nil_r.
  - destruct (IH (push_back arg self) _ (args_push_back arg self l H)) as (self' & Hrun & Hargs).
    exists self'. split; [done|]. by rewrite Hargs, <- app_assoc.
Qed.

Lemma push_back_each_null_terminated ptrs : forall self self',
  null_terminated self -> push_back_each ptrs self = Some self' -> null_terminated self'.
Proof.
  induction ptrs as [|[arg|] ptrs IH]; intros self self' Hself; cbn.
  - by intros [= <-].
  - apply IH. destruct Hself as (l & Hargs & Hl).
    exists (l ++ [c_str arg])%list. split; [by apply args_push_back|].
    apply Forall_app. split; [done|]. constructor; [apply c_str_idemp|done].
  - discriminate.
Qed.

Lemma null_terminated_new : null_terminated new.
Proof. by exists []. Qed.

Lemma map_c_str_id l : Forall (fun arg => c_str arg = arg) l -> map c_str l = l.
Proof. induction 1 as [|arg l Harg _ IH]; cbn; congruence. Qed.

Lemma from_list_args l : args (from_list l) = (map Some (map c_str l) ++ [None])%list.
Proof.
  unfold from_list.
  enough (H : forall self l0, args self = (map Some l0 ++ [None])%list ->
            args (foldl (fun self arg => push_back arg self) self l)
            = (map Some (l0 ++ map c_str l) ++ [None])%list)
    by exact (H new [] eq_refl).
  induction l as [|arg l IH]; intros self l0 H; cbn.
  - by rewrite app_nil_r.
  - rewrite (IH _ _ (args_push_back arg self l0 H)). by rewrite <- app_assoc.
Qed.

Lemma range_strings self l :
  args self = (map Some l ++ [None])%list -> range self = map Some l /\ strings self = l.
Proof.
  intros H. unfold strings, range. rewrite H, removelast_last. split; [done|].
  clear H. induction l as [|arg l IH]; cbn; [done|]. f_equal. exact IH.
Qed.

Lemma argc_strings self l :
  args self = (map Some l ++ [None])%list -> Z.of_nat (length l) <= INT_MAX ->
  argc self = Z.of_nat (length l).
Proof.
  intros H Hlen. unfold argc. rewrite H, length_app, length_map. cbn.
  rewrite wrap_int_small; unfold INT_MIN, INT_MAX in *; lia.
Qed.

Lemma eq_of_args (a b : CLIArguments) : args a = args b -> a = b.
Proof. destruct a, b. cbn. by intros ->. Qed.

Lemma copy_strings rhs l :
  args rhs = (map Some l ++ [None])%list -> Forall (fun arg => c_str arg = arg) l ->
  Z.of_nat (length l) <= INT_MAX ->
  copy rhs = Some rhs.
Proof.
  intros H Hl Hlen. unfold copy, argv.
  rewrite (argc_strings rhs l H Hlen), Nat2Z.id, H.
  rewrite <- (length_map Some l), take_app_length.
  destruct (push_back_each_strings l new [] eq_refl) as (self' & -> & Hargs).
  f_equal. apply eq_of_args. cbn in Hargs. by rewrite Hargs, H, map_c_str_id.
Qed.

Lemma strcmp_each_strings l : forall r rest,
  strcmp_each (map Some l) (map Some r ++ rest) =
  Some (bool_decide (l = take (length l) r)) \/ (length r < length l)%nat.
Proof.
  induction l as [|a l IH]; intros [|b r] rest; cbn.
  - left. done.
  - left. done.
  - right. lia.
  - destruct (IH r rest) as [H|H]; [|right; lia]. left.
    destruct (String.eqb_spec a b) as [->|Hne].
    + rewrite H. f_equal. apply bool_decide_ext. split; [intros H'; cbn; by f_equal | by intros [= ?]].
    + f_equal. symmetry. apply bool_decide_eq_false. by intros [= ? _].
Qed.

End CLIArgumentsFacts.

(** X6: the vector of a [CLIArguments] is always C strings followed by one
    null pointer, as [execvp] wants it: every constructor builds such a
    vector, and [push_back], [clear], [operator+] and the appending of any
    pointers keep it so. *)
Theorem cli_arguments_stay_null_terminated :
  CLIArguments.null_terminated CLIArguments.new
  /\ (forall strings, CLIArguments.null_terminated (CLIArguments.from_list strings))
  /\ (forall argc argv self,
        CLIArguments.from_argv argc argv = Some self -> CLIArguments.null_terminated self)
  /\ (forall rhs self,
        CLIArguments.copy rhs = Some self -> CLIArguments.null_terminated self)
  /\ (forall arg self,
        CLIArguments.null_terminated self ->
        CLIArguments.null_terminated (CLIArguments.push_back arg self))
  /\ (forall self, CLIArguments.null_terminated (CLIArguments.clear self))
  /\ (forall lhs rhs self,
        CLIArguments.operator_plus lhs rhs = Some self -> CLIArguments.null_terminated self).
Proof.
  pose proof CLIArgumentsFacts.null_terminated_new as Hnew.
  pose proof CLIArgumentsFacts.push_back_each_null_terminated as Heach.
  repeat split.
  - exact Hnew.
  - intros l. exists (map CLIArguments.c_str l).
    split; [apply CLIArgumentsFacts.from_list_args|].
    induction l as [|arg l IH]; constructor;
      [apply CLIArgumentsFacts.c_str_idemp | exact IH].
  - intros argc argv self. unfold CLIArguments.from_argv.
    destruct (_ <=? _)%nat; [|discriminate]. by apply Heach.
  - intros rhs self. by apply Heach.
  - intros arg self (l & Hargs & Hl). exists (l ++ [CLIArguments.c_str arg])%list.
    split; [by apply CLIArgumentsFacts.args_push_back|].
    apply Forall_app. split; [done|].
    constructor; [apply CLIArgumentsFacts.c_str_idemp|done].
  - intros self. exact Hnew.
  - intros lhs rhs self. unfold CLIArguments.operator_plus.
    destruct (CLIArguments.copy lhs) as [result|] eqn:Hcopy; [|discriminate]. cbn.
    apply Heach. by apply (Heach _ _ _ Hnew Hcopy).
Qed.

(** X7: the arguments of [lhs + rhs] are those of [lhs] followed by those
    of [rhs], and its [argc] is the sum of theirs, as long as the number of
    arguments fits an [int]; the initializer list gives its strings, each
    up to its first NUL character. *)
Theorem cli_arguments_concatenate :
  forall (lhs rhs : CLIArguments.CLIArguments),
    CLIArguments.null_terminated lhs ->
    CLIArguments.null_terminated rhs ->
    Z.of_nat (length (CLIArguments.strings lhs) + length (CLIArguments.strings rhs))
      <= INT_MAX ->
    exists result,
      CLIArguments.operator_plus lhs rhs = Some result
      /\ CLIArguments.strings result
         = (CLIArguments.strings lhs ++ CLIArguments.strings rhs)%list
      /\ CLIArguments.argc result = CLIArguments.argc lhs + CLIArguments.argc rhs
      /\ CLIArguments.null_terminated result
      /\ forall l, CLIArguments.strings (CLIArguments.from_list l)
                   = map CLIArguments.c_str l.
Proof.
  intros lhs rhs (l & Hl & Hln) (r & Hr & Hrn) Hlen.
  destruct (CLIArgumentsFacts.range_strings lhs l Hl) as [_ Hsl].
  destruct (CLIArgumentsFacts.range_strings rhs r Hr) as [Hrr Hsr].
  rewrite Hsl, Hsr in *. rewrite Nat2Z.inj_add in Hlen.
  unfold CLIArguments.operator_plus.
  rewrite (CLIArgumentsFacts.copy_strings lhs l Hl Hln) by lia. cbn. rewrite Hrr.
  destruct (CLIArgumentsFacts.push_back_each_strings r lhs l Hl) as (result & -> & Hres).
  rewrite (CLIArgumentsFacts.map_c_str_id r Hrn) in Hres.
  exists result. split; [done|].
  destruct (CLIArgumentsFacts.range_strings result _ Hres) as [_ ->].
  split; [done|]. split; [|split].
  - rewrite (CLIArgumentsFacts.argc_strings result _ Hres),
      (CLIArgumentsFacts.argc_strings lhs l Hl), (CLIArgumentsFacts.argc_strings rhs r Hr);
      rewrite ?length_app; lia.
  - exists (l ++ r)%list. split; [done|]. by apply Forall_app.
  - intros l0.
    by destruct (CLIArgumentsFacts.range_strings _ _ (CLIArgumentsFacts.from_list_args l0)).
Qed.

Lemma cli_arguments_concatenate_witness :
  exists result,
    CLIArguments.operator_plus (CLIArguments.from_list ["ls"; "-l"])
      (CLIArguments.from_list ["/tmp"]) = Some result
    /\ CLIArguments.strings result = ["ls"; "-l"; "/tmp"]
    /\ CLIArguments.argc result = 3.
Proof.
  destruct (cli_arguments_concatenate (CLIArguments.from_list ["ls"; "-l"])
              (CLIArguments.from_list ["/tmp"]))
    as (result & Hplus & Hstrings & Hargc & _).
  - exists ["ls"; "-l"]. split; [reflexivity|]. repeat constructor.
  - exists ["/tmp"]. split; [reflexivity|]. repeat constructor.
  - unfold INT_MAX. cbn. lia.
  - exists result. split; [exact Hplus|]. split; [exact Hstrings|exact Hargc].
Defined.

(** X8: [operator==] decides the equality of two argument vectors, and
    the copy constructor returns an equal one, as long as the number of
    arguments fits an [int]. *)
Theorem cli_arguments_equality :
  forall (lhs rhs : CLIArguments.CLIArguments),
    CLIArguments.null_terminated lhs ->
    CLIArguments.null_terminated rhs ->
    Z.of_nat (length (CLIArguments.strings lhs)) <= INT_MAX ->
    Z.of_nat (length (CLIArguments.strings rhs)) <= INT_MAX ->
    CLIArguments.operator_eq lhs rhs = Some (bool_decide (lhs = rhs))
    /\ CLIArguments.copy lhs = Some lhs.
Proof.
  intros lhs rhs (l & Hl & Hln) (r & Hr & Hrn) Hlen Hlen'.
  destruct (CLIArgumentsFacts.range_strings lhs l Hl) as [_ Hsl].
  destruct (CLIArgumentsFacts.range_strings rhs r Hr) as [_ Hsr].
  rewrite Hsl in Hlen. rewrite Hsr in Hlen'.
  split; [|by apply (CLIArgumentsFacts.copy_strings lhs l)].
  unfold CLIArguments.operator_eq, CLIArguments.argv.
  rewrite (CLIArgumentsFacts.argc_strings lhs l Hl Hlen),
    (CLIArgumentsFacts.argc_strings rhs r Hr Hlen').
  destruct (Z.eqb_spec (Z.of_nat (length l)) (Z.of_nat (length r))) as [Heq|Hne]; cbn.
  - apply Nat2Z.inj in Heq. rewrite Nat2Z.id, Hl, Hr.
    rewrite <- (length_map Some l), take_app_length.
    destruct (CLIArgumentsFacts.strcmp_each_strings l r [None]) as [->|Hlt]; [|lia].
    f_equal. rewrite Heq, firstn_all. apply bool_decide_ext. split.
    + intros ->. apply CLIArgumentsFacts.eq_of_args. by rewrite Hl, Hr.
    + intros ->. rewrite Hl in Hr. apply app_inv_tail in Hr.
      revert Hr. clear. revert r. induction l as [|a l IH]; intros [|b r]; cbn; try done.
      intros [= -> H]. f_equal. auto.
  - f_equal. symmetry. apply bool_decide_eq_false. intros ->.
    rewrite Hl in Hr. apply (f_equal length) in Hr.
    rewrite !length_app, !length_map in Hr. cbn in Hr. lia.
Qed.

Lemma cli_arguments_equality_witness :
  CLIArguments.operator_eq (CLIArguments.from_list ["ls"; "-l"])
    (CLIArguments.from_list ["ls"; "-a"]) = Some false
  /\ CLIArguments.copy (CLIArguments.from_list ["ls"; "-l"])
     = Some (CLIArguments.from_list ["ls"; "-l"]).
Proof.
  destruct (cli_arguments_equality (CLIArguments.from_list ["ls"; "-l"])
              (CLIArguments.from_list ["ls"; "-a"])) as [Heq Hcopy].
  - exists ["ls"; "-l"]. split; [reflexivity|]. repeat constructor.
  - exists ["ls"; "-a"]. split; [reflexivity|]. repeat constructor.
  - unfold INT_MAX. cbn. lia.
  - unfold INT_MAX. cbn. lia.
  - split; [|exact Hcopy]. rewrite Heq. reflexivity.
Defined.

(** X9: [operator=] makes [*this] hold the arguments of another object
    and leaves that object as it was; assigning an object to itself leaves
    it with no argument, since it is cleared before it is read. *)
Theorem cli_arguments_assignment :
  forall (this rhs : nat) (heap : CLIArguments.Heap) (self r : CLIArguments.CLIArguments),
    heap !! this = Some self ->
    heap !! rhs = Some r ->
    CLIArguments.null_terminated r ->
    CLIArguments.operator_assign this rhs heap =
      Some (<[this := if bool_decide (this = rhs) then CLIArguments.new else r]> heap).
Proof.
  intros this rhs heap self r Hself Hr (l & Hl & Hln).
  unfold CLIArguments.operator_assign. rewrite Hself. cbn.
  destruct (decide (this = rhs)) as [<-|Hne].
  - rewrite lookup_insert_eq. cbn. rewrite bool_decide_eq_true_2 by done.
    by rewrite insert_insert_eq.
  - rewrite lookup_insert_ne, Hr by done. cbn.
    rewrite bool_decide_eq_false_2 by done.
    destruct (CLIArgumentsFacts.range_strings r l Hl) as [-> _].
    destruct (CLIArgumentsFacts.push_back_each_strings l CLIArguments.new [] eq_refl)
      as (self' & Hrun & Hargs).
    change (CLIArguments.clear self) with CLIArguments.new.
    rewrite Hrun. cbn. rewrite insert_insert_eq.
    do 2 f_equal. apply CLIArgumentsFacts.eq_of_args.
    cbn in Hargs. by rewrite Hargs, Hl, CLIArgumentsFacts.map_c_str_id.
Qed.

Lemma cli_arguments_assignment_witness :
  let a := CLIArguments.from_list ["ls"; "-l"] in
  let b := CLIArguments.from_list ["true"] in
  let heap : CLIArguments.Heap := {[ 1%nat := a; 2%nat := b ]} in
  CLIArguments.operator_assign 2 1 heap = Some {[ 1%nat := a; 2%nat := a ]}
  /\ CLIArguments.operator_assign 1 1 heap
     = Some {[ 1%nat := CLIArguments.new; 2%nat := b ]}.
Proof.
  intros a b heap. split.
  - rewrite (cli_arguments_assignment 2 1 heap b a); [| reflexivity | reflexivity |].
    + reflexivity.
    + exists ["ls"; "-l"]. split; [reflexivity|]. repeat constructor.
  - rewrite (cli_arguments_assignment 1 1 heap a a); [| reflexivity | reflexivity |].
    + reflexivity.
    + exists ["ls"; "-l"]. split; [reflexivity|]. repeat constructor.
Defined.

(** X10: [a += b] for another object [b] appends the arguments of [b] to
    those of [a] and leaves [b] as it was; [a += a] changes nothing when
    [a] has no argument, and is undefined when it has one, since the
    vector changes under the loop that reads it. *)
Theorem cli_arguments_append_in_place :
  forall (this rhs : nat) (heap : CLIArguments.Heap) (self r : CLIArguments.CLIArguments),
    heap !! this = Some self ->
    heap !! rhs = Some r ->
    CLIArguments.null_terminated self ->
    CLIArguments.null_terminated r ->
    if bool_decide (this = rhs)
    then CLIArguments.operator_plus_assign this rhs heap =
           (if bool_decide (CLIArguments.strings self = []) then Some heap else None)
    else exists result,
           CLIArguments.operator_plus_assign this rhs heap = Some (<[this := result]> heap)
           /\ CLIArguments.strings result
              = (CLIArguments.strings self ++ CLIArguments.strings r)%list
           /\ CLIArguments.null_terminated result.
Proof.
  intros this rhs heap self r Hself Hr (l & Hl & Hln) (l' & Hl' & Hln').
  unfold CLIArguments.operator_plus_assign. rewrite Hself, Hr. cbn [mbind option_bind].
  destruct (CLIArgumentsFacts.range_strings self l Hl) as [Hrange Hstrings].
  destruct (CLIArgumentsFacts.range_strings r l' Hl') as [Hrange' Hstrings'].
  unfold CLIArguments.empty. rewrite Hrange', Hstrings, Hstrings'.
  destruct (decide (this = rhs)) as [<-|Hne].
  - rewrite !bool_decide_eq_true_2 by done. cbn [andb].
    assert (r = self) as -> by congruence.
    assert (l' = l) as ->.
    { rewrite Hl in Hl'. apply app_inv_tail in Hl'.
      revert Hl'. clear. revert l'. induction l as [|a l IH]; intros [|b l']; cbn; try done.
      intros [= -> H]. f_equal. auto. }
    destruct l as [|arg l]; cbn [map negb bool_decide decide_rel].
    + rewrite !bool_decide_eq_true_2 by done. cbn. by rewrite insert_id.
    + rewrite !bool_decide_eq_false_2 by done. reflexivity.
  - rewrite !(bool_decide_eq_false_2 (this = rhs)) by done. cbn [andb].
    destruct (CLIArgumentsFacts.push_back_each_strings l' self l Hl) as (result & -> & Hres).
    rewrite (CLIArgumentsFacts.map_c_str_id l' Hln') in Hres.
    exists result. split; [done|].
    destruct (CLIArgumentsFacts.range_strings result _ Hres) as [_ ->].
    split; [done|]. exists (l ++ l')%list. split; [done|]. by apply Forall_app.
Qed.

Lemma cli_arguments_append_in_place_witness :
  let a := CLIArguments.from_list ["ls"; "-l"] in
  let b := CLIArguments.from_list ["/tmp"] in
  let heap : CLIArguments.Heap := {[ 1%nat := a; 2%nat := b ]} in
  (exists result,
      CLIArguments.operator_plus_assign 1 2 heap = Some (<[1%nat := result]> heap)
      /\ CLIArguments.strings result = ["ls"; "-l"; "/tmp"])
  /\ CLIArguments.operator_plus_assign 1 1 heap = None.
Proof.
  intros a b heap.
  assert (Ha : CLIArguments.null_terminated a).
  { exists ["ls"; "-l"]. split; [reflexivity|]. repeat constructor. }
  assert (Hb : CLIArguments.null_terminated b).
  { exists ["/tmp"]. split; [reflexivity|]. repeat constructor. }
  split.
  - destruct (cli_arguments_append_in_place 1 2 heap a b eq_refl eq_refl Ha Hb)
      as (result & Hrun & Hstrings & _).
    exists result. split; [exact Hrun|exact Hstrings].
  - exact (cli_arguments_append_in_place 1 1 heap a a eq_refl eq_refl Ha Ha).
Defined.

Lemma print_each_strings l : forall isFirstArg,
  CLIArguments.print_each isFirstArg (map Some l) =
  Some ((if isFirstArg || bool_decide (l = []) then EmptyString else ", ")
        +:+ String.concat ", " (map (fun arg => dquote +:+ arg +:+ dquote) l)).
Proof.
  induction l as [|arg l IH]; intros isFirstArg; cbn [map CLIArguments.print_each].
  - by rewrite orb_true_r.
  - rewrite IH. cbn [mbind option_bind orb]. rewrite orb_false_r. f_equal.
    destruct l as [|arg' l]; cbn [map String.concat bool_decide decide_rel].
    + destruct isFirstArg; cbn; by rewrite ?append_empty.
    + rewrite bool_decide_eq_false_2 by done.
      rewrite !append_assoc. destruct isFirstArg; reflexivity.
Qed.

(** X11: [operator<<] writes the arguments between brackets, each between
    double quotes and as it is, with a comma and a space between two of
    them; no argument gives [[]]. *)
Theorem cli_arguments_are_printed_as_a_list :
  forall self : CLIArguments.CLIArguments,
    CLIArguments.null_terminated self ->
    CLIArguments.operator_shl self =
      Some ("[" +:+ String.concat ", "
                      (map (fun arg => dquote +:+ arg +:+ dquote) (CLIArguments.strings self))
            +:+ "]").
Proof.
  intros self (l & Hl & _).
  destruct (CLIArgumentsFacts.range_strings self l Hl) as [Hrange ->].
  unfold CLIArguments.operator_shl. rewrite Hrange, print_each_strings.
  reflexivity.
Qed.

Lemma cli_arguments_are_printed_as_a_list_witness :
  CLIArguments.operator_shl (CLIArguments.from_list ["ls"; "-l"])
  = Some ("[" +:+ dquote +:+ "ls" +:+ dquote +:+ ", " +:+ dquote +:+ "-l" +:+ dquote +:+ "]")
  /\ CLIArguments.operator_shl CLIArguments.new = Some "[]".
Proof.
  split.
  - rewrite cli_arguments_are_printed_as_a_list; [reflexivity|].
    exists ["ls"; "-l"]. split; [reflexivity|]. repeat constructor.
  - rewrite cli_arguments_are_printed_as_a_list; [reflexivity|].
    exists []. split; [reflexivity|]. constructor.
Defined.

(** ** start-ssh-daemon *)



Lemma is_absolute_append p q :
  is_absolute p = true -> is_absolute (p // q) = true.
Proof.
  destruct p as [|c p]; [discriminate|]. intros H.
  unfold path_append. destruct q as [|d q]; [done|].
  destruct (starts_with_separator _); [exact H|].
  destruct (ends_with_separator _); exact H.
Qed.




(** X15: [setupSshKeysDirInContainer] makes its calls in one order and stops
    at the first that fails: the switch to the identity of the user with no
    supplementary group, the folder for the keys, the switch back to the
    identity of the hook's process, the three folders of the overlay under
    the bundle directory (the upper one owned by the user), and the mount of
    the overlay on the folder for the keys. It returns exactly when all
    seven succeeded. A failure to create the folder for the keys leaves the
    process with the identity of the user. *)
Theorem setup_of_keys_dir_stops_at_first_failure :
  forall (P : Platform) (s : State),
    let o := setupSshKeysDirInContainer P s in
    exists n : nat,
      trace (final_state o) = (trace s ++ take n (setupCalls P (this s)))%list
      /\ this (final_state o) = this s
      /\ match o with
         | Return _ _ => n = 7%nat
         | Throw e _ =>
             (1 <= n <= 7)%nat
             /\ Some e = CollaboratorFailed <$> last (take n (setupCalls P (this s)))
         | Exit _ _ => False
         end.
Proof.
  intros P [h fs0 tr]. unfold setupSshKeysDirInContainer, setupCalls.
  cbv beta iota zeta delta [call get_this mbind M_bind mret M_ret this fs trace final_state].
  repeat match goal with
    | |- context [match perform P ?e ?f with _ => _ end] =>
        destruct (perform P e f)
    end.
  all: cbv beta iota zeta delta [call get_this mbind M_bind mret M_ret this fs trace final_state].
  8: exists 1%nat. 7: exists 2%nat. 6: exists 3%nat. 5: exists 4%nat.
  4: exists 5%nat. 3: exists 6%nat. 2: exists 7%nat. 1: exists 7%nat.
  all: cbn [take last fmap option_fmap option_map]; rewrite <- ?app_assoc; cbn [app].
  all: repeat split; try reflexivity; try lia.
Qed.

Lemma keys_land_on_skip ks overlay evs rest :
  forallb (of_kinds ks) evs = true ->
  bool_decide (K_copyFile ∈ ks) = false ->
  bool_decide (K_mountOverlayfs ∈ ks) = false ->
  keys_land_on overlay (evs ++ rest) = keys_land_on overlay rest.
Proof.
  intros Hk Hc%bool_decide_eq_false Hm%bool_decide_eq_false.
  induction evs as [|e evs IH]; [done|].
  cbn in Hk. apply andb_prop in Hk as [He Hk].
  unfold of_kinds in He. apply bool_decide_eq_true in He.
  cbn [app]. destruct e; cbn [keys_land_on]; try (by apply IH); cbn in He; contradiction.
Qed.

Ltac keys_land_auto :=
  rewrite <- ?app_assoc; cbn [app];
  repeat first
    [ reflexivity
    | match goal with
      | Hk : forallb (of_kinds ?ks) ?evs = true |- context [keys_land_on _ (?evs ++ _)] =>
          rewrite (keys_land_on_skip ks _ evs _ Hk eq_refl eq_refl)
      | Hk : forallb (of_kinds ?ks) ?evs = true |- keys_land_on ?o ?evs = true =>
          rewrite <- (app_nil_r evs), (keys_land_on_skip ks o evs [] Hk eq_refl eq_refl)
      end
    | progress cbn [keys_land_on existsb expectedKeyFiles]
    | rewrite String.eqb_refl
    | rewrite orb_true_r
    | progress cbn [orb andb] ].

(** X16: in every run of start-ssh-daemon, the key files are copied onto
    the overlay: every copy that names an owner comes after the overlay
    has been mounted, and its destination is one of the three key files
    directly in the folder on which the overlay was mounted
    ([keys_land_on]). *)
Theorem keys_are_copied_after_the_overlay_is_mounted :
  forall (P : Platform) (fs0 : FS),
    keys_land_on None (trace (final_state (startSshDaemon P (initially fs0)))) = true.
Proof.
  intros P fs0.
  run_paths P fs0.
  all: keys_land_auto.
Qed.

Lemma interpreterFound_patchEntry (fs : FS) rootfs e :
  patchEntry (interpreterFound fs rootfs (patchEntry (interpreterFound fs rootfs e) e))
    (patchEntry (interpreterFound fs rootfs e) e)
  = patchEntry (interpreterFound fs rootfs e) e.
Proof.
  destruct e as [name password uid gid gecos home [i|]]; [|reflexivity].
  cbv beta iota delta [interpreterFound patchEntry userCommandInterpreter negb
    entryUsername entryPassword entryUid entryGid entryGecos entryHome].
  destruct (exists_ fs (rootfs // i)) eqn:Hfound; cbv beta iota.
  - by rewrite Hfound.
  - by destruct (exists_ fs (rootfs // "/bin/sh")).
Qed.


(** X18: when [/bin/sh] exists under the root file system, every
    interpreter that the patched entries name exists under the root file
    system; the code does not look whether [/bin/sh] itself exists. *)
Theorem patched_entries_name_existing_interpreters :
  forall (rootfs : string) (entries : PasswdDB) (s : State),
    exists_ (fs s) (rootfs // "/bin/sh") = true ->
    exists patched s',
      patchEntries rootfs entries s = Return patched s'
      /\ forall entry interpreter,
           entry ∈ patched -> userCommandInterpreter entry = Some interpreter ->
           exists_ (fs s) (rootfs // interpreter) = true.
Proof.
  intros rootfs entries s Hsh.
  destruct (patchEntries_result rootfs entries s) as [evs ->].
  eexists _, _. split; [reflexivity|].
  intros entry i Hin Hi. apply list_elem_of_In, in_map_iff in Hin as (e & <- & _).
  unfold patchEntry, interpreterFound in Hi.
  destruct (userCommandInterpreter e) as [i0|] eqn:Hi0; [|congruence].
  destruct (exists_ (fs s) (rootfs // i0)) eqn:Hfound; cbn in Hi.
  - congruence.
  - by injection Hi as <-.
Qed.

Lemma patched_entries_name_existing_interpreters_witness :
  let entries :=
    [ mkEntry "root" "x" 0 0 "root" "/root" (Some "/bin/sh");
      mkEntry "alice" "x" 1000 1000 EmptyString "/home/alice" (Some "/bin/bash") ] in
  exists patched s',
    patchEntries "/bundle/rootfs" entries (mkState sampleHook Sample.files [])
    = Return patched s'
    /\ forall entry interpreter,
         entry ∈ patched -> userCommandInterpreter entry = Some interpreter ->
         exists_ Sample.files ("/bundle/rootfs" // interpreter) = true.
Proof.
  intros entries.
  apply (patched_entries_name_existing_interpreters "/bundle/rootfs" entries
           (mkState sampleHook Sample.files [])).
  vm_compute. reflexivity.
Defined.


(** X20: start-ssh-daemon launches at most one program, and returns only
    when it has launched one and the launch reported status zero. The
    command line is [/opt/oci-hooks/dropbear/bin/dropbear -E -r
    <keys>/dropbear_ecdsa_host_key -p <port>], where the port is the number
    read from SERVER_PORT, and [<keys>] is [/] joined with what
    [boost::filesystem::relative] answers for the folder of the keys in the
    container, [<rootfs>/<home>/.ssh], relative to the root file system. *)
Theorem dropbear_is_launched_once_on_the_port :
  forall (P : Platform) (fs0 : FS),
    let o := startSshDaemon P (initially fs0) in
    let h := this (final_state o) in
    match launches (trace (final_state o)) with
    | [] => returns o = false
    | [(argv, _, status)] =>
        (exists text home fs1,
            environ P "SERVER_PORT" = Some text
            /\ stoi text = Some (serverPort h)
            /\ sshKeysDirInContainer h = rootfsDir h // home // ".ssh"
            /\ argv = [ "/opt/oci-hooks/dropbear/bin/dropbear"; "-E";
                        "-r"; ("/" // relativeTo P (sshKeysDirInContainer h) (rootfsDir h) fs1)
                              +:+ "/dropbear_ecdsa_host_key";
                        "-p"; to_string (serverPort h) ])
        /\ (returns o = true -> status = Some 0)
    | _ => False
    end.
Proof.
  intros P fs0 o h. subst h o.
  run_paths P fs0.
  all: launches_auto.
  all: try reflexivity.
  all: repeat match goal with H : (_ =? 0) = true |- _ => apply Z.eqb_eq in H; subst end.
  all: (split; [|first [discriminate | done]]).
  all: cbn [serverPort sshKeysDirInContainer rootfsDir].
  all: eexists _, _, _; split; [reflexivity|]; split; [eassumption|].
  all: split; reflexivity.
Qed.





Ltac spec_of_files m :=
  lazymatch m with
  | getUsername ?P ?u => constr:(emits_getUsername P (@id SshHook) u)
  | getSshKeysDirInHost ?P ?n => constr:(emits_getSshKeysDirInHost P (@id SshHook) n)
  | setupSshKeysDirInContainer ?P => constr:(emits_setupSshKeysDirInContainer P (@id SshHook))
  | patchPasswdIfNecessary ?P => constr:(emits_patchPasswdIfNecessary P (@id SshHook))
  | createEnvironmentFile ?P => constr:(emits_createEnvironmentFile P (@id SshHook))
  | createEtcProfileModule ?P => constr:(emits_createEtcProfileModule P (@id SshHook))
  end.

Ltac red_run_copies :=
  cbv beta iota zeta delta
    [startSshDaemon parseConfigJSONOfBundle member getSshKeysDirInContainer
     copyDropbearIntoContainer copySshKeysIntoContainer startSshDaemonInContainer
     do_forkExecWait createSshExecutableInContainer open_PasswdDB getenv call or_throw
     write_file permissions do_remove_all
     emit get_this get_fs set_this set_fs throw exit mbind M_bind mret M_ret
     option_bind this fs trace final_state initially returns exit_status
     newSshHook set_uidOfUser set_gidOfUser set_username set_sshKeysDirInHost
     set_sshKeysDirInContainer set_dropbearDirInHost set_dropbearRelativeDirInContainer
     set_dropbearDirInContainer set_bundleDir set_rootfsDir set_pidOfContainer
     set_serverPort uidOfUser gidOfUser username sshKeysDirInHost sshKeysDirInContainer
     dropbearDirInHost dropbearRelativeDirInContainer dropbearDirInContainer bundleDir
     rootfsDir pidOfContainer serverPort].

Ltac run_step_copies :=
  match goal with
  | |- context [match ?m ?s with Return _ _ => _ | Throw _ _ => _ | Exit _ _ => _ end] =>
      let lem := spec_of_files m in
      let evs := fresh "evs" in
      let Ht := fresh "Ht" in let Hk := fresh "Hk" in let Hg := fresh "Hg" in
      let h := fresh "h" in let fs' := fresh "fs" in let tr := fresh "tr" in
      destruct (lem s) as (evs & Ht & Hk & Hg);
      destruct (m s) as [? [h fs' tr]|? [h fs' tr]|? [h fs' tr]];
      cbn [final_state trace this id] in Ht, Hg; subst tr;
      try (subst h)
  | |- context [match ?x with _ => _ end] =>
      lazymatch x with
      | context [match _ with _ => _ end] => fail
      | _ =>
          let H := fresh "Heq" in
          destruct x eqn:H;
          try (lazymatch type of H with
               | Z.eqb EXIT_FAILURE 0 = _ => vm_compute in H; discriminate H
               end)
      end
  end; red_run_copies.

Lemma forallb_skip ks (q : Event -> bool) evs :
  forallb (of_kinds ks) evs = true ->
  (forall e, of_kinds ks e = true -> q e = true) ->
  forallb q evs = true.
Proof.
  intros Hk Hq. induction evs as [|e evs IH]; [done|].
  cbn in Hk. apply andb_prop in Hk as [He Hk]. cbn. rewrite (Hq e He). auto.
Qed.

Lemma copy_is_owned_by_self uid gid src dst :
  copy_is_owned_by (uid, gid) (copyFile src dst (Some (uid, gid))) = true.
Proof. cbn. by rewrite !Z.eqb_refl. Qed.

Ltac owned_auto :=
  rewrite ?forallb_app; cbn [forallb];
  rewrite ?copy_is_owned_by_self;
  repeat match goal with
    | Hk : forallb (of_kinds ?ks) ?evs = true |- context [forallb ?q ?evs] =>
        rewrite (forallb_skip ks q evs Hk) by by_kind
    end;
  reflexivity.

(** X28: in a run of start-ssh-daemon that returns, the user for whom the
    hook has worked is the one of config.json: the uid and gid of the hook
    are those of [process.user], every copy that names an owner names this
    uid and gid, and the daemon was launched, with status zero, after the
    pre-exec actions of the hook for this uid and gid. *)
Theorem daemon_and_keys_belong_to_the_user_of_config_json :
  forall (P : Platform) (fs0 : FS),
    let o := startSshDaemon P (initially fs0) in
    let h := this (final_state o) in
    returns o = true ->
    exists fs1 json uid gid argv,
      jsonOf P (bundleDir h // "config.json") fs1 = Some json
      /\ process_user_uid json = Some uid
      /\ process_user_gid json = Some gid
      /\ uidOfUser h = uid_t uid /\ gidOfUser h = uid_t gid
      /\ forallb (copy_is_owned_by (uid_t uid, uid_t gid)) (trace (final_state o)) = true
      /\ In (forkExecWait argv
               (calls (preExecActions P h (mkChild (procAtFork P) [])).2) (Some 0))
           (trace (final_state o)).
Proof.
  intros P fs0. red_run_copies. repeat run_step_copies.
  all: try discriminate.
  all: intros _.
  all: repeat match goal with H : (_ =? 0) = true |- _ => apply Z.eqb_eq in H; subst end.
  all: eexists _, _, _, _, _.
  all: split; [eassumption|]; split; [eassumption|]; split; [eassumption|].
  all: split; [reflexivity|]; split; [reflexivity|].
  all: split; [owned_auto|].
  all: match goal with
       | H : preExecActions _ _ _ = _ |- _ => rewrite H
       end.
  all: rewrite !in_app_iff; cbn [In snd]; left; left; left; right; left; reflexivity.
Qed.

Lemma daemon_and_keys_belong_to_the_user_of_config_json_witness :
  let P := Sample.platform 0 0 Sample.publicKeyText in
  let o := startSshDaemon P (initially Sample.files) in
  let h := this (final_state o) in
  exists fs1 json uid gid argv,
    jsonOf P (bundleDir h // "config.json") fs1 = Some json
    /\ process_user_uid json = Some uid
    /\ process_user_gid json = Some gid
    /\ uidOfUser h = uid_t uid /\ gidOfUser h = uid_t gid
    /\ forallb (copy_is_owned_by (uid_t uid, uid_t gid)) (trace (final_state o)) = true
    /\ In (forkExecWait argv
             (calls (preExecActions P h (mkChild (procAtFork P) [])).2) (Some 0))
         (trace (final_state o)).
Proof.
  intros P o h.
  apply (daemon_and_keys_belong_to_the_user_of_config_json P Sample.files).
  vm_compute. reflexivity.
Defined.

(** ** user-has-ssh-keys and generate-ssh-keys *)

Lemma allExistIn_outcome dir files s :
  exists evs,
    allExistIn dir files s =
    Return (forallb (fun file => exists_ (fs s) (dir // file)) files)
      (mkState (this s) (fs s) (trace s ++ evs))
    /\ forallb (of_kinds [K_filesystem_exists]) evs = true.
Proof.
  revert s. induction files as [|file files IH]; intros [h fs0 tr]; cbn [allExistIn forallb].
  - exists []. by rewrite app_nil_r.
  - cbv beta iota zeta delta [exists_file emit get_fs mbind M_bind mret M_ret this fs trace].
    destruct (exists_ fs0 (dir // file)).
    + destruct (IH (mkState h fs0 (tr ++ [filesystem_exists (dir // file)])))
        as (evs & -> & Hk).
      exists (filesystem_exists (dir // file) :: evs). cbn [this fs trace andb].
      split; [by rewrite <- app_assoc|]. cbn. exact Hk.
    + by exists [filesystem_exists (dir // file)].
Qed.

Lemma looks_up_getUsername P uid : looks_up (getUsername P uid).
Proof.
  intros [h fs0 tr]. unfold getUsername, getenv, open_PasswdDB, or_throw.
  cbv beta iota zeta delta [emit get_this get_fs set_this set_fs throw mbind M_bind
    mret M_ret this fs trace final_state option_bind].
  repeat match goal with
    | |- context [match ?x with _ => _ end] =>
        lazymatch x with
        | context [match _ with _ => _ end] => fail
        | _ => destruct x
        end
    end.
  all: cbv beta iota zeta delta [emit get_this get_fs set_this set_fs throw mbind M_bind
    mret M_ret this fs trace final_state option_bind].
  all: rewrite <- ?app_assoc; eexists; split; [reflexivity|]; split; [reflexivity|exact I].
Qed.

Lemma looks_up_getSshKeysDirInHost P name : looks_up (getSshKeysDirInHost P name).
Proof.
  intros [h fs0 tr]. unfold getSshKeysDirInHost, getenv, or_throw.
  cbv beta iota zeta delta [emit get_this get_fs set_this set_fs throw mbind M_bind
    mret M_ret this fs trace final_state option_bind].
  destruct (environ P "HOOK_BASE_DIR").
  all: eexists; split; [reflexivity|]; split; [reflexivity|exact I].
Qed.

(** X23: user-has-ssh-keys changes no file. It returns when the three key
    files exist in the key store of the user, and calls
    [exit(EXIT_FAILURE)] when one of them does not; it fails with an
    exception only when the lookup of the user name or of the directory
    fails. *)
Theorem check_of_keys_reports_a_missing_file :
  forall (P : Platform) (fs0 : FS),
    let o := checkUserHasSshKeys P (initially fs0) in
    let dir := sshKeysDirInHost (this (final_state o)) in
    let all_there := forallb (fun file => exists_ fs0 (dir // file)) expectedKeyFiles in
    fs (final_state o) = fs0
    /\ match o with
       | Return _ _ => all_there = true
       | Exit status _ => status = EXIT_FAILURE /\ all_there = false
       | Throw e _ =>
           forallb (of_kinds [K_getEnvironmentVariable; K_PasswdDB_read; K_PasswdDB_getUsername])
             (trace (final_state o)) = true
       end.
Proof.
  intros P fs0. unfold checkUserHasSshKeys, userHasSshKeys.
  cbv beta iota zeta delta [emit get_this get_fs set_this set_fs throw exit mbind M_bind
    mret M_ret this fs trace final_state initially].
  match goal with
  | |- context [getUsername P ?u ?s] =>
      destruct (looks_up_getUsername P u s) as (evs1 & H1 & Hk1 & Hx1);
      destruct (getUsername P u s) as [name s1|e s1|st s1]; cbn [final_state] in H1; subst s1;
      [|by split|done]
  end.
  cbv beta iota zeta delta [emit get_this get_fs set_this set_fs throw exit mbind M_bind
    mret M_ret this fs trace final_state initially].
  match goal with
  | |- context [getSshKeysDirInHost P ?u ?s] =>
      destruct (looks_up_getSshKeysDirInHost P u s) as (evs2 & H2 & Hk2 & Hx2);
      destruct (getSshKeysDirInHost P u s) as [dir s2|e s2|st s2]; cbn [final_state] in H2; subst s2;
      [|split; [done|]|done]
  end.
  2: { cbn [final_state trace app]. rewrite forallb_app, Hk1, Hk2. done. }
  cbv beta iota zeta delta [emit get_this get_fs set_this set_fs throw exit mbind M_bind
    mret M_ret this fs trace final_state initially].
  match goal with
  | |- context [allExistIn ?d ?l ?s] =>
      destruct (allExistIn_outcome d l s) as (evs3 & -> & Hk3)
  end.
  cbn [this fs trace sshKeysDirInHost set_sshKeysDirInHost].
  destruct (forallb (fun file => exists_ fs0 (dir // file)) expectedKeyFiles) eqn:Hall;
    cbn [final_state this fs sshKeysDirInHost set_sshKeysDirInHost]; rewrite Hall; done.
Qed.

Lemma forallb_expectedKeyFiles (f : string -> bool) :
  (forall file, file ∈ expectedKeyFiles -> f file = true) ->
  forallb f expectedKeyFiles = true.
Proof.
  intros H. apply forallb_forall. intros file Hin. apply H. by apply list_elem_of_In.
Qed.

Ltac red_keys :=
  cbv beta iota zeta delta
    [generateSshKeys with_Lockfile release userHasSshKeys getenv call or_throw
     emit get_this get_fs set_this set_fs throw exit mbind M_bind mret M_ret
     this fs trace final_state initially].

(** X24: without [--overwrite], generate-ssh-keys leaves existing keys
    alone: when the three key files exist in the key store of the user, and
    the creation of folders and the lock file leave them as they are, then
    nothing is removed, no key generator is run and no file is written, and
    the three files are at the end what they were. *)
Theorem existing_keys_are_kept_without_overwrite :
  forall (P : Platform) (fs0 : FS),
    let o := generateSshKeys P false (initially fs0) in
    let dir := sshKeysDirInHost (this (final_state o)) in
    (forall e fs fs' file,
        file ∈ expectedKeyFiles -> perform P e fs = Some fs' ->
        fs' !! (dir // file) = fs !! (dir // file)) ->
    (forall file, file ∈ expectedKeyFiles -> is_Some (fs0 !! (dir // file))) ->
    existsb (of_kinds [K_filesystem_remove_all; K_executeCommand; K_ofstream])
      (trace (final_state o)) = false
    /\ forall file, file ∈ expectedKeyFiles ->
         fs (final_state o) !! (dir // file) = fs0 !! (dir // file).
Proof.
  intros P fs0. red_keys.
  match goal with
  | |- context [getUsername P ?u ?s] =>
      destruct (looks_up_getUsername P u s) as (evs1 & H1 & Hk1 & Hx1);
      destruct (getUsername P u s) as [name s1|e s1|st s1]; cbn [final_state] in H1; subst s1;
      [|red_keys|done]
  end.
  2: { intros _ _. split; [existsb_auto|done]. }
  red_keys.
  match goal with
  | |- context [getSshKeysDirInHost P ?u ?s] =>
      destruct (looks_up_getSshKeysDirInHost P u s) as (evs2 & H2 & Hk2 & Hx2);
      destruct (getSshKeysDirInHost P u s) as [dir s2|e s2|st s2]; cbn [final_state] in H2; subst s2;
      [|red_keys|done]
  end.
  2: { intros _ _. split; [existsb_auto|done]. }
  red_keys.
  destruct (environ P "DROPBEAR_DIR") as [dropbearDir|]; red_keys.
  2: { intros _ _. split; [existsb_auto|done]. }
  cbn [sshKeysDirInHost set_dropbearDirInHost set_sshKeysDirInHost].
  destruct (perform P (createFoldersIfNecessary dir None) fs0) as [fs1|] eqn:Hp1; red_keys.
  2: { intros _ _. split; [existsb_auto|done]. }
  destruct (perform P (Lockfile_acquire dir) fs1) as [fs2|] eqn:Hp2; red_keys.
  2: { cbn [sshKeysDirInHost set_dropbearDirInHost set_sshKeysDirInHost].
       intros Hkeep _. split; [existsb_auto|].
       intros file Hfile. exact (Hkeep _ _ _ _ Hfile Hp1). }
  match goal with
  | |- context [allExistIn ?d ?l ?s] =>
      destruct (allExistIn_outcome d l s) as (evs3 & -> & Hk3)
  end.
  cbn [this fs trace sshKeysDirInHost set_dropbearDirInHost set_sshKeysDirInHost].
  destruct (forallb (fun file => exists_ fs2 (dir // file)) expectedKeyFiles) eqn:Hall;
    cbn [andb negb final_state this fs trace sshKeysDirInHost set_dropbearDirInHost
         set_sshKeysDirInHost mret M_ret].
  - intros Hkeep _. split; [existsb_auto|].
    intros file Hfile.
    transitivity (fs2 !! (dir // file)).
    + destruct (perform P (Lockfile_release dir) fs2) as [fs3|] eqn:Hp3; cbn [default];
        [exact (Hkeep _ _ _ _ Hfile Hp3)|done].
    + rewrite (Hkeep _ _ _ _ Hfile Hp2). exact (Hkeep _ _ _ _ Hfile Hp1).
  - intros Hkeep Hthere. exfalso.
    enough (Hdir : forall file, file ∈ expectedKeyFiles -> exists_ fs2 (dir // file) = true).
    { rewrite (forallb_expectedKeyFiles _ Hdir) in Hall. discriminate Hall. }
    revert Hkeep Hthere.
    clear Hall.
    cbv beta iota zeta delta
      [do_remove_all sshKeygen run generateAuthorizedKeys write_file call
       emit get_this get_fs set_this set_fs throw exit mbind M_bind mret M_ret
       this fs trace final_state].
    repeat match goal with
      | |- context [match ?x with _ => _ end] =>
          lazymatch x with
          | context [match _ with _ => _ end] => fail
          | _ => destruct x as [[]|] eqn:?
          end
      end.
    all: cbn [sshKeysDirInHost set_dropbearDirInHost set_sshKeysDirInHost].
    all: intros Hkeep Hthere file Hfile; apply exists_true.
    all: rewrite (Hkeep _ _ _ _ Hfile Hp2), (Hkeep _ _ _ _ Hfile Hp1); auto.
Qed.

Lemma existing_keys_are_kept_without_overwrite_witness :
  let o := generateSshKeys (Sample.platform 1000 1000 Sample.publicKeyText) false
             (initially filesWithKeys) in
  let dir := sshKeysDirInHost (this (final_state o)) in
  dir = keystore
  /\ existsb (of_kinds [K_filesystem_remove_all; K_executeCommand; K_ofstream])
       (trace (final_state o)) = false
  /\ fs (final_state o) !! (dir // "id_dropbear") = Some (mkFile "USER KEY" 384).
Proof.
  intros o dir. split; [vm_compute; reflexivity|].
  destruct (existing_keys_are_kept_without_overwrite
              (Sample.platform 1000 1000 Sample.publicKeyText) filesWithKeys)
    as [Hnone Hsame].
  - intros e files files' file _ Hperform.
    change (Some files = Some files') in Hperform. by injection Hperform as <-.
  - intros file Hfile. unfold expectedKeyFiles in Hfile.
    repeat (apply elem_of_cons in Hfile as [->|Hfile]); [vm_compute; eauto..|].
    by apply elem_of_nil in Hfile.
  - split; [exact Hnone|].
    etransitivity; [apply (Hsame "id_dropbear")|vm_compute; reflexivity].
    unfold expectedKeyFiles. right. by left.
Defined.

(** X25: generate-ssh-keys touches the key files only while it holds the
    lock on the key store, and never ends holding it: in every run, no key
    file is looked up, removed, generated or written before the lock has
    been acquired; and once the lock has been asked for, either the
    acquisition itself failed, or the release of the lock is the last call
    of the run, whether the run returns or fails. *)
Theorem keygen_works_under_the_lock_and_releases_it :
  forall (P : Platform) (overwriteSshKeysIfExist : bool) (fs0 : FS),
    let o := generateSshKeys P overwriteSshKeysIfExist (initially fs0) in
    let dir := sshKeysDirInHost (this (final_state o)) in
    not_until
      (of_kinds [K_filesystem_exists; K_filesystem_remove_all; K_executeCommand; K_ofstream])
      (of_kinds [K_Lockfile_acquire]) (trace (final_state o)) = true
    /\ (existsb (of_kinds [K_Lockfile_acquire]) (trace (final_state o)) = true ->
        (exists s', o = Throw (CollaboratorFailed (Lockfile_acquire dir)) s')
        \/ last (trace (final_state o)) = Some (Lockfile_release dir)).
Proof.
  intros P overwrite fs0. red_keys.
  match goal with
  | |- context [getUsername P ?u ?s] =>
      destruct (looks_up_getUsername P u s) as (evs1 & H1 & Hk1 & Hx1);
      destruct (getUsername P u s) as [name s1|e s1|st s1]; cbn [final_state] in H1; subst s1;
      [|red_keys|done]
  end.
  2: { split; [not_until_auto|]. intros H. exfalso.
       match type of H with
       | existsb ?q ?tr = true => assert (Hn : existsb q tr = false) by solve [existsb_auto]
       end. congruence. }
  red_keys.
  match goal with
  | |- context [getSshKeysDirInHost P ?u ?s] =>
      destruct (looks_up_getSshKeysDirInHost P u s) as (evs2 & H2 & Hk2 & Hx2);
      destruct (getSshKeysDirInHost P u s) as [dir s2|e s2|st s2]; cbn [final_state] in H2; subst s2;
      [|red_keys|done]
  end.
  2: { split; [not_until_auto|]. intros H. exfalso.
       match type of H with
       | existsb ?q ?tr = true => assert (Hn : existsb q tr = false) by solve [existsb_auto]
       end. congruence. }
  red_keys.
  destruct (environ P "DROPBEAR_DIR") as [dropbearDir|]; red_keys.
  2: { split; [not_until_auto|]. intros H. exfalso.
       match type of H with
       | existsb ?q ?tr = true => assert (Hn : existsb q tr = false) by solve [existsb_auto]
       end. congruence. }
  destruct (perform P (createFoldersIfNecessary dir None) fs0) as [fs1|] eqn:Hp1; red_keys.
  2: { split; [not_until_auto|]. intros H. exfalso.
       match type of H with
       | existsb ?q ?tr = true => assert (Hn : existsb q tr = false) by solve [existsb_auto]
       end. congruence. }
  destruct (perform P (Lockfile_acquire dir) fs1) as [fs2|] eqn:Hp2; red_keys.
  2: { split; [not_until_auto|]. intros _. left. eexists. reflexivity. }
  match goal with
  | |- context [allExistIn ?d ?l ?s] =>
      destruct (allExistIn_outcome d l s) as (evs3 & -> & Hk3)
  end.
  cbn [this fs trace].
  destruct (forallb _ expectedKeyFiles && negb overwrite).
  - cbn [final_state this fs trace sshKeysDirInHost set_dropbearDirInHost
         set_sshKeysDirInHost mret M_ret exit_status].
    split; [not_until_auto|]. intros _. right. apply last_snoc.
  - cbv beta iota zeta delta
      [do_remove_all sshKeygen run generateAuthorizedKeys write_file call
       emit get_this get_fs set_this set_fs throw exit mbind M_bind mret M_ret
       this fs trace final_state].
    repeat match goal with
      | |- context [match ?x with _ => _ end] =>
          lazymatch x with
          | context [match _ with _ => _ end] => fail
          | _ => destruct x as [[]|] eqn:?
          end
      end.
    all: cbn [sshKeysDirInHost set_dropbearDirInHost set_sshKeysDirInHost exit_status].
    all: split; [not_until_auto|]; intros _; right; apply last_snoc.
Qed.

Lemma keygen_works_under_the_lock_and_releases_it_witness :
  let o := generateSshKeys (Sample.platform 1000 1000 Sample.publicKeyText) false
             (initially Sample.files) in
  last (trace (final_state o))
  = Some (Lockfile_release (sshKeysDirInHost (this (final_state o)))).
Proof.
  intros o.
  destruct (keygen_works_under_the_lock_and_releases_it
              (Sample.platform 1000 1000 Sample.publicKeyText) false Sample.files)
    as [_ H].
  destruct H as [[s' H]|H].
  - vm_compute. reflexivity.
  - exfalso. vm_compute in H. discriminate H.
  - exact H.
Defined.

Lemma yields_run P command : yields (exactly [K_executeCommand]) (run P command).
Proof.
  intros s a s'. unfold run.
  destruct (commandResult P command (fs s)) as [[output fs']|]; [|discriminate].
  intros [= _ <-]. by eexists [_].
Qed.

Lemma yields_with_Lockfile {A} P L dir (scope : M A) :
  yields L scope ->
  yields (followed_by (exactly [K_Lockfile_acquire])
            (followed_by L (exactly [K_Lockfile_release])))
    (with_Lockfile P dir scope).
Proof.
  intros Hscope s a s' (s1 & s2 & Hacq & Hrun & ->)%with_Lockfile_Return.
  destruct (yields_call P (Lockfile_acquire dir) _ eq_refl _ _ _ Hacq) as (evs1 & Ht1 & Hk1).
  destruct (Hscope _ _ _ Hrun) as (evs2 & Ht2 & Hk2).
  exists (evs1 ++ evs2 ++ [Lockfile_release dir])%list. split.
  - unfold release. cbn [trace]. rewrite Ht2, Ht1, <- !app_assoc. reflexivity.
  - rewrite !map_app. eexists _, _. split; [reflexivity|]. split; [exact Hk1|].
    eexists _, _. split; [reflexivity|]. split; [exact Hk2|reflexivity].
Qed.

Lemma yields_allExistIn dir files :
  yields (fun ks => exists n, (n <= length files)%nat /\ ks = replicate n K_filesystem_exists)
    (allExistIn dir files).
Proof.
  induction files as [|file files IH]; intros [h fs0 tr] a s' Hrun; cbn [allExistIn] in Hrun.
  - injection Hrun as _ <-. exists []. rewrite app_nil_r. split; [done|]. by exists 0%nat.
  - cbv beta iota zeta delta [exists_file emit get_fs mbind M_bind mret M_ret this fs trace]
      in Hrun.
    destruct (exists_ fs0 (dir // file)).
    + destruct (IH _ _ _ Hrun) as (evs & Ht & n & Hn & Hk).
      cbn [trace] in *. exists (filesystem_exists (dir // file) :: evs).
      split; [by rewrite Ht, <- app_assoc|].
      exists (S n). split; [cbn; lia|]. cbn. by rewrite Hk.
    + injection Hrun as _ <-. exists [filesystem_exists (dir // file)]. split; [done|].
      exists 1%nat. split; [cbn; lia|done].
Qed.

Lemma yields_unless_overwrite {A} L1 L2 (has overwrite : bool) (m1 m2 : M A) :
  yields L1 m1 -> yields L2 m2 ->
  yields (fun ks => (overwrite = false /\ L1 ks) \/ L2 ks)
    (if has && negb overwrite then m1 else m2).
Proof.
  intros H1 H2.
  destruct has, overwrite; cbn [andb negb];
    (eapply yields_weaken; [first [exact H1|exact H2]|]); cbv beta; auto.
Qed.

Ltac yields_step_keys :=
  first
    [ apply yields_run | apply yields_allExistIn
    | apply yields_with_Lockfile
    | eapply yields_unless_overwrite
    | yields_step ].

Lemma yields_generateSshKeys P overwriteSshKeysIfExist :
  yields (fun ks => exists n generated,
                      ks = keygen_steps n generated
                      /\ (n <= 3)%nat
                      /\ (overwriteSshKeysIfExist = true -> generated = true))
    (generateSshKeys P overwriteSshKeysIfExist).
Proof.
  eapply yields_weaken.
  - unfold generateSshKeys, userHasSshKeys, getUsername, getSshKeysDirInHost, sshKeygen,
      generateAuthorizedKeys, open_PasswdDB, getenv, write_file, do_remove_all, or_throw.
    repeat yields_step_keys.
  - cbv beta. intros ks H. open_steps.
    repeat match goal with
      | H : exists _, _ |- _ => destruct H as (? & ? & ->)
      end.
    match goal with
    | H : _ \/ _ |- _ => destruct H as [[-> ?]|?]
    end; open_steps.
    + eexists _, false. split; [|split; [eassumption|discriminate]].
      unfold keygen_steps. cbn [app]. rewrite <- ?app_assoc, ?app_nil_r. reflexivity.
    + eexists _, true. split; [|split; [eassumption|done]].
      unfold keygen_steps. cbn [app]. rewrite <- ?app_assoc, ?app_nil_r. reflexivity.
Qed.

(** X26: the calls of a run of generate-ssh-keys that returns are those of
    [keygen_steps], in that order: the lock is taken after the folder of
    the key store exists and before the first key file is looked up; the
    key store is removed before a key is generated; the host key, the user
    key and the public key are generated in that order, and
    [authorized_keys] is written last, before the lock is released. With
    [--overwrite] the keys are always generated. *)
Theorem keygen_steps_run_in_order :
  forall (P : Platform) (overwriteSshKeysIfExist : bool) (fs0 : FS),
    let o := generateSshKeys P overwriteSshKeysIfExist (initially fs0) in
    returns o = true ->
    exists lookups generated,
      map kind (trace (final_state o)) = keygen_steps lookups generated
      /\ (lookups <= 3)%nat
      /\ (overwriteSshKeysIfExist = true -> generated = true).
Proof.
  intros P overwrite fs0 o Hret. subst o.
  destruct (generateSshKeys P overwrite (initially fs0)) as [a s'| |] eqn:Hrun;
    [|discriminate..].
  destruct (yields_generateSshKeys P overwrite _ _ _ Hrun) as (evs & Ht & n & g & Hk & Hn & Hg).
  exists n, g. cbn in *. by rewrite Ht.
Qed.

Lemma keygen_steps_run_in_order_witness :
  let o := generateSshKeys (Sample.platform 1000 1000 Sample.publicKeyText) true
             (initially Sample.files) in
  exists lookups,
    map kind (trace (final_state o)) = keygen_steps lookups true.
Proof.
  intros o.
  destruct (keygen_steps_run_in_order (Sample.platform 1000 1000 Sample.publicKeyText) true
              Sample.files) as (lookups & generated & Hsteps & _ & Hgenerated).
  - vm_compute. reflexivity.
  - exists lookups. rewrite (Hgenerated eq_refl) in Hsteps. exact Hsteps.
Defined.

Lemma no_newline_app s t : no_newline (s +:+ t) = no_newline s && no_newline t.
Proof.
  induction s as [|c s IH]; [done|].
  change (no_newline (String c s +:+ t))
    with (negb (Ascii.eqb c (ascii_of_nat 10)) && no_newline (s +:+ t)).
  rewrite IH. apply andb_assoc.
Qed.

Lemma getlines_aux_no_newline s : forall cur line,
  no_newline cur = true -> line ∈ getlines_aux s cur -> no_newline line = true.
Proof.
  induction s as [|c s IH]; intros cur line Hcur; cbn [getlines_aux].
  - destruct cur; [by intros ?%elem_of_nil|]. by intros ->%list_elem_of_singleton.
  - destruct (Ascii.eqb c (ascii_of_nat 10)) eqn:Hc.
    + intros [->|Hin]%elem_of_cons; [done|]. by apply (IH EmptyString).
    + apply IH. rewrite no_newline_app, Hcur. cbn. by rewrite Hc.
Qed.

Lemma getlines_aux_one_line key : forall cur,
  no_newline key = true -> getlines_aux (key +:+ endl) cur = [cur +:+ key].
Proof.
  induction key as [|c key IH]; intros cur Hkey.
  - rewrite append_empty.
    change (getlines_aux (EmptyString +:+ endl) cur)
      with (cur :: getlines_aux EmptyString EmptyString).
    reflexivity.
  - change (no_newline (String c key))
      with (negb (Ascii.eqb c (ascii_of_nat 10)) && no_newline key) in Hkey.
    apply andb_prop in Hkey as [Hc Hkey]. apply negb_true_iff in Hc.
    change (getlines_aux (String c key +:+ endl) cur)
      with (if Ascii.eqb c (ascii_of_nat 10)
            then cur :: getlines_aux (key +:+ endl) EmptyString
            else getlines_aux (key +:+ endl) (cur +:+ String c EmptyString)).
    rewrite Hc, (IH _ Hkey), append_assoc. reflexivity.
Qed.

Lemma firstMatch_first lines key :
  firstMatch lines = Some key ->
  exists before after,
    lines = (before ++ key :: after)%list
    /\ String.prefix "ecdsa-" key = true
    /\ Forall (fun line => String.prefix "ecdsa-" line = false) before.
Proof.
  induction lines as [|line lines IH]; cbn [firstMatch]; [discriminate|].
  unfold regex_match_ecdsa. destruct (String.prefix "ecdsa-" line) eqn:Hline.
  - intros [= <-]. by exists [], lines.
  - intros (before & after & -> & Hkey & Hbefore)%IH.
    exists (line :: before), after. repeat split; [done|]. by constructor.
Qed.


